(** * FoodSafetyIntelligence: the retrieval pipeline, embedded and verified

    A shallow embedding of the five core components of the repository
    (structural parser, entity extractor, chunker, routing table and
    similarity index) together with the properties its specification
    states about them.

    Conventions of the embedding.
    - A Python [str] is a [string]; one [ascii] stands for one character, so
      the model covers texts over an alphabet of 256 characters: the code
      points 0..255 (Latin-1), except that the positions 145..148, control
      characters that no text of the corpus holds, stand for the curly quotes
      U+2018, U+2019, U+201C and U+201D (their positions in Windows-1252),
      which the patterns of the extractor name.  The character predicates
      below ([isspace], [lower], ...) follow Python's Unicode tables on that
      alphabet.  The em dash and the arrow that the source writes into
      titles, context headers and routing reasons lie outside the alphabet:
      they are written as the three bytes of their UTF-8 form, and no
      property reads them.
    - Python [int] is [Z] where a caller chooses the value ([max_chars],
      [n_results], article numbers) and [nat] for lengths and positions.
    - A [dict] updated by key is a [gmap]; a [dict] literal of the source
      and a [dict] that is iterated are the list of their items, in
      insertion order; a [set] is a [gset].
    - An exception is a value of [exn] carried by the [result] type. *)

From Stdlib Require Import String Ascii List ZArith QArith Lia Permutation Sorted.
From Stdlib Require DecimalString DecimalZ DecimalNat DecimalPos DecimalFacts.
From stdpp Require Import gmap strings.
From Equations Require Import Equations.
Import ListNotations.

Close Scope Q_scope.
Local Open Scope Z_scope.
Local Open Scope nat_scope.

(* ===================================================================== *)
(** * Python strings                                                      *)
(* ===================================================================== *)

Module py.

Definition len (s : string) : nat := String.length s.

Definition nl : ascii := "010"%char.

(** [str.isspace] on one character of the Latin-1 range:
    TAB..CR, FS..US, SPACE, NEL and NBSP. *)
Definition isspace (c : ascii) : bool :=
  let n := N_of_ascii c in
  ((9 <=? n) && (n <=? 13) || (28 <=? n) && (n <=? 32)
   || (n =? 133) || (n =? 160))%N.

(** [str.lower] on one character: A..Z and the Latin-1 capitals
    (0xC0..0xDE without the multiplication sign). *)
Definition lower_char (c : ascii) : ascii :=
  let n := N_of_ascii c in
  if ((65 <=? n) && (n <=? 90)
      || (192 <=? n) && (n <=? 222) && negb (n =? 215))%N
  then ascii_of_N (n + 32) else c.

Fixpoint lower (s : string) : string :=
  match s with
  | EmptyString => EmptyString
  | String c s' => String (lower_char c) (lower s')
  end.

Fixpoint lstrip (s : string) : string :=
  match s with
  | EmptyString => EmptyString
  | String c s' => if isspace c then lstrip s' else s
  end.

Fixpoint rstrip (s : string) : string :=
  match s with
  | EmptyString => EmptyString
  | String c s' =>
      match rstrip s' with
      | EmptyString => if isspace c then EmptyString else String c EmptyString
      | r => String c r
      end
  end.

(** [s.strip()] *)
Definition strip (s : string) : string := rstrip (lstrip s).

(** Truth value of a string: [if s:] *)
Definition truthy (s : string) : bool :=
  match s with EmptyString => false | _ => true end.

(** [s.split(sep)] for a one-character separator: never the empty list. *)
Fixpoint split (sep : ascii) (s : string) : list string :=
  match s with
  | EmptyString => [EmptyString]
  | String c s' =>
      if Ascii.eqb c sep then EmptyString :: split sep s'
      else match split sep s' with
           | h :: t => String c h :: t
           | [] => [String c EmptyString]
           end
  end.

(** [sep.join(parts)] *)
Fixpoint join (sep : string) (parts : list string) : string :=
  match parts with
  | [] => EmptyString
  | [p] => p
  | p :: rest => p +:+ sep +:+ join sep rest
  end.

(** [c in s] for a character *)
Fixpoint has_char (c : ascii) (s : string) : bool :=
  match s with
  | EmptyString => false
  | String d s' => Ascii.eqb d c || has_char c s'
  end.

(** [s.startswith(p)] *)
Fixpoint startswith (p s : string) : bool :=
  match p, s with
  | EmptyString, _ => true
  | String a p', String b s' => Ascii.eqb a b && startswith p' s'
  | String _ _, EmptyString => false
  end.

(** [p in s] for strings *)
Fixpoint contains (p s : string) : bool :=
  startswith p s ||
  match s with
  | EmptyString => false
  | String _ s' => contains p s'
  end.

(** [s.find(c)] for a character, [None] standing for -1 *)
Fixpoint find_char (c : ascii) (s : string) : option nat :=
  match s with
  | EmptyString => None
  | String d s' =>
      if Ascii.eqb d c then Some 0 else S <$> find_char c s'
  end.

(** [s[a:b]] for in-range [0 <= a], [0 <= b] *)
Definition slice (a b : nat) (s : string) : string :=
  String.substring a (b - a) s.

(** [s.rstrip(chars)] *)
Fixpoint rstrip_chars (chars s : string) : string :=
  match s with
  | EmptyString => EmptyString
  | String c s' =>
      match rstrip_chars chars s' with
      | EmptyString => if has_char c chars then EmptyString else String c EmptyString
      | r => String c r
      end
  end.

(** [re.sub(r"\s+", " ", s)]: every run of whitespace becomes one blank.
    [in_run] tells whether the previous character was whitespace. *)
Fixpoint collapse_spaces (in_run : bool) (s : string) : string :=
  match s with
  | EmptyString => EmptyString
  | String c s' =>
      if isspace c
      then if in_run then collapse_spaces true s'
           else String " " (collapse_spaces true s')
      else String c (collapse_spaces false s')
  end.

Definition sum_len (l : list string) : nat :=
  fold_right (fun p n => len p + n) 0 l.

(** ** Lengths *)

Lemma len_app s t : len (s +:+ t) = len s + len t.
Proof. induction s as [|c s IH]; simpl; [reflexivity | now rewrite IH]. Qed.

Lemma lstrip_len s : len (lstrip s) <= len s.
Proof.
  induction s as [|c s IH]; simpl; [lia|].
  destruct (isspace c); simpl; lia.
Qed.

Lemma rstrip_len s : len (rstrip s) <= len s.
Proof.
  induction s as [|c s IH]; simpl; [lia|].
  destruct (rstrip s); [destruct (isspace c)|]; simpl in *; lia.
Qed.

Lemma strip_len s : len (strip s) <= len s.
Proof.
  unfold strip. etransitivity; [apply rstrip_len | apply lstrip_len].
Qed.

Lemma sum_len_app l1 l2 : sum_len (l1 ++ l2) = sum_len l1 + sum_len l2.
Proof. induction l1 as [|p l1 IH]; simpl; [reflexivity | rewrite IH; lia]. Qed.

(** ** Characters of a string *)

Lemma has_char_app c s t : has_char c (s +:+ t) = has_char c s || has_char c t.
Proof.
  induction s as [|d s IH]; simpl; [reflexivity|].
  rewrite IH. now rewrite orb_assoc.
Qed.

Lemma has_char_lstrip c s : has_char c (lstrip s) = true -> has_char c s = true.
Proof.
  induction s as [|d s IH]; simpl; [easy|].
  destruct (isspace d); simpl; [|easy].
  intros H. rewrite (IH H). apply orb_true_r.
Qed.

Lemma has_char_rstrip c s : has_char c (rstrip s) = true -> has_char c s = true.
Proof.
  induction s as [|d s IH]; simpl; [easy|].
  destruct (rstrip s) as [|e r].
  - destruct (isspace d); simpl; [easy|].
    rewrite orb_false_r. intros ->. reflexivity.
  - simpl in *. destruct (Ascii.eqb d c); simpl; [easy|]. exact IH.
Qed.

Lemma has_char_strip c s : has_char c (strip s) = true -> has_char c s = true.
Proof. intros H. now apply has_char_lstrip, has_char_rstrip. Qed.

(** ** Blank strings *)

Fixpoint all_space (s : string) : bool :=
  match s with
  | EmptyString => true
  | String c s' => isspace c && all_space s'
  end.

Lemma rstrip_empty s : rstrip s = EmptyString <-> all_space s = true.
Proof.
  induction s as [|c s IH]; simpl; [easy|].
  destruct (rstrip s) as [|d r].
  - destruct (isspace c); simpl; [|easy].
    split; intros _; [now apply IH | reflexivity].
  - split; [easy|]. intros [_ H]%andb_prop. apply IH in H. discriminate H.
Qed.

Lemma all_space_lstrip s : all_space (lstrip s) = all_space s.
Proof.
  induction s as [|c s IH]; simpl; [reflexivity|].
  destruct (isspace c) eqn:E; simpl; [exact IH | now rewrite E].
Qed.

Lemma strip_empty s : strip s = EmptyString <-> all_space s = true.
Proof. unfold strip. now rewrite rstrip_empty, all_space_lstrip. Qed.

Lemma truthy_false s : truthy s = false <-> s = EmptyString.
Proof. destruct s; simpl; split; congruence. Qed.

Lemma truthy_true s : truthy s = true <-> s <> EmptyString.
Proof. destruct s; simpl; split; congruence. Qed.

(** ** [strip] is idempotent *)

Lemma rstrip_idem s : rstrip (rstrip s) = rstrip s.
Proof.
  induction s as [|c s IH]; simpl; [reflexivity|].
  destruct (rstrip s) as [|d r] eqn:E.
  - destruct (isspace c) eqn:Ec; simpl; [reflexivity | now rewrite Ec].
  - change (rstrip (String c (String d r))) with
      (match rstrip (String d r) with
       | EmptyString => if isspace c then EmptyString else String c EmptyString
       | x => String c x
       end).
    rewrite IH. reflexivity.
Qed.

Lemma lstrip_rstrip_head c s :
  isspace c = false -> lstrip (rstrip (String c s)) = rstrip (String c s).
Proof.
  intros Hc. simpl. destruct (rstrip s); rewrite ?Hc; simpl; now rewrite Hc.
Qed.

Lemma strip_idem s : strip (strip s) = strip s.
Proof.
  unfold strip. induction s as [|c s IH]; simpl; [reflexivity|].
  destruct (isspace c) eqn:Ec; [exact IH|].
  rewrite (lstrip_rstrip_head c s Ec). apply rstrip_idem.
Qed.

(** ** [split] and [join] *)

Definition NL : string := String nl EmptyString.

Lemma split_not_nil sep s : split sep s <> [].
Proof.
  destruct s as [|c s]; simpl; [easy|].
  destruct (Ascii.eqb c sep); [easy|]. now destruct (split sep s).
Qed.

Lemma split_no_sep sep s l : In l (split sep s) -> has_char sep l = false.
Proof.
  revert l. induction s as [|c s IH]; simpl; intros l.
  - intros [<-|[]]. reflexivity.
  - destruct (Ascii.eqb c sep) eqn:E.
    + intros [<-|H]; [reflexivity | now apply IH].
    + destruct (split sep s) as [|h t].
      * intros [<-|[]]. simpl. now rewrite E.
      * intros [<-|H]; [|apply IH; now right].
        simpl. rewrite E. apply IH. now left.
Qed.

Lemma split_app sep a b :
  split sep (a +:+ String sep b) = split sep a ++ split sep b.
Proof.
  induction a as [|c a IH]; simpl.
  - now rewrite Ascii.eqb_refl.
  - rewrite IH. destruct (Ascii.eqb c sep); [reflexivity|].
    destruct (split sep a) eqn:E; [|reflexivity].
    now destruct (split_not_nil sep a).
Qed.

Lemma split_id sep s : has_char sep s = false -> split sep s = [s].
Proof.
  induction s as [|c s IH]; simpl; [reflexivity|].
  intros [Hc Hs]%orb_false_elim. rewrite Hc, (IH Hs). reflexivity.
Qed.

Lemma split_join l :
  l <> [] -> split nl (join NL l) = flat_map (split nl) l.
Proof.
  induction l as [|p [|q rest] IH]; intros Hl; [easy | |].
  - simpl. now rewrite app_nil_r.
  - change (join NL (p :: q :: rest)) with (p +:+ String nl (join NL (q :: rest))).
    rewrite split_app, IH by easy. reflexivity.
Qed.

Lemma join_split s : join NL (split nl s) = s.
Proof.
  induction s as [|c s IH]; [reflexivity|]. cbn [split].
  pose proof (split_not_nil nl s) as Hne.
  destruct (Ascii.eqb c nl) eqn:E.
  - apply Ascii.eqb_eq in E as ->.
    destruct (split nl s) as [|h t]; [easy|].
    change (join NL (EmptyString :: h :: t)) with (String nl (join NL (h :: t))).
    now rewrite IH.
  - destruct (split nl s) as [|h [|h' t]]; [easy | |].
    + simpl in *. now rewrite IH.
    + change (join NL (String c h :: h' :: t))
        with (String c (join NL (h :: h' :: t))).
      now rewrite IH.
Qed.

Lemma flat_map_split_id l :
  Forall (fun p => has_char nl p = false) l -> flat_map (split nl) l = l.
Proof.
  induction 1 as [|p l Hp _ IH]; simpl; [reflexivity|].
  now rewrite (split_id _ _ Hp), IH.
Qed.

Lemma split_len sep s l : In l (split sep s) -> len l <= len s.
Proof.
  revert l. induction s as [|c s IH]; simpl; intros l.
  - intros [<-|[]]. simpl. lia.
  - destruct (Ascii.eqb c sep).
    + intros [<-|H]; [simpl; lia | specialize (IH _ H); lia].
    + destruct (split sep s) as [|h t].
      * intros [<-|[]]. simpl. lia.
      * intros [<-|H].
        -- specialize (IH h (or_introl eq_refl)). simpl. lia.
        -- specialize (IH l (or_intror H)). lia.
Qed.

(** Every character is either a separator or inside a piece. *)
Lemma split_total_len sep s :
  len s + 1 = sum_len (split sep s) + length (split sep s).
Proof.
  induction s as [|c s IH]; simpl; [reflexivity|].
  destruct (Ascii.eqb c sep); simpl; [lia|].
  destruct (split sep s) as [|h t]; simpl in *; lia.
Qed.

Lemma split_has_sep sep s :
  has_char sep s = true -> 2 <= length (split sep s).
Proof.
  induction s as [|c s IH]; simpl; [easy|].
  destruct (Ascii.eqb c sep); simpl.
  - intros _. pose proof (split_not_nil sep s).
    destruct (split sep s); simpl; [easy | lia].
  - intros H. specialize (IH H). destruct (split sep s); simpl in *; lia.
Qed.

Lemma all_space_split sep s l :
  all_space s = true -> In l (split sep s) -> all_space l = true.
Proof.
  revert l. induction s as [|c s IH]; simpl; intros l.
  - intros _ [<-|[]]. reflexivity.
  - intros [Hc Hs]%andb_prop. destruct (Ascii.eqb c sep).
    + intros [<-|H]; [reflexivity | now apply IH].
    + destruct (split sep s) as [|h t].
      * intros [<-|[]]. simpl. now rewrite Hc.
      * intros [<-|H]; [|apply IH; [easy | now right]].
        simpl. rewrite Hc. apply IH; [easy | now left].
Qed.

Lemma split_all_space s :
  Forall (fun l => all_space l = true) (split nl s) -> all_space s = true.
Proof.
  induction s as [|c s IH]; simpl; [easy|].
  destruct (Ascii.eqb c nl) eqn:E.
  - apply Ascii.eqb_eq in E as ->. intros H. inversion_clear H. simpl. auto.
  - destruct (split nl s) as [|h t].
    + intros H. inversion_clear H. simpl in *.
      apply andb_prop in H0 as [-> _]. simpl. apply IH. constructor.
    + intros H. inversion_clear H. simpl in *.
      apply andb_prop in H0 as [-> Hh]. simpl. apply IH. now constructor.
Qed.

(** ** Decimal numerals: [str(n)] *)

(** [c.isdecimal()] on the modelled range: the digits 0..9. *)
Definition isdecimal (c : ascii) : bool :=
  let n := N_of_ascii c in ((48 <=? n) && (n <=? 57))%N.

Fixpoint all_decimal (s : string) : bool :=
  match s with
  | EmptyString => true
  | String c s' => isdecimal c && all_decimal s'
  end.

(** [str(n)] for an [int]: its decimal digits, after a minus sign when it is
    negative. *)
Definition str_int (z : Z) : string :=
  DecimalString.NilZero.string_of_int (Z.to_int z).

(** [str(n)] for a length or a position. *)
Definition str_nat (n : nat) : string :=
  DecimalString.NilZero.string_of_uint (Nat.to_uint n).

Lemma app_cons x (a b : string) : String x a +:+ b = String x (a +:+ b).
Proof. reflexivity. Qed.

Lemma app_assoc_str (a b c : string) : (a +:+ b) +:+ c = a +:+ b +:+ c.
Proof.
  induction a as [|x a IH]; [reflexivity|]. rewrite !app_cons. now f_equal.
Qed.

(** Cancelling a common suffix. *)
Lemma app_inv_tail_str (c : string) : forall a b, a +:+ c = b +:+ c -> a = b.
Proof.
  assert (Hlen : forall a b : string, a +:+ c = b +:+ c -> len a = len b).
  { intros a b H. apply (f_equal len) in H. rewrite !len_app in H. lia. }
  induction a as [|x a IH]; intros [|y b] H.
  - reflexivity.
  - apply Hlen in H. discriminate H.
  - apply Hlen in H. discriminate H.
  - rewrite !app_cons in H. injection H as -> H. f_equal. now apply IH.
Qed.

Lemma all_decimal_app a b :
  all_decimal (a +:+ b) = all_decimal a && all_decimal b.
Proof.
  induction a as [|x a IH]; [reflexivity|].
  rewrite app_cons. simpl. now rewrite IH, andb_assoc.
Qed.

(** A text that ends in a character which is no digit followed by digits
    only is cut there in one way. *)
Lemma decimal_tail_inj p1 c1 d1 : forall p2 c2 d2,
  isdecimal c1 = false -> isdecimal c2 = false ->
  all_decimal d1 = true -> all_decimal d2 = true ->
  p1 +:+ String c1 d1 = p2 +:+ String c2 d2 ->
  p1 = p2 /\ c1 = c2 /\ d1 = d2.
Proof.
  induction p1 as [|x p1 IH]; intros [|y p2] c2 d2 Hc1 Hc2 Hd1 Hd2 H;
    rewrite ?app_cons in H; change (EmptyString +:+ ?s) with s in H.
  - now injection H as -> ->.
  - injection H as -> ->. rewrite all_decimal_app in Hd1. simpl in Hd1.
    rewrite Hc2 in Hd1. simpl in Hd1. now rewrite andb_false_r in Hd1.
  - injection H as <- <-. rewrite all_decimal_app in Hd2. simpl in Hd2.
    rewrite Hc1 in Hd2. simpl in Hd2. now rewrite andb_false_r in Hd2.
  - injection H as -> H.
    destruct (IH p2 c2 d2 Hc1 Hc2 Hd1 Hd2 H) as (-> & -> & ->). easy.
Qed.

Lemma string_of_uint_decimal d :
  all_decimal (DecimalString.NilEmpty.string_of_uint d) = true.
Proof. induction d; simpl; [reflexivity | assumption ..]. Qed.

Lemma to_uint_nonnil n : Nat.to_uint n <> Decimal.Nil.
Proof.
  rewrite <- (DecimalNat.Unsigned.of_to n) at 1.
  rewrite DecimalNat.Unsigned.to_of. apply DecimalFacts.unorm_nonnil.
Qed.

Lemma str_nat_decimal n : all_decimal (str_nat n) = true.
Proof.
  unfold str_nat, DecimalString.NilZero.string_of_uint.
  destruct (Nat.to_uint n); try reflexivity; apply (string_of_uint_decimal (_ _)).
Qed.

Lemma str_nat_inj n m : str_nat n = str_nat m -> n = m.
Proof.
  unfold str_nat. intros H.
  apply DecimalNat.Unsigned.to_uint_inj.
  pose proof (DecimalString.NilZero.usu _ (to_uint_nonnil n)) as Hn.
  pose proof (DecimalString.NilZero.usu _ (to_uint_nonnil m)) as Hm.
  rewrite H in Hn. congruence.
Qed.

(** [str(z)] is a run of digits, or a minus sign and a run of digits. *)
Lemma str_int_shape z :
  all_decimal (str_int z) = true
  \/ exists d, str_int z = String "-" d /\ all_decimal d = true.
Proof.
  unfold str_int, DecimalString.NilZero.string_of_int.
  destruct (Z.to_int z) as [d|d]; [left | right; eexists; split; [reflexivity|]];
    unfold DecimalString.NilZero.string_of_uint;
    destruct d; try reflexivity; apply (string_of_uint_decimal (_ _)).
Qed.

Lemma str_int_inj z z' : str_int z = str_int z' -> z = z'.
Proof.
  unfold str_int. intros H. apply DecimalZ.to_int_inj.
  assert (Hnn : forall z, Z.to_int z <> Decimal.Pos Decimal.Nil
                          /\ Z.to_int z <> Decimal.Neg Decimal.Nil).
  { intros [|p|p]; simpl; split; try discriminate;
      intros [= Hp]; now apply DecimalPos.Unsigned.to_uint_nonnil in Hp. }
  pose proof (DecimalString.NilZero.isi _ (proj1 (Hnn z)) (proj2 (Hnn z))) as Hz.
  pose proof (DecimalString.NilZero.isi _ (proj1 (Hnn z')) (proj2 (Hnn z'))) as Hz'.
  rewrite H in Hz. congruence.
Qed.

(** ** Texts without blanks at their ends *)

Lemma lstrip_fixed s : len (lstrip s) = len s -> lstrip s = s.
Proof.
  destruct s as [|c s]; [reflexivity|]. simpl.
  destruct (isspace c); [|reflexivity].
  pose proof (lstrip_len s). simpl. lia.
Qed.

Lemma strip_fixed s : strip s = s -> lstrip s = s /\ rstrip s = s.
Proof.
  intros H. assert (lstrip s = s) as Hl.
  { apply lstrip_fixed. apply (f_equal len) in H. unfold strip in H.
    pose proof (rstrip_len (lstrip s)). pose proof (lstrip_len s). lia. }
  split; [exact Hl|]. unfold strip in H. now rewrite Hl in H.
Qed.

Lemma lstrip_app s t : s <> EmptyString -> lstrip s = s -> lstrip (s +:+ t) = s +:+ t.
Proof.
  destruct s as [|c s]; [easy|]. intros _ H. rewrite app_cons. simpl in *.
  destruct (isspace c); [|reflexivity].
  apply (f_equal len) in H. pose proof (lstrip_len s). simpl in H. lia.
Qed.

Lemma rstrip_app s t : t <> EmptyString -> rstrip t = t -> rstrip (s +:+ t) = s +:+ t.
Proof.
  intros Hne Ht. induction s as [|c s IH]; [exact Ht|].
  rewrite app_cons. simpl. rewrite IH.
  destruct (s +:+ t) eqn:E; [|reflexivity].
  apply (f_equal len) in E. rewrite len_app in E.
  destruct t; [easy | simpl in E; lia].
Qed.

Lemma app_nonempty_r (s t : string) : t <> EmptyString -> s +:+ t <> EmptyString.
Proof.
  intros Ht E. apply (f_equal len) in E. rewrite len_app in E.
  destruct t; [easy | simpl in E; lia].
Qed.

(** Joining texts that are non-empty and have no blank at either end gives
    such a text, or the empty text when there is nothing to join. *)
Lemma strip_join sep parts :
  Forall (fun p => strip p = p /\ p <> EmptyString) parts ->
  strip (join sep parts) = join sep parts
  /\ (parts <> [] -> join sep parts <> EmptyString).
Proof.
  intros Hall.
  assert (Hr : rstrip (join sep parts) = join sep parts
               /\ (parts <> [] -> join sep parts <> EmptyString)).
  { induction Hall as [|p parts [Hp Hne] Hall IH]; [now split|].
    destruct parts as [|q parts]; [now split; [apply strip_fixed|]|].
    destruct IH as [IHr IHne]. cbn [join].
    rewrite <- app_assoc_str. split.
    - apply rstrip_app; [now apply IHne | exact IHr].
    - intros _. now apply app_nonempty_r, IHne. }
  split; [|apply Hr]. unfold strip.
  destruct Hall as [|p parts [Hp Hne] Hall]; [reflexivity|].
  assert (lstrip (join sep (p :: parts)) = join sep (p :: parts)) as ->;
    [|apply Hr].
  destruct parts as [|q parts]; [now apply strip_fixed|].
  cbn [join]. apply lstrip_app; [exact Hne | now apply strip_fixed].
Qed.

(** ** Lower case and stripping *)

Lemma lower_char_idem c : lower_char (lower_char c) = lower_char c.
Proof. destruct c as [[] [] [] [] [] [] [] []]; reflexivity. Qed.

Lemma isspace_lower_char c : isspace (lower_char c) = isspace c.
Proof. destruct c as [[] [] [] [] [] [] [] []]; reflexivity. Qed.

Lemma lower_idem s : lower (lower s) = lower s.
Proof.
  induction s as [|c s IH]; simpl; [reflexivity|]. now rewrite lower_char_idem, IH.
Qed.

Lemma lower_lstrip s : lower (lstrip s) = lstrip (lower s).
Proof.
  induction s as [|c s IH]; simpl; [reflexivity|].
  rewrite isspace_lower_char. now destruct (isspace c).
Qed.

Lemma lower_rstrip s : lower (rstrip s) = rstrip (lower s).
Proof.
  induction s as [|c s IH]; simpl; [reflexivity|].
  rewrite <- IH, isspace_lower_char.
  destruct (rstrip s); simpl; [now destruct (isspace c) | reflexivity].
Qed.

Lemma lower_strip s : lower (strip s) = strip (lower s).
Proof. unfold strip. now rewrite lower_rstrip, lower_lstrip. Qed.

(** [s.lower().strip()] applied twice is [s.lower().strip()]. *)
Lemma lower_strip_idem s : strip (lower (strip (lower s))) = strip (lower s).
Proof. now rewrite lower_strip, lower_idem, strip_idem. Qed.

Lemma startswith_refl p : startswith p p = true.
Proof.
  induction p as [|c p IH]; simpl; [reflexivity|]. now rewrite Ascii.eqb_refl.
Qed.

Lemma contains_refl p : contains p p = true.
Proof. destruct p; simpl; [reflexivity|]. now rewrite Ascii.eqb_refl, startswith_refl. Qed.

End py.

(* ===================================================================== *)
(** * Data model shared by the components                                 *)
(* ===================================================================== *)

(** [html_parser.Article] *)
Module Article.
Record t := mk {
  celex_id : string;
  article_number : Z;
  title : string;
  text : string;
  chapter : string;
  section : string
}.
End Article.

(** [html_parser.ParsedRegulation] *)
Module ParsedRegulation.
Record t := mk {
  celex_id : string;
  title : string;
  articles : list Article.t;
  preamble_text : string;
  format_type : string
}.
End ParsedRegulation.

(** [chunking.ArticleChunk]; [char_count] is filled in by [__post_init__]. *)
Module ArticleChunk.
Record t := mk {
  celex_id : string;
  article_number : Z;
  article_title : string;
  text : string;
  chapter : string;
  section : string;
  chunk_index : nat;
  total_chunks : nat;
  char_count : nat
}.

Definition init (celex_id : string) (article_number : Z)
    (article_title text chapter section : string)
    (chunk_index total_chunks : nat) : t :=
  mk celex_id article_number article_title text chapter section
     chunk_index total_chunks (py.len text).

(** A chunk object: the dataclass fields and the [_occurrence] attribute that
    [chunk_regulation] may set on it, [None] while it was never set. *)
Record obj := Obj {
  fields : t;
  _occurrence : option nat
}.

(** The [chunk_id] property; [getattr(self, "_occurrence", 0)] reads 0 from
    an object without the attribute. *)
Definition chunk_id (self : obj) : string :=
  let base :=
    celex_id (fields self) +:+ "_art" +:+ py.str_int (article_number (fields self)) in
  let occ := default 0 (_occurrence self) in
  let base := if 0 <? occ then base +:+ "_occ" +:+ py.str_nat occ else base in
  if total_chunks (fields self) =? 1 then base
  else base +:+ "_chunk" +:+ py.str_nat (chunk_index (fields self)).

(** The em dash of the header, as its UTF-8 bytes. *)
Definition EM_DASH : string :=
  String "226" (String "128" (String "148" EmptyString)).

(** The [context_header] property. *)
Definition context_header (self : t) : string :=
  py.join " "
    (["[" +:+ celex_id self +:+ "]"]
     ++ (if py.truthy (chapter self) then [chapter self] else [])
     ++ (if py.truthy (section self) then [section self] else [])
     ++ ["Article " +:+ py.str_int (article_number self)]
     ++ (if py.truthy (article_title self)
         then [EM_DASH +:+ " " +:+ article_title self] else [])
     ++ (if 1 <? total_chunks self
         then ["(part " +:+ py.str_nat (chunk_index self + 1) +:+ "/"
               +:+ py.str_nat (total_chunks self) +:+ ")"]
         else [])).

(** The [text_with_context] property. *)
Definition text_with_context (self : t) : string :=
  context_header self +:+ py.NL +:+ py.NL +:+ text self.
End ArticleChunk.

(* ===================================================================== *)
(** * The chunker ([src/retrieval/chunking.py])                           *)
(* ===================================================================== *)

Module chunking.

Definition MAX_CHUNK_CHARS : Z := 2000.
Definition MIN_CHUNK_CHARS : Z := 200.

(** The three variables the paragraph loop of [chunk_article] updates. *)
Record loop := Loop {
  chunks_text : list string;
  current_parts : list string;
  current_len : Z
}.

Definition loop_init : loop := Loop [] [] 0.

(** One iteration of [for para in paragraphs]. *)
Definition loop_body (max_chars : Z) (st : loop) (para : string) : loop :=
  let para := py.strip para in
  if negb (py.truthy para) then st
  else if ((current_len st + Z.of_nat (py.len para) >? max_chars)
           && (current_len st >=? MIN_CHUNK_CHARS))%Z
  then Loop (chunks_text st ++ [py.join py.NL (current_parts st)])
            [para] (Z.of_nat (py.len para))
  else Loop (chunks_text st) (current_parts st ++ [para])
            (current_len st + Z.of_nat (py.len para))%Z.

(** The code after the loop: merge a short tail into the previous chunk. *)
Definition loop_finish (st : loop) : list string :=
  match current_parts st with
  | [] => chunks_text st
  | _ =>
      if ((0 <? length (chunks_text st)) && (current_len st <? MIN_CHUNK_CHARS)%Z)
      then removelast (chunks_text st)
           ++ [List.last (chunks_text st) EmptyString
               +:+ py.NL +:+ py.join py.NL (current_parts st)]
      else chunks_text st ++ [py.join py.NL (current_parts st)]
  end.

Definition sub_chunks (text : string) (max_chars : Z) : list string :=
  loop_finish (fold_left (loop_body max_chars) (py.split py.nl text) loop_init).

Definition chunk_article (article : Article.t) (max_chars : Z)
  : list ArticleChunk.t :=
  let chunk text i total :=
    ArticleChunk.init (Article.celex_id article) (Article.article_number article)
      (Article.title article) text
      (Article.chapter article) (Article.section article) i total in
  if negb (py.truthy (py.strip (Article.text article))) then
    [chunk (if py.truthy (Article.title article)
            then Article.title article else "(empty article)") 0 1]
  else if (Z.of_nat (py.len (Article.text article)) <=? max_chars)%Z then
    [chunk (Article.text article) 0 1]
  else
    let chunks_text := sub_chunks (Article.text article) max_chars in
    let total := length chunks_text in
    imap (fun i text => chunk text i total) chunks_text.

(** ** Vocabulary of the properties *)

(** The paragraphs of a text, as the loop sees them: its lines, stripped,
    the empty ones left out. *)
Definition paras_of (lines : list string) : list string :=
  List.filter py.truthy (map py.strip lines).

Definition paragraphs (text : string) : list string :=
  paras_of (py.split py.nl text).

(** The chunk texts joined by newlines, in list order. *)
Definition reconstructed (chunks : list ArticleChunk.t) : string :=
  py.join py.NL (map ArticleChunk.text chunks).

(** A paragraph as the loop stores it. *)
Definition clean (p : string) : Prop :=
  py.strip p = p /\ p <> EmptyString /\ py.has_char py.nl p = false.

(** ** Examples *)

Definition art (title text : string) : Article.t :=
  Article.mk "32015R2283" 1 title text "CHAPTER I" "".

Fixpoint fill (c : ascii) (n : nat) : string :=
  match n with O => EmptyString | S n' => String c (fill c n') end.

Example chunk_short :
  chunk_article (art "Scope" ("one" +:+ py.NL +:+ "two")) 2000
  = [ArticleChunk.mk "32015R2283" 1 "Scope" ("one" +:+ py.NL +:+ "two")
       "CHAPTER I" "" 0 1 7].
Proof. reflexivity. Qed.

Example chunk_split :
  map ArticleChunk.text
    (chunk_article (art "T" (" ab " +:+ py.NL +:+ py.NL +:+ "cde" +:+ py.NL +:+ "f")) 3)
  = ["ab" +:+ py.NL +:+ "cde" +:+ py.NL +:+ "f"].
Proof. reflexivity. Qed.

(** The scenario of [test_small_last_chunk_merges]. *)
Example chunk_merge_tail :
  map ArticleChunk.char_count
    (chunk_article
       (art "Test merge"
          (fill "A" 1500 +:+ py.NL +:+ fill "B" 800 +:+ py.NL +:+ fill "C" 50))
       2000)
  = [1500; 851].
Proof. vm_compute. reflexivity. Qed.

(** ** The paragraph loop keeps every paragraph, in order *)

Lemma paras_of_app l1 l2 : paras_of (l1 ++ l2) = paras_of l1 ++ paras_of l2.
Proof. unfold paras_of. now rewrite map_app, List.filter_app. Qed.

Lemma strip_clean l :
  py.has_char py.nl l = false -> py.truthy (py.strip l) = true ->
  clean (py.strip l).
Proof.
  intros Hl Ht. repeat split.
  - apply py.strip_idem.
  - now apply py.truthy_true.
  - destruct (py.has_char py.nl (py.strip l)) eqn:E; [|reflexivity].
    apply py.has_char_strip in E. congruence.
Qed.

Lemma paras_of_clean lines :
  Forall (fun l => py.has_char py.nl l = false) lines ->
  Forall clean (paras_of lines).
Proof.
  induction 1 as [|l lines Hl _ IH]; [constructor|].
  change (l :: lines) with ([l] ++ lines). rewrite paras_of_app.
  apply Forall_app. split; [|exact IH].
  unfold paras_of. simpl. destruct (py.truthy (py.strip l)) eqn:E; constructor.
  - now apply strip_clean.
  - constructor.
Qed.

Lemma paras_of_id ps : Forall clean ps -> paras_of ps = ps.
Proof.
  induction 1 as [|p ps (Hs & Hne & _) _ IH]; [reflexivity|].
  unfold paras_of in *. simpl. rewrite Hs.
  apply py.truthy_true in Hne. rewrite Hne. now f_equal.
Qed.

Lemma clean_no_nl ps :
  Forall clean ps -> Forall (fun p => py.has_char py.nl p = false) ps.
Proof. apply List.Forall_impl. now intros p (_ & _ & H). Qed.

Lemma split_lines_no_nl text :
  Forall (fun l => py.has_char py.nl l = false) (py.split py.nl text).
Proof. apply List.Forall_forall. intros l. apply py.split_no_sep. Qed.

Lemma paragraphs_clean text : Forall clean (paragraphs text).
Proof. apply paras_of_clean, split_lines_no_nl. Qed.

(** What the loop maintains: the closed chunks followed by the open one hold
    exactly the paragraphs met so far, and [current_len] is the length of the
    open chunk without its separators. *)
Record loop_inv (st : loop) (ps : list string) : Prop := LoopInv {
  inv_paras : flat_map (py.split py.nl) (chunks_text st) ++ current_parts st = ps;
  inv_clean : Forall clean ps;
  inv_len : current_len st = Z.of_nat (py.sum_len (current_parts st))
}.

Lemma loop_inv_init : loop_inv loop_init [].
Proof. split; [reflexivity | constructor | reflexivity]. Qed.

Lemma join_parts_lines parts ps0 ps :
  ps0 ++ parts = ps -> Forall clean ps -> parts <> [] ->
  py.split py.nl (py.join py.NL parts) = parts.
Proof.
  intros <- [_ Hc]%Forall_app Hne.
  rewrite py.split_join by exact Hne.
  now apply py.flat_map_split_id, clean_no_nl.
Qed.

Lemma min_len_parts st ps :
  loop_inv st ps -> (current_len st >= MIN_CHUNK_CHARS)%Z -> current_parts st <> [].
Proof.
  intros [_ _ Hlen] Hmin Hnil. rewrite Hnil in Hlen. simpl in Hlen.
  unfold MIN_CHUNK_CHARS in Hmin. lia.
Qed.

Lemma loop_body_inv max_chars st ps l :
  loop_inv st ps -> py.has_char py.nl l = false ->
  loop_inv (loop_body max_chars st l) (ps ++ paras_of [l]).
Proof.
  intros Hinv Hl. unfold loop_body, paras_of. simpl.
  destruct (py.truthy (py.strip l)) eqn:Ht; simpl.
  2:{ now rewrite app_nil_r. }
  pose proof (strip_clean l Hl Ht) as Hp.
  destruct Hinv as [Hps Hc Hlen].
  assert (Hc' : Forall clean (ps ++ [py.strip l])).
  { apply Forall_app. split; [exact Hc | now constructor]. }
  destruct (_ && _) eqn:Hcond; split; simpl; try exact Hc'.
  - apply andb_prop in Hcond as [_ Hmin%Z.geb_le].
    assert (Hne : current_parts st <> []).
    { apply (min_len_parts st ps); [now split | lia]. }
    rewrite flat_map_app. simpl. rewrite app_nil_r.
    rewrite (join_parts_lines _ _ _ Hps Hc Hne).
    now rewrite <- Hps.
  - lia.
  - now rewrite <- Hps, app_assoc.
  - rewrite py.sum_len_app, Hlen. simpl. lia.
Qed.

Lemma loop_fold_inv max_chars lines : forall st ps,
  loop_inv st ps ->
  Forall (fun l => py.has_char py.nl l = false) lines ->
  loop_inv (fold_left (loop_body max_chars) lines st) (ps ++ paras_of lines).
Proof.
  induction lines as [|l lines IH]; intros st ps Hinv Hall; simpl.
  - unfold paras_of. simpl. now rewrite app_nil_r.
  - inversion_clear Hall as [|? ? Hl Hrest].
    change (l :: lines) with ([l] ++ lines).
    rewrite paras_of_app, app_assoc.
    apply IH; [|exact Hrest]. now apply loop_body_inv.
Qed.

Lemma last_split {A} (l : list A) d :
  l <> [] -> l = removelast l ++ [List.last l d].
Proof. intros H. now apply app_removelast_last. Qed.

Lemma loop_finish_paras st ps :
  loop_inv st ps -> flat_map (py.split py.nl) (loop_finish st) = ps.
Proof.
  intros [Hps Hc Hlen]. unfold loop_finish.
  destruct (current_parts st) as [|p parts] eqn:Ep.
  { now rewrite app_nil_r in Hps. }
  assert (Hne : p :: parts <> []) by easy.
  pose proof (join_parts_lines _ _ _ Hps Hc Hne) as Hj.
  destruct (_ && _) eqn:Hcond.
  - apply andb_prop in Hcond as [Hpos%Nat.ltb_lt _].
    assert (Hcs : chunks_text st <> []).
    { intros E. rewrite E in Hpos. simpl in Hpos. lia. }
    rewrite (last_split (chunks_text st) EmptyString Hcs) in Hps.
    rewrite flat_map_app in *. cbn [flat_map] in *. rewrite app_nil_r in *.
    change (py.NL +:+ ?x) with (String py.nl x).
    rewrite py.split_app, Hj. now rewrite <- app_assoc in Hps.
  - rewrite flat_map_app. cbn [flat_map]. now rewrite app_nil_r, Hj.
Qed.

Lemma sub_chunks_paras text max_chars :
  flat_map (py.split py.nl) (sub_chunks text max_chars) = paragraphs text.
Proof.
  unfold sub_chunks. apply loop_finish_paras.
  apply (loop_fold_inv max_chars _ loop_init []);
    [apply loop_inv_init | apply split_lines_no_nl].
Qed.

Lemma paragraphs_join texts :
  Forall clean (flat_map (py.split py.nl) texts) ->
  paragraphs (py.join py.NL texts) = flat_map (py.split py.nl) texts.
Proof.
  intros Hc. unfold paragraphs. destruct texts as [|t texts]; [reflexivity|].
  rewrite py.split_join by easy. now apply paras_of_id.
Qed.

(** ** Shape of the result *)

Lemma imap_text {A} (f : nat -> string -> A) (g : A -> string) texts :
  (forall i t, g (f i t) = t) -> map g (imap f texts) = texts.
Proof.
  revert f. induction texts as [|t texts IH]; intros f Hf; simpl; [reflexivity|].
  rewrite Hf. f_equal. apply IH. intros i x. apply Hf.
Qed.

Lemma imap_index {A} (f : nat -> string -> A) (g : A -> nat) texts :
  (forall i t, g (f i t) = i) -> map g (imap f texts) = seq 0 (length texts).
Proof.
  intros Hf. change (imap f texts) with (imap (f ∘ Nat.add 0) texts).
  generalize 0. induction texts as [|t texts IH]; intros n; simpl; [reflexivity|].
  rewrite Hf. f_equal; [lia|].
  rewrite <- IH. f_equal. apply imap_ext. intros i x _. simpl. f_equal. lia.
Qed.

Lemma blank_iff text :
  negb (py.truthy (py.strip text)) = true <-> py.strip text = EmptyString.
Proof. rewrite negb_true_iff. apply py.truthy_false. Qed.

Lemma nonblank_paragraphs text :
  py.strip text <> EmptyString -> paragraphs text <> [].
Proof.
  intros Hne Hnil. apply Hne, py.strip_empty, py.split_all_space.
  apply List.Forall_forall. intros l Hl.
  apply py.strip_empty, py.truthy_false.
  destruct (py.truthy (py.strip l)) eqn:E; [|reflexivity].
  assert (In (py.strip l) (paragraphs text)) as Hin; [|now rewrite Hnil in Hin].
  unfold paragraphs, paras_of. apply List.filter_In. split; [|exact E].
  now apply in_map.
Qed.

Lemma sub_chunks_not_nil text max_chars :
  py.strip text <> EmptyString -> sub_chunks text max_chars <> [].
Proof.
  intros Hne Hnil. apply (nonblank_paragraphs text Hne).
  now rewrite <- (sub_chunks_paras text max_chars), Hnil.
Qed.

(** When the paragraph lengths add up to at most [max_chars], the split
    condition never fires and the loop closes no chunk. *)
Lemma loop_never_closes max_chars lines : forall st ps,
  loop_inv st ps -> chunks_text st = [] ->
  Forall (fun l => py.has_char py.nl l = false) lines ->
  (Z.of_nat (py.sum_len ps + py.sum_len (paras_of lines)) <= max_chars)%Z ->
  chunks_text (fold_left (loop_body max_chars) lines st) = [].
Proof.
  induction lines as [|l lines IH]; intros st ps Hinv Hcs Hall Hsum; [exact Hcs|].
  inversion_clear Hall as [|? ? Hl Hrest]. simpl.
  change (l :: lines) with ([l] ++ lines) in Hsum. rewrite paras_of_app in Hsum.
  apply (IH _ (ps ++ paras_of [l])); [now apply loop_body_inv | | exact Hrest |].
  - unfold loop_body. destruct (py.truthy (py.strip l)) eqn:Ht; simpl; [|exact Hcs].
    destruct (_ && _) eqn:Hcond; [|exact Hcs].
    apply andb_prop in Hcond as [Hgt%Z.gtb_lt _].
    destruct Hinv as [Hps _ Hlen]. rewrite Hcs in Hps. simpl in Hps.
    rewrite Hlen, Hps in Hgt. rewrite py.sum_len_app in Hsum.
    unfold paras_of at 1 in Hsum. simpl in Hsum. rewrite Ht in Hsum.
    simpl in Hsum. lia.
  - rewrite py.sum_len_app in *. lia.
Qed.

Lemma paras_of_sum_len lines : py.sum_len (paras_of lines) <= py.sum_len lines.
Proof.
  induction lines as [|l lines IH]; [reflexivity|].
  unfold paras_of in *. simpl. pose proof (py.strip_len l).
  destruct (py.truthy (py.strip l)); simpl; lia.
Qed.

Lemma sub_chunks_single text max_chars :
  py.strip text <> EmptyString ->
  (Z.of_nat (py.sum_len (paragraphs text)) <= max_chars)%Z ->
  exists t, sub_chunks text max_chars = [t].
Proof.
  intros Hne Hsum.
  pose proof (sub_chunks_not_nil text max_chars Hne) as Hnil.
  pose proof (loop_never_closes max_chars (py.split py.nl text) loop_init []
                loop_inv_init eq_refl (split_lines_no_nl text) Hsum) as Hcs.
  unfold sub_chunks, loop_finish in *. rewrite Hcs in *.
  destruct (current_parts _); [easy|]. simpl. eauto.
Qed.

Lemma get_has_char c n s : String.get n s = Some c -> py.has_char c s = true.
Proof.
  revert n. induction s as [|d s IH]; intros [|n]; simpl; try easy.
  - intros [= ->]. now rewrite Ascii.eqb_refl.
  - intros H. rewrite (IH _ H). apply orb_true_r.
Qed.

Lemma chunk_article_blank a max_chars :
  py.strip (Article.text a) = EmptyString ->
  chunk_article a max_chars =
  [ArticleChunk.init (Article.celex_id a) (Article.article_number a)
     (Article.title a)
     (if py.truthy (Article.title a) then Article.title a else "(empty article)")
     (Article.chapter a) (Article.section a) 0 1].
Proof. intros H. unfold chunk_article. now rewrite H. Qed.

Lemma chunk_article_long a max_chars :
  py.strip (Article.text a) <> EmptyString ->
  (max_chars < Z.of_nat (py.len (Article.text a)))%Z ->
  map ArticleChunk.text (chunk_article a max_chars)
  = sub_chunks (Article.text a) max_chars
  /\ map ArticleChunk.chunk_index (chunk_article a max_chars)
     = seq 0 (length (sub_chunks (Article.text a) max_chars))
  /\ Forall (fun c => ArticleChunk.total_chunks c
                      = length (sub_chunks (Article.text a) max_chars))
       (chunk_article a max_chars).
Proof.
  intros Hne%py.truthy_true Hlong%Z.leb_gt. unfold chunk_article.
  rewrite Hne, Hlong. simpl. split; [|split].
  - now apply imap_text.
  - now apply imap_index.
  - generalize (length (sub_chunks (Article.text a) max_chars)) as total.
    intros total. apply List.Forall_forall. intros c Hc.
    apply list_elem_of_In, elem_of_lookup_imap in Hc as (i & t & -> & _).
    reflexivity.
Qed.

(** ** The properties of the chunker *)

(** C1 (as amended). For every article whose body is not blank, the chunk
    texts of [chunk_article], joined by newlines in list order, have exactly
    the paragraphs of the body (its stripped non-empty lines), none lost and
    none reordered; list order is [chunk_index] order; and when every line of
    the body is already a stripped non-empty paragraph, as the parsers write
    it, the joined texts are the body itself.  A blank body is excluded: its
    single chunk carries the title or a placeholder. *)
Theorem chunk_article_reconstructs (a : Article.t) (max_chars : Z) :
  py.strip (Article.text a) <> EmptyString ->
  paragraphs (reconstructed (chunk_article a max_chars))
  = paragraphs (Article.text a)
  /\ map ArticleChunk.chunk_index (chunk_article a max_chars)
     = seq 0 (length (chunk_article a max_chars))
  /\ (Forall clean (py.split py.nl (Article.text a)) ->
      reconstructed (chunk_article a max_chars) = Article.text a).
Proof.
  intros Hne.
  destruct (Z.leb_spec (Z.of_nat (py.len (Article.text a))) max_chars) as [Hs|Hl].
  - unfold chunk_article. apply py.truthy_true in Hne. rewrite Hne.
    apply Z.leb_le in Hs. rewrite Hs. simpl. now repeat split.
  - destruct (chunk_article_long a max_chars Hne Hl) as (Ht & Hi & _).
    unfold reconstructed. rewrite Ht.
    assert (Hp : paragraphs (py.join py.NL (sub_chunks (Article.text a) max_chars))
                 = paragraphs (Article.text a)).
    { rewrite paragraphs_join; rewrite sub_chunks_paras;
        [reflexivity | apply paragraphs_clean]. }
    split; [exact Hp | split].
    + rewrite Hi. f_equal. now rewrite <- Ht, length_map.
    + intros Hclean.
      pose proof (sub_chunks_not_nil _ max_chars Hne) as Hnil.
      rewrite <- (py.join_split (py.join py.NL _)).
      rewrite py.split_join by exact Hnil.
      rewrite sub_chunks_paras. unfold paragraphs.
      rewrite (paras_of_id _ Hclean). apply py.join_split.
Qed.

Lemma chunk_article_reconstructs_witness :
  py.strip (Article.text (art "T" (" ab " +:+ py.NL +:+ py.NL +:+ "cde"))) <> EmptyString
  /\ paragraphs (reconstructed
        (chunk_article (art "T" (" ab " +:+ py.NL +:+ py.NL +:+ "cde")) 3))
     = ["ab"; "cde"].
Proof.
  split; [vm_compute; discriminate|].
  exact (proj1 (chunk_article_reconstructs
                  (art "T" (" ab " +:+ py.NL +:+ py.NL +:+ "cde")) 3
                  ltac:(vm_compute; discriminate))).
Defined.

(** C1 as stated fails on a blank body: the body has no paragraph, the
    single chunk holds the title. *)
Lemma chunk_article_blank_body_not_reconstructed :
  paragraphs (Article.text (art "Final provisions" "   ")) = []
  /\ paragraphs (reconstructed
        (chunk_article (art "Final provisions" "   ") MAX_CHUNK_CHARS))
     = ["Final provisions"].
Proof. split; reflexivity. Qed.

(** C7. [chunk_article] is a total function and its result is never empty;
    a blank body gives exactly one chunk whose text is the title or, when the
    title is empty, the placeholder; a body of at most [max_chars] characters
    gives exactly one chunk with [chunk_index] 0 and [total_chunks] 1, which
    holds the whole body when the body is not blank. *)
Theorem chunk_article_at_least_one (a : Article.t) (max_chars : Z) :
  chunk_article a max_chars <> []
  /\ (py.strip (Article.text a) = EmptyString ->
      chunk_article a max_chars =
      [ArticleChunk.init (Article.celex_id a) (Article.article_number a)
         (Article.title a)
         (if py.truthy (Article.title a) then Article.title a
          else "(empty article)")
         (Article.chapter a) (Article.section a) 0 1])
  /\ ((Z.of_nat (py.len (Article.text a)) <= max_chars)%Z ->
      exists c, chunk_article a max_chars = [c]
                /\ ArticleChunk.chunk_index c = 0
                /\ ArticleChunk.total_chunks c = 1
                /\ (py.strip (Article.text a) <> EmptyString ->
                    ArticleChunk.text c = Article.text a)).
Proof.
  split; [|split].
  - destruct (py.truthy (py.strip (Article.text a))) eqn:Hb.
    + destruct (Z.leb_spec (Z.of_nat (py.len (Article.text a))) max_chars) as [Hs|Hl].
      * unfold chunk_article. apply Z.leb_le in Hs. now rewrite Hb, Hs.
      * apply py.truthy_true in Hb.
        destruct (chunk_article_long a max_chars Hb Hl) as (Ht & _).
        intros Hnil. rewrite Hnil in Ht. simpl in Ht.
        now apply (sub_chunks_not_nil (Article.text a) max_chars).
    + apply py.truthy_false in Hb. now rewrite chunk_article_blank.
  - apply chunk_article_blank.
  - intros Hs%Z.leb_le. unfold chunk_article. rewrite Hs.
    destruct (py.truthy (py.strip (Article.text a))) eqn:Hb; simpl.
    + eexists. repeat split.
    + eexists. repeat split. intros Hne%py.truthy_true. congruence.
Qed.

(** C9 (as amended). Whenever some line of the body, measured after the
    strip the loop applies to it, is longer than [max_chars], some chunk of
    the result has a text longer than [max_chars]: paragraphs are never
    cut. *)
Theorem chunk_article_keeps_long_paragraph (a : Article.t) (max_chars : Z) (l : string) :
  In l (py.split py.nl (Article.text a)) ->
  (max_chars < Z.of_nat (py.len (py.strip l)))%Z ->
  exists c, In c (chunk_article a max_chars)
            /\ (max_chars < Z.of_nat (py.len (ArticleChunk.text c)))%Z.
Proof.
  intros Hl Hlong.
  pose proof (py.strip_len l) as Hsl. pose proof (py.split_len _ _ _ Hl) as Hll.
  destruct (py.truthy (py.strip (Article.text a))) eqn:Hb.
  - apply py.truthy_true in Hb.
    assert (Hbig : (max_chars < Z.of_nat (py.len (Article.text a)))%Z) by lia.
    destruct (chunk_article_long a max_chars Hb Hbig) as (Ht & _).
    assert (Hex : exists t, In t (sub_chunks (Article.text a) max_chars)
                            /\ py.len (py.strip l) <= py.len t).
    { destruct (py.truthy (py.strip l)) eqn:Hp.
      - assert (Hin : In (py.strip l) (paragraphs (Article.text a))).
        { apply List.filter_In. split; [now apply in_map | exact Hp]. }
        rewrite <- (sub_chunks_paras _ max_chars) in Hin.
        apply in_flat_map in Hin as (t & Ht1 & Ht2).
        exists t. split; [exact Ht1 | now apply py.split_len in Ht2].
      - apply py.truthy_false in Hp. rewrite Hp.
        pose proof (sub_chunks_not_nil _ max_chars Hb) as Hn.
        destruct (sub_chunks (Article.text a) max_chars) as [|t ts]; [easy|].
        exists t. split; [now left | simpl; lia]. }
    destruct Hex as (t & Hin & Hlen). rewrite <- Ht in Hin.
    apply in_map_iff in Hin as (c & <- & Hc). exists c. split; [exact Hc | lia].
  - apply py.truthy_false in Hb. rewrite (chunk_article_blank a max_chars Hb).
    eexists. split; [now left|].
    assert (py.strip l = EmptyString) as Hl0.
    { apply py.strip_empty, (py.all_space_split py.nl (Article.text a)); [|exact Hl].
      now apply py.strip_empty. }
    rewrite Hl0 in Hlong. simpl in *. lia.
Qed.

Lemma chunk_article_keeps_long_paragraph_witness :
  exists c, In c (chunk_article (art "T" ("abcdef" +:+ py.NL +:+ "g")) 4)
            /\ (4 < Z.of_nat (py.len (ArticleChunk.text c)))%Z.
Proof.
  apply (chunk_article_keeps_long_paragraph
           (art "T" ("abcdef" +:+ py.NL +:+ "g")) 4 "abcdef").
  - vm_compute. now left.
  - vm_compute. reflexivity.
Defined.

(** C9 as stated fails: a line of 102 characters, longer than [max_chars]
    only through the blanks at its end, in a body of 105 characters; the loop
    strips the line and the single chunk returned has 5 characters. *)
Lemma chunk_article_long_line_of_blanks :
  py.split py.nl ("ab" +:+ fill " " 100 +:+ py.NL +:+ "cd")
  = ["ab" +:+ fill " " 100; "cd"]
  /\ py.len ("ab" +:+ fill " " 100) = 102
  /\ py.len ("ab" +:+ fill " " 100 +:+ py.NL +:+ "cd") = 105
  /\ map ArticleChunk.text
       (chunk_article (art "T" ("ab" +:+ fill " " 100 +:+ py.NL +:+ "cd")) 50)
     = ["ab" +:+ py.NL +:+ "cd"].
Proof. vm_compute. repeat split. Qed.

(** Every body of exactly 2001 characters with a newline after its first
    1800 characters comes back unsplit at [max_chars = 2000]: the split test
    adds up the lengths of the paragraphs without their separators, at most
    2000 here, so the result is one chunk, with [chunk_index] 0 and
    [total_chunks] 1. *)
Theorem chunk_article_2001_single (a : Article.t) :
  py.len (Article.text a) = 2001 ->
  String.get 1800 (Article.text a) = Some py.nl ->
  exists c, chunk_article a MAX_CHUNK_CHARS = [c]
            /\ ArticleChunk.chunk_index c = 0
            /\ ArticleChunk.total_chunks c = 1.
Proof.
  intros Hlen Hnl.
  destruct (py.truthy (py.strip (Article.text a))) eqn:Hb.
  - apply py.truthy_true in Hb.
    assert (Hsum : (Z.of_nat (py.sum_len (paragraphs (Article.text a)))
                    <= MAX_CHUNK_CHARS)%Z).
    { pose proof (paras_of_sum_len (py.split py.nl (Article.text a))).
      pose proof (py.split_total_len py.nl (Article.text a)).
      pose proof (py.split_has_sep _ _ (get_has_char _ _ _ Hnl)).
      unfold paragraphs, MAX_CHUNK_CHARS. lia. }
    destruct (sub_chunks_single _ _ Hb Hsum) as (t & Ht).
    unfold chunk_article. apply py.truthy_true in Hb. rewrite Hb, Hlen, Ht.
    simpl. eexists. repeat split.
  - apply py.truthy_false in Hb. rewrite (chunk_article_blank _ _ Hb).
    eexists. repeat split.
Qed.

Definition body_2001 : string :=
  fill "a" 1800 +:+ py.NL +:+ fill "b" 200.

Lemma chunk_article_2001_single_witness :
  exists c, chunk_article (art "T" body_2001) MAX_CHUNK_CHARS = [c]
            /\ ArticleChunk.chunk_index c = 0
            /\ ArticleChunk.total_chunks c = 1.
Proof.
  apply (chunk_article_2001_single (art "T" body_2001)); vm_compute; reflexivity.
Defined.

(** C6 (the code at the claim's input). 1800 characters, a newline and 200
    characters, 2001 in all: the code returns one chunk of 2001 characters,
    longer than [max_chars = 2000], where the claim and the docstring of
    [chunk_article] ask for a split at the paragraph boundary. *)
Lemma chunk_article_2001_not_two :
  py.len body_2001 = 2001
  /\ String.get 1800 body_2001 = Some py.nl
  /\ map ArticleChunk.char_count (chunk_article (art "T" body_2001) MAX_CHUNK_CHARS)
     = [2001].
Proof. vm_compute. repeat split. Qed.

(** One character more in the first paragraph and the same code splits: the
    paragraph lengths then add up to 2001. *)
Lemma chunk_article_1801_200_splits :
  map ArticleChunk.char_count
    (chunk_article (art "T" (fill "a" 1801 +:+ py.NL +:+ fill "b" 200))
       MAX_CHUNK_CHARS)
  = [1801; 200].
Proof. vm_compute. reflexivity. Qed.

(** ** [chunk_regulation] and [chunk_corpus] *)

(** The id of a chunk fresh from [chunk_article], before any occurrence is
    set on it. *)
Definition fresh_id (chunk : ArticleChunk.t) : string :=
  ArticleChunk.chunk_id (ArticleChunk.Obj chunk None).

(** One iteration of the first loop: count the id in [seen]. *)
Definition count_id (seen : gmap string nat) (chunk : ArticleChunk.t)
  : gmap string nat :=
  let cid := fresh_id chunk in
  match seen !! cid with
  | Some n => <[cid := n + 1]> seen
  | None => <[cid := 1]> seen
  end.

(** One iteration of the second loop, on [counters] and the chunks already
    numbered; [seen[cid]] is read as 0 for a missing key, which the first
    loop rules out. *)
Definition number_chunk (seen : gmap string nat)
    (acc : gmap string nat * list ArticleChunk.obj) (chunk : ArticleChunk.t)
  : gmap string nat * list ArticleChunk.obj :=
  let '(counters, numbered) := acc in
  let cid := fresh_id chunk in
  if 1 <? default 0 (seen !! cid) then
    let n := default 0 (counters !! cid) + 1 in
    (<[cid := n]> counters, numbered ++ [ArticleChunk.Obj chunk (Some n)])
  else (counters, numbered ++ [ArticleChunk.Obj chunk (Some 0)]).

(** The chunks of all articles, in article order. *)
Definition article_chunks (regulation : ParsedRegulation.t) (max_chars : Z)
  : list ArticleChunk.t :=
  flat_map (fun article => chunk_article article max_chars)
    (ParsedRegulation.articles regulation).

Definition chunk_regulation (regulation : ParsedRegulation.t) (max_chars : Z)
  : list ArticleChunk.obj :=
  let chunks := article_chunks regulation max_chars in
  let seen := fold_left count_id chunks ∅ in
  let has_dupes := existsb (fun kv => 1 <? snd kv) (map_to_list seen) in
  if has_dupes
  then snd (fold_left (number_chunk seen) chunks (∅, []))
  else map (fun chunk => ArticleChunk.Obj chunk None) chunks.

Definition chunk_corpus (regulations : list ParsedRegulation.t) (max_chars : Z)
  : list ArticleChunk.obj :=
  flat_map (fun regulation => chunk_regulation regulation max_chars) regulations.

(** How often [cid] is the fresh id of a chunk of the list. *)
Definition occurrences (cid : string) (chunks : list ArticleChunk.t) : nat :=
  length (List.filter (fun chunk => String.eqb (fresh_id chunk) cid) chunks).

(** The scenario of [test_chunk_ids_unique_with_duplicate_articles]: an
    amending regulation with two articles numbered 8. *)
Example chunk_regulation_renames :
  map ArticleChunk.chunk_id
    (chunk_regulation
       (ParsedRegulation.mk "32099R0001" "Amending"
          [Article.mk "32099R0001" 1 "Scope" "Text of one." "" "";
           Article.mk "32099R0001" 8 "First" "Text of eight." "" "";
           Article.mk "32099R0001" 8 "Second" "More of eight." "" ""]
          "" "xhtml") 2000)
  = ["32099R0001_art1"; "32099R0001_art8_occ1"; "32099R0001_art8_occ2"].
Proof. vm_compute. reflexivity. Qed.

(** ** A chunk id names its chunk *)

(** The variable [base] of [chunk_id] before and after the occurrence
    suffix. *)
Definition base_of (chunk : ArticleChunk.t) : string :=
  ArticleChunk.celex_id chunk +:+ "_art"
  +:+ py.str_int (ArticleChunk.article_number chunk).

Definition stem_of (chunk : ArticleChunk.t) (occ : nat) : string :=
  if 0 <? occ then base_of chunk +:+ "_occ" +:+ py.str_nat occ else base_of chunk.

Lemma chunk_id_stem chunk o :
  ArticleChunk.chunk_id (ArticleChunk.Obj chunk o)
  = if ArticleChunk.total_chunks chunk =? 1 then stem_of chunk (default 0 o)
    else stem_of chunk (default 0 o) +:+ "_chunk"
         +:+ py.str_nat (ArticleChunk.chunk_index chunk).
Proof. reflexivity. Qed.

Lemma stem_cut chunk occ :
  exists p ch d,
    stem_of chunk occ = p +:+ String ch d
    /\ py.isdecimal ch = false /\ py.all_decimal d = true
    /\ (occ = 0 /\ (ch = "t" \/ ch = "-")%char
        \/ 0 < occ /\ ch = "c"%char /\ d = py.str_nat occ
           /\ p = base_of chunk +:+ "_oc").
Proof.
  unfold stem_of. destruct (0 <? occ) eqn:Hocc.
  - apply Nat.ltb_lt in Hocc.
    exists (base_of chunk +:+ "_oc"), "c"%char, (py.str_nat occ).
    split; [now rewrite py.app_assoc_str|].
    split; [reflexivity|]. split; [apply py.str_nat_decimal|]. right. easy.
  - apply Nat.ltb_ge in Hocc. assert (occ = 0) as -> by lia.
    unfold base_of.
    destruct (py.str_int_shape (ArticleChunk.article_number chunk))
      as [Hd | (d & -> & Hd)].
    + exists (ArticleChunk.celex_id chunk +:+ "_ar"), "t"%char,
        (py.str_int (ArticleChunk.article_number chunk)).
      split; [now rewrite py.app_assoc_str|]. repeat split; auto.
    + exists (ArticleChunk.celex_id chunk +:+ "_art"), "-"%char, d.
      split; [now rewrite py.app_assoc_str|]. repeat split; auto.
Qed.

Lemma stem_inj chunk occ chunk' occ' :
  stem_of chunk occ = stem_of chunk' occ' ->
  occ = occ' /\ base_of chunk = base_of chunk'.
Proof.
  intros H.
  destruct (stem_cut chunk occ) as (p & ch & d & Hs & Hch & Hd & Hcase).
  destruct (stem_cut chunk' occ') as (p' & ch' & d' & Hs' & Hch' & Hd' & Hcase').
  assert (Hcut : p +:+ String ch d = p' +:+ String ch' d') by congruence.
  apply py.decimal_tail_inj in Hcut as (Hp & Hc & Hdd); try assumption.
  destruct Hcase as [[-> Ht] | (Hpos & -> & -> & ->)];
    destruct Hcase' as [[-> Ht'] | (Hpos' & -> & -> & ->)].
  - split; [reflexivity|]. unfold stem_of in H. exact H.
  - destruct Ht as [Ht|Ht]; congruence.
  - destruct Ht' as [Ht'|Ht']; congruence.
  - apply py.str_nat_inj in Hdd. apply py.app_inv_tail_str in Hp. easy.
Qed.

Lemma base_inj chunk chunk' :
  base_of chunk = base_of chunk' ->
  ArticleChunk.celex_id chunk = ArticleChunk.celex_id chunk'
  /\ ArticleChunk.article_number chunk = ArticleChunk.article_number chunk'.
Proof.
  intros H.
  destruct (stem_cut chunk 0) as (p & ch & d & Hs & Hch & Hd & _).
  assert (Hnum : forall c : ArticleChunk.t,
             exists p ch d,
               base_of c = p +:+ String ch d
               /\ py.isdecimal ch = false /\ py.all_decimal d = true
               /\ p +:+ String ch EmptyString = ArticleChunk.celex_id c +:+ "_art"
                  +:+ (if Ascii.eqb ch "-" then "-" else EmptyString)
               /\ py.str_int (ArticleChunk.article_number c)
                  = (if Ascii.eqb ch "-" then "-" else EmptyString) +:+ d).
  { intros c. unfold base_of.
    destruct (py.str_int_shape (ArticleChunk.article_number c))
      as [Hdec | (d0 & Heq & Hdec)].
    - exists (ArticleChunk.celex_id c +:+ "_ar"), "t"%char,
        (py.str_int (ArticleChunk.article_number c)).
      rewrite !py.app_assoc_str. repeat split; auto.
    - exists (ArticleChunk.celex_id c +:+ "_art"), "-"%char, d0.
      rewrite Heq, !py.app_assoc_str. repeat split; auto. }
  clear p ch d Hs Hch Hd.
  destruct (Hnum chunk) as (p & ch & d & Hb & Hch & Hd & Hp & Hn).
  destruct (Hnum chunk') as (p' & ch' & d' & Hb' & Hch' & Hd' & Hp' & Hn').
  rewrite Hb, Hb' in H.
  apply py.decimal_tail_inj in H as (-> & -> & ->); try assumption.
  split.
  - rewrite Hp' in Hp. rewrite <- !py.app_assoc_str in Hp.
    apply py.app_inv_tail_str in Hp. now apply py.app_inv_tail_str in Hp.
  - apply py.str_int_inj. congruence.
Qed.

(** Equal chunk ids come from equal fresh ids and equal occurrences, in the
    same article of the same document. *)
Lemma chunk_id_inj chunk o chunk' o' :
  ArticleChunk.chunk_id (ArticleChunk.Obj chunk o)
  = ArticleChunk.chunk_id (ArticleChunk.Obj chunk' o') ->
  fresh_id chunk = fresh_id chunk' /\ default 0 o = default 0 o'
  /\ base_of chunk = base_of chunk'.
Proof.
  unfold fresh_id. rewrite !chunk_id_stem.
  change (default 0 None) with 0.
  assert (Hfresh : forall c, stem_of c 0 = base_of c) by reflexivity.
  rewrite !Hfresh.
  assert (Hmixed : forall c k c' k',
             stem_of c k
             <> stem_of c' k' +:+ "_chunk"
                +:+ py.str_nat (ArticleChunk.chunk_index c')).
  { intros c k c' k' H.
    destruct (stem_cut c k) as (p & ch & d & Hs & Hch & Hd & Hcase).
    rewrite Hs in H.
    change (stem_of c' k' +:+ "_chunk" +:+ py.str_nat (ArticleChunk.chunk_index c'))
      with (stem_of c' k' +:+ "_chun" +:+ String "k" (py.str_nat (ArticleChunk.chunk_index c')))
      in H.
    rewrite <- py.app_assoc_str in H.
    apply py.decimal_tail_inj in H as (_ & Hc & _);
      [|assumption | reflexivity | assumption | apply py.str_nat_decimal].
    destruct Hcase as [[_ [->| ->]] | (_ & -> & _)]; discriminate. }
  destruct (ArticleChunk.total_chunks chunk =? 1),
    (ArticleChunk.total_chunks chunk' =? 1); intros H.
  - apply stem_inj in H as [-> ->]. easy.
  - now apply Hmixed in H.
  - symmetry in H. now apply Hmixed in H.
  - change (?s +:+ "_chunk" +:+ ?i) with (s +:+ "_chun" +:+ String "k" i) in H.
    rewrite <- !py.app_assoc_str in H.
    apply py.decimal_tail_inj in H as (Hp & _ & Hi);
      try reflexivity; try apply py.str_nat_decimal.
    apply py.app_inv_tail_str, stem_inj in Hp as [-> ->].
    rewrite Hi. easy.
Qed.

(** ** The two loops of [chunk_regulation] *)

Lemma occurrences_app cid l1 l2 :
  occurrences cid (l1 ++ l2) = occurrences cid l1 + occurrences cid l2.
Proof. unfold occurrences. now rewrite List.filter_app, length_app. Qed.

Lemma occurrences_cons cid chunk l :
  occurrences cid (chunk :: l)
  = (if String.eqb (fresh_id chunk) cid then 1 else 0) + occurrences cid l.
Proof. unfold occurrences. simpl. now destruct (String.eqb _ _). Qed.

Lemma occurrences_nil cid : occurrences cid [] = 0.
Proof. reflexivity. Qed.

Lemma occurrences_self chunk l : 1 <= occurrences (fresh_id chunk) (chunk :: l).
Proof. rewrite occurrences_cons, String.eqb_refl. lia. Qed.

(** After the first loop [seen] holds the number of occurrences of every id
    met, and nothing else. *)
Lemma seen_counts chunks : forall seen cid,
  fold_left count_id chunks seen !! cid
  = match seen !! cid, occurrences cid chunks with
    | None, 0 => None
    | n, k => Some (default 0 n + k)
    end.
Proof.
  induction chunks as [|chunk chunks IH]; intros seen cid.
  - cbn [fold_left]. unfold occurrences. simpl.
    destruct (seen !! cid); simpl; [f_equal; lia | reflexivity].
  - cbn [fold_left]. rewrite IH, occurrences_cons. unfold count_id.
    destruct (String.eqb_spec (fresh_id chunk) cid) as [->|Hne].
    + destruct (seen !! cid) as [n|] eqn:Hn; rewrite lookup_insert_eq; simpl;
        f_equal; lia.
    + destruct (seen !! fresh_id chunk);
        rewrite lookup_insert_ne by exact Hne; reflexivity.
Qed.

Lemma seen_total chunks cid :
  default 0 (fold_left count_id chunks ∅ !! cid) = occurrences cid chunks.
Proof.
  rewrite seen_counts, lookup_empty.
  destruct (occurrences cid chunks); reflexivity.
Qed.

(** [any(v > 1 for v in seen.values())] *)
Lemma has_dupes_iff chunks :
  existsb (fun kv => 1 <? snd kv) (map_to_list (fold_left count_id chunks ∅)) = true
  <-> exists cid, 1 < occurrences cid chunks.
Proof.
  rewrite existsb_exists. split.
  - intros ([cid v] & Hin & Hv). exists cid.
    apply list_elem_of_In, elem_of_map_to_list in Hin.
    rewrite <- seen_total, Hin. simpl in *. now apply Nat.ltb_lt.
  - intros (cid & Hcid). exists (cid, occurrences cid chunks). split.
    + apply list_elem_of_In, elem_of_map_to_list.
      rewrite seen_counts, lookup_empty.
      destruct (occurrences cid chunks); [lia | reflexivity].
    + now apply Nat.ltb_lt.
Qed.

Lemma occurrences_NoDup chunks :
  (forall cid, occurrences cid chunks <= 1) -> NoDup (map fresh_id chunks).
Proof.
  induction chunks as [|chunk chunks IH]; intros H; [constructor|].
  cbn [map]. apply NoDup_cons. split.
  - intros (chunk' & Heq & Hin)%list_elem_of_fmap.
    apply list_elem_of_split in Hin as (l1 & l2 & ->).
    specialize (H (fresh_id chunk)).
    rewrite occurrences_cons, String.eqb_refl, occurrences_app, occurrences_cons,
      <- Heq, String.eqb_refl in H.
    lia.
  - apply IH. intros cid. specialize (H cid). rewrite occurrences_cons in H. lia.
Qed.

Lemma NoDup_occurrences chunks cid :
  NoDup (map fresh_id chunks) -> occurrences cid chunks <= 1.
Proof.
  induction chunks as [|chunk chunks IH]; intros H; [unfold occurrences; simpl; lia|].
  cbn [map] in H. apply NoDup_cons in H as [Hout Hnd].
  rewrite occurrences_cons.
  destruct (String.eqb_spec (fresh_id chunk) cid) as [<-|Hne]; [|now apply IH].
  enough (occurrences (fresh_id chunk) chunks = 0) by lia.
  unfold occurrences. apply length_zero_iff_nil.
  destruct (List.filter _ chunks) as [|chunk' l] eqn:Hf; [reflexivity|].
  exfalso. apply Hout.
  assert (In chunk' (List.filter (fun c => String.eqb (fresh_id c) (fresh_id chunk)) chunks))
    as [Hin Heq%String.eqb_eq]%filter_In by (rewrite Hf; now left).
  rewrite <- Heq. apply list_elem_of_fmap. exists chunk'.
  split; [reflexivity | now apply list_elem_of_In].
Qed.

(** The occurrence the second loop sets on a chunk that follows the chunks
    [before] in a regulation with the chunks [all]: its rank among the chunks
    with its id when the id recurs, and 0 when it does not. *)
Definition occurrence_of (all before : list ArticleChunk.t) (chunk : ArticleChunk.t)
  : nat :=
  if 1 <? occurrences (fresh_id chunk) all
  then occurrences (fresh_id chunk) before + 1 else 0.

Fixpoint numbered (all before chunks : list ArticleChunk.t) : list ArticleChunk.obj :=
  match chunks with
  | [] => []
  | chunk :: rest =>
      ArticleChunk.Obj chunk (Some (occurrence_of all before chunk))
      :: numbered all (before ++ [chunk]) rest
  end.

Lemma number_chunks all chunks : forall before counters done,
  (forall cid, 1 < occurrences cid all ->
               default 0 (counters !! cid) = occurrences cid before) ->
  snd (fold_left (number_chunk (fold_left count_id all ∅)) chunks (counters, done))
  = done ++ numbered all before chunks.
Proof.
  induction chunks as [|chunk chunks IH]; intros before counters done Hc.
  - simpl. now rewrite app_nil_r.
  - cbn [fold_left numbered]. unfold number_chunk at 2. rewrite seen_total.
    unfold occurrence_of.
    destruct (1 <? occurrences (fresh_id chunk) all) eqn:Hdup.
    + apply Nat.ltb_lt in Hdup.
      rewrite (IH (before ++ [chunk])), <- app_assoc, (Hc _ Hdup); [reflexivity|].
      intros cid Hcid. rewrite occurrences_app, occurrences_cons.
      destruct (String.eqb_spec (fresh_id chunk) cid) as [<-|Hne].
      * rewrite lookup_insert_eq, occurrences_nil. simpl.
        rewrite (Hc _ Hdup). lia.
      * rewrite lookup_insert_ne by exact Hne. rewrite (Hc _ Hcid), occurrences_nil.
        lia.
    + rewrite (IH (before ++ [chunk])), <- app_assoc; [reflexivity|].
      intros cid Hcid. rewrite occurrences_app, occurrences_cons.
      destruct (String.eqb_spec (fresh_id chunk) cid) as [<-|Hne].
      * apply Nat.ltb_ge in Hdup. lia.
      * rewrite (Hc _ Hcid), occurrences_nil. lia.
Qed.

(** What [chunk_regulation] returns, by the two cases of [has_dupes]. *)
Lemma chunk_regulation_cases regulation max_chars :
  (NoDup (map fresh_id (article_chunks regulation max_chars))
   /\ chunk_regulation regulation max_chars
      = map (fun chunk => ArticleChunk.Obj chunk None)
          (article_chunks regulation max_chars))
  \/ ((exists cid, 1 < occurrences cid (article_chunks regulation max_chars))
      /\ chunk_regulation regulation max_chars
         = numbered (article_chunks regulation max_chars) []
             (article_chunks regulation max_chars)).
Proof.
  unfold chunk_regulation.
  set (chunks := article_chunks regulation max_chars).
  destruct (existsb _ _) eqn:Hd.
  - right. split; [now apply has_dupes_iff|].
    rewrite (number_chunks chunks chunks []); [reflexivity|].
    intros cid _. now rewrite lookup_empty.
  - left. split; [|reflexivity].
    apply occurrences_NoDup. intros cid.
    destruct (le_lt_dec (occurrences cid chunks) 1) as [Hle|Hlt]; [exact Hle|].
    assert (existsb (fun kv => 1 <? snd kv)
              (map_to_list (fold_left count_id chunks ∅)) = true) as Ht
      by (apply has_dupes_iff; eauto).
    congruence.
Qed.

Lemma numbered_fields all chunks : forall before,
  map ArticleChunk.fields (numbered all before chunks) = chunks.
Proof.
  induction chunks as [|chunk chunks IH]; intros before; simpl; [reflexivity|].
  now rewrite IH.
Qed.

Lemma numbered_elem all chunks : forall before x,
  x ∈ numbered all before chunks ->
  exists pre chunk post,
    chunks = pre ++ chunk :: post
    /\ x = ArticleChunk.Obj chunk (Some (occurrence_of all (before ++ pre) chunk)).
Proof.
  induction chunks as [|chunk chunks IH]; intros before x Hx; simpl in Hx.
  - now apply elem_of_nil in Hx.
  - apply elem_of_cons in Hx as [-> | Hx].
    + exists [], chunk, chunks. now rewrite app_nil_r.
    + apply IH in Hx as (pre & chunk' & post & -> & ->).
      exists (chunk :: pre), chunk', post. now rewrite <- app_assoc.
Qed.

Lemma numbered_NoDup all chunks : forall before,
  all = before ++ chunks ->
  NoDup (map ArticleChunk.chunk_id (numbered all before chunks)).
Proof.
  induction chunks as [|chunk chunks IH]; intros before Hall; [constructor|].
  cbn [numbered map]. apply NoDup_cons. split.
  - intros (x & Hid & Hx)%list_elem_of_fmap.
    apply numbered_elem in Hx as (pre & chunk' & post & -> & ->).
    apply chunk_id_inj in Hid as (Hfresh & Hocc & _). cbn [default] in Hocc.
    unfold occurrence_of in Hocc. rewrite <- Hfresh in Hocc.
    assert (Hdup : 1 < occurrences (fresh_id chunk) all).
    { rewrite Hall, occurrences_app, occurrences_cons, String.eqb_refl,
        occurrences_app, occurrences_cons, <- Hfresh, String.eqb_refl. lia. }
    apply Nat.ltb_lt in Hdup. rewrite Hdup in Hocc.
    rewrite !occurrences_app, occurrences_cons, String.eqb_refl, occurrences_nil
      in Hocc.
    unfold id in Hocc. lia.
  - apply IH. now rewrite <- app_assoc.
Qed.

(** ** Every chunk of an article *)

Lemma chunk_article_elem a max_chars c :
  c ∈ chunk_article a max_chars ->
  exists text i total,
    c = ArticleChunk.init (Article.celex_id a) (Article.article_number a)
          (Article.title a) text (Article.chapter a) (Article.section a) i total.
Proof.
  unfold chunk_article.
  destruct (negb _); [|destruct (_ <=? _)%Z].
  - intros ->%list_elem_of_singleton. eauto.
  - intros ->%list_elem_of_singleton. eauto.
  - intros (i & t & -> & _)%elem_of_lookup_imap. eauto.
Qed.

Lemma sub_chunks_nonempty text max_chars :
  Forall (fun t => t <> EmptyString) (sub_chunks text max_chars).
Proof.
  apply List.Forall_forall. intros t Ht ->.
  pose proof (paragraphs_clean text) as Hc.
  rewrite <- (sub_chunks_paras text max_chars) in Hc.
  rewrite List.Forall_forall in Hc.
  destruct (Hc EmptyString) as (_ & Hne & _); [|easy].
  apply in_flat_map. exists EmptyString. split; [exact Ht | now left].
Qed.

Lemma chunk_article_length a max_chars :
  length (chunk_article a max_chars)
  = if negb (py.truthy (py.strip (Article.text a))) then 1
    else if (Z.of_nat (py.len (Article.text a)) <=? max_chars)%Z then 1
    else length (sub_chunks (Article.text a) max_chars).
Proof.
  unfold chunk_article.
  destruct (negb _); [reflexivity|]. destruct (_ <=? _)%Z; [reflexivity|].
  apply length_imap.
Qed.

(** ** Chunks closed by the loop are never short *)

Definition full (t : string) : Prop :=
  (MIN_CHUNK_CHARS <= Z.of_nat (py.len t))%Z.

Lemma sum_len_join parts : py.sum_len parts <= py.len (py.join py.NL parts).
Proof.
  induction parts as [|p [|q parts] IH]; simpl in *; [lia | lia |].
  rewrite !py.len_app. simpl in *. lia.
Qed.

Lemma loop_body_full max_chars st ps l :
  loop_inv st ps -> Forall full (chunks_text st) ->
  Forall full (chunks_text (loop_body max_chars st l)).
Proof.
  intros [_ _ Hlen] Hfull. unfold loop_body.
  destruct (negb _); [exact Hfull|].
  destruct (_ && _) eqn:Hcond; [|exact Hfull].
  apply andb_prop in Hcond as [_ Hmin%Z.geb_le]. simpl.
  apply Forall_app. split; [exact Hfull|]. constructor; [|constructor].
  unfold full. pose proof (sum_len_join (current_parts st)). lia.
Qed.

Lemma loop_fold_full max_chars lines : forall st ps,
  loop_inv st ps -> Forall full (chunks_text st) ->
  Forall (fun l => py.has_char py.nl l = false) lines ->
  Forall full (chunks_text (fold_left (loop_body max_chars) lines st))
  /\ loop_inv (fold_left (loop_body max_chars) lines st) (ps ++ paras_of lines).
Proof.
  induction lines as [|l lines IH]; intros st ps Hinv Hfull Hall.
  - simpl. unfold paras_of. simpl. now rewrite app_nil_r.
  - inversion_clear Hall as [|? ? Hl Hrest]. cbn [fold_left].
    change (l :: lines) with ([l] ++ lines). rewrite paras_of_app, app_assoc.
    apply IH; [now apply loop_body_inv | now apply (loop_body_full _ _ ps) | exact Hrest].
Qed.

Lemma loop_finish_full st ps :
  loop_inv st ps -> Forall full (chunks_text st) ->
  2 <= length (loop_finish st) -> Forall full (loop_finish st).
Proof.
  intros [_ _ Hlen] Hfull. unfold loop_finish.
  destruct (current_parts st) as [|p parts] eqn:Ep; [easy|].
  assert (Hj : (current_len st <= Z.of_nat (py.len (py.join py.NL (p :: parts))))%Z).
  { rewrite Hlen. pose proof (sum_len_join (p :: parts)). lia. }
  revert Hj. generalize (py.join py.NL (p :: parts)) as tail. intros tail Hj.
  destruct (_ && _) eqn:Hcond.
  - apply andb_prop in Hcond as [Hpos%Nat.ltb_lt _]. intros _.
    assert (Hcs : chunks_text st <> []).
    { intros E. rewrite E in Hpos. simpl in Hpos. lia. }
    rewrite (last_split (chunks_text st) EmptyString Hcs) in Hfull.
    apply Forall_app in Hfull as [Hinit Hlast].
    apply Forall_app. split; [exact Hinit|].
    inversion_clear Hlast as [|? ? Hl _]. constructor; [|constructor].
    unfold full in *. rewrite py.len_app. lia.
  - rewrite length_app. cbn [length]. intros Hlen2.
    apply Forall_app. split; [exact Hfull|]. constructor; [|constructor].
    apply andb_false_iff in Hcond as [Hcs%Nat.ltb_ge | Hmin%Z.ltb_ge]; [lia|].
    unfold full. lia.
Qed.

Lemma sub_chunks_full text max_chars :
  2 <= length (sub_chunks text max_chars) ->
  Forall full (sub_chunks text max_chars).
Proof.
  unfold sub_chunks.
  destruct (loop_fold_full max_chars (py.split py.nl text) loop_init []
              loop_inv_init (List.Forall_nil _) (split_lines_no_nl text)) as [Hfull Hinv].
  now apply (loop_finish_full _ _ Hinv).
Qed.

(** ** Properties of [chunk_article] beyond the specification *)

(** X1. Every chunk of an article carries the article's document id, number,
    title, chapter and section; its [total_chunks] is the number of chunks
    returned, its [chunk_index] its position, and its [char_count] the
    length of its text, which is never empty. *)
Theorem chunk_article_chunks_consistent (a : Article.t) (max_chars : Z) :
  Forall (fun c =>
            ArticleChunk.celex_id c = Article.celex_id a
            /\ ArticleChunk.article_number c = Article.article_number a
            /\ ArticleChunk.article_title c = Article.title a
            /\ ArticleChunk.chapter c = Article.chapter a
            /\ ArticleChunk.section c = Article.section a
            /\ ArticleChunk.total_chunks c = length (chunk_article a max_chars)
            /\ ArticleChunk.char_count c = py.len (ArticleChunk.text c)
            /\ 1 <= ArticleChunk.char_count c)
    (chunk_article a max_chars)
  /\ map ArticleChunk.chunk_index (chunk_article a max_chars)
     = seq 0 (length (chunk_article a max_chars)).
Proof.
  assert (Hpos : forall t, t <> EmptyString -> 1 <= py.len t).
  { intros [|x t] Ht; [easy | simpl; lia]. }
  rewrite chunk_article_length. unfold chunk_article.
  destruct (negb _) eqn:Hblank; [|destruct (_ <=? _)%Z eqn:Hshort].
  - split; [|reflexivity]. constructor; [|constructor]. simpl.
    repeat split; try reflexivity. apply Hpos.
    destruct (py.truthy (Article.title a)) eqn:Ht; [|easy].
    now apply py.truthy_true.
  - split; [|reflexivity]. constructor; [|constructor]. simpl.
    repeat split; try reflexivity. apply Hpos. intros E.
    rewrite E in Hblank. discriminate Hblank.
  - split; [|now apply imap_index].
    pose proof (sub_chunks_nonempty (Article.text a) max_chars) as Hne.
    rewrite List.Forall_forall in Hne.
    apply List.Forall_forall. intros c Hc.
    apply list_elem_of_In, elem_of_lookup_imap in Hc as (i & t & -> & Hi).
    simpl. repeat split; try reflexivity. apply Hpos, Hne.
    apply list_elem_of_In. eapply list_elem_of_lookup_2, Hi.
Qed.

(** X2. When an article is split into two or more chunks, no chunk is
    shorter than [MIN_CHUNK_CHARS]: the loop closes a chunk only once it
    holds that many characters, and a shorter tail is merged into the chunk
    before it. *)
Theorem chunk_article_no_short_chunk (a : Article.t) (max_chars : Z) :
  2 <= length (chunk_article a max_chars) ->
  Forall (fun c => (MIN_CHUNK_CHARS <= Z.of_nat (ArticleChunk.char_count c))%Z)
    (chunk_article a max_chars).
Proof.
  rewrite chunk_article_length. unfold chunk_article.
  destruct (negb _); [simpl; lia|]. destruct (_ <=? _)%Z; [simpl; lia|].
  intros Hlen. pose proof (sub_chunks_full _ _ Hlen) as Hfull.
  rewrite List.Forall_forall in Hfull.
  apply List.Forall_forall. intros c Hc.
  apply list_elem_of_In, elem_of_lookup_imap in Hc as (i & t & -> & Hi).
  simpl. apply Hfull, list_elem_of_In. eapply list_elem_of_lookup_2, Hi.
Qed.

Lemma chunk_article_no_short_chunk_witness :
  Forall (fun c => (MIN_CHUNK_CHARS <= Z.of_nat (ArticleChunk.char_count c))%Z)
    (chunk_article
       (art "Test merge"
          (fill "A" 1500 +:+ py.NL +:+ fill "B" 800 +:+ py.NL +:+ fill "C" 50))
       2000).
Proof.
  apply chunk_article_no_short_chunk. vm_compute. lia.
Defined.

(** ** Properties of [chunk_regulation] and [chunk_corpus] *)

Lemma chunk_regulation_fields regulation max_chars :
  map ArticleChunk.fields (chunk_regulation regulation max_chars)
  = article_chunks regulation max_chars.
Proof.
  destruct (chunk_regulation_cases regulation max_chars) as [[_ ->] | [_ ->]].
  - rewrite map_map. apply map_id.
  - apply numbered_fields.
Qed.

Lemma chunk_regulation_NoDup regulation max_chars :
  NoDup (map ArticleChunk.chunk_id (chunk_regulation regulation max_chars)).
Proof.
  destruct (chunk_regulation_cases regulation max_chars) as [[Hnd ->] | [_ ->]].
  - now rewrite map_map.
  - now apply numbered_NoDup.
Qed.

Lemma numbered_lookup all pre chunk post : forall before,
  numbered all before (pre ++ chunk :: post) !! length pre
  = Some (ArticleChunk.Obj chunk (Some (occurrence_of all (before ++ pre) chunk))).
Proof.
  induction pre as [|c pre IH]; intros before; simpl.
  - now rewrite app_nil_r.
  - rewrite IH. now rewrite <- app_assoc.
Qed.

(** X3. The chunk ids of one regulation are pairwise distinct, whatever the
    article numbers, document ids and chunk counts are. *)
Theorem chunk_regulation_ids_unique
    (regulation : ParsedRegulation.t) (max_chars : Z) :
  NoDup (map ArticleChunk.chunk_id (chunk_regulation regulation max_chars)).
Proof. apply chunk_regulation_NoDup. Qed.

(** X4. [chunk_regulation] returns the chunks of [chunk_article], article by
    article; a chunk whose id recurs in the regulation gets as occurrence its
    rank among the chunks with that id (1, 2, ...), any other chunk reads
    occurrence 0; and when no id recurs, every chunk id is the id the chunk
    had before. *)
Theorem chunk_regulation_numbers_recurring_ids
    (regulation : ParsedRegulation.t) (max_chars : Z) :
  map ArticleChunk.fields (chunk_regulation regulation max_chars)
  = article_chunks regulation max_chars
  /\ (forall pre chunk post,
        article_chunks regulation max_chars = pre ++ chunk :: post ->
        exists o,
          chunk_regulation regulation max_chars !! length pre
          = Some (ArticleChunk.Obj chunk o)
          /\ default 0 o
             = if 1 <? occurrences (fresh_id chunk)
                         (article_chunks regulation max_chars)
               then occurrences (fresh_id chunk) pre + 1 else 0)
  /\ (NoDup (map fresh_id (article_chunks regulation max_chars)) ->
      map ArticleChunk.chunk_id (chunk_regulation regulation max_chars)
      = map fresh_id (article_chunks regulation max_chars)).
Proof.
  split; [apply chunk_regulation_fields|].
  destruct (chunk_regulation_cases regulation max_chars)
    as [[Hnd ->] | [[cid Hcid] ->]]; split.
  - intros pre chunk post Hsplit. exists None. split.
    + rewrite Hsplit, list_lookup_fmap, list_lookup_middle; reflexivity.
    + pose proof (NoDup_occurrences _ (fresh_id chunk) Hnd) as Hle.
      apply Nat.ltb_ge in Hle. now rewrite Hle.
  - intros _. now rewrite map_map.
  - intros pre chunk post Hsplit. eexists. split.
    + rewrite Hsplit at 2. apply (numbered_lookup _ pre chunk post []).
    + reflexivity.
  - intros Hnd. pose proof (NoDup_occurrences _ cid Hnd). lia.
Qed.

(** The chunks of a regulation whose articles carry its document id carry
    that id too. *)
Lemma chunk_regulation_celex regulation max_chars x :
  Forall (fun a => Article.celex_id a = ParsedRegulation.celex_id regulation)
    (ParsedRegulation.articles regulation) ->
  x ∈ chunk_regulation regulation max_chars ->
  ArticleChunk.celex_id (ArticleChunk.fields x) = ParsedRegulation.celex_id regulation.
Proof.
  intros Hall Hx.
  assert (ArticleChunk.fields x ∈ article_chunks regulation max_chars) as Hf.
  { rewrite <- chunk_regulation_fields. apply list_elem_of_fmap. eauto. }
  apply list_elem_of_In, in_flat_map in Hf as (a & Ha & Hc).
  rewrite List.Forall_forall in Hall. rewrite <- (Hall a Ha).
  apply list_elem_of_In, chunk_article_elem in Hc as (t & i & total & ->).
  reflexivity.
Qed.

Lemma chunk_corpus_NoDup (regulations : list ParsedRegulation.t) (max_chars : Z) :
  NoDup (map ParsedRegulation.celex_id regulations) ->
  Forall (fun regulation =>
            Forall (fun a => Article.celex_id a
                             = ParsedRegulation.celex_id regulation)
              (ParsedRegulation.articles regulation)) regulations ->
  NoDup (map ArticleChunk.chunk_id (chunk_corpus regulations max_chars)).
Proof.
  unfold chunk_corpus.
  induction regulations as [|r regulations IH]; intros Hnd Hall; [constructor|].
  cbn [flat_map map] in *. rewrite map_app.
  apply NoDup_cons in Hnd as [Hr Hnd].
  inversion_clear Hall as [|? ? Hra Hrest].
  apply NoDup_app. split; [apply chunk_regulation_NoDup|].
  split; [|now apply IH].
  intros cid (x & -> & Hx)%list_elem_of_fmap (y & Hid & Hy)%list_elem_of_fmap.
  apply Hr.
  apply list_elem_of_In, in_flat_map in Hy as (r' & Hr' & Hy).
  apply list_elem_of_fmap. exists r'. split; [|now apply list_elem_of_In].
  rewrite <- (chunk_regulation_celex r max_chars x Hra Hx).
  rewrite List.Forall_forall in Hrest.
  rewrite <- (chunk_regulation_celex r' max_chars y (Hrest r' Hr')
                ltac:(now apply list_elem_of_In)).
  destruct x as [c o], y as [c' o'].
  apply chunk_id_inj in Hid as (_ & _ & Hbase). now apply base_inj in Hbase.
Qed.

(** X5. Over a corpus whose regulations have distinct document ids, each
    carried by its own articles (as the parser builds them), the chunk ids of
    [chunk_corpus] are pairwise distinct. *)
Theorem chunk_corpus_ids_unique
    (regulations : list ParsedRegulation.t) (max_chars : Z) :
  NoDup (map ParsedRegulation.celex_id regulations) ->
  Forall (fun regulation =>
            Forall (fun a => Article.celex_id a
                             = ParsedRegulation.celex_id regulation)
              (ParsedRegulation.articles regulation)) regulations ->
  NoDup (map ArticleChunk.chunk_id (chunk_corpus regulations max_chars)).
Proof. apply chunk_corpus_NoDup. Qed.

(** Two regulations that both have an article 1 and, the second, two
    articles 3. *)
Definition two_regulations : list ParsedRegulation.t :=
  [ParsedRegulation.mk "32002R0178" "General Food Law"
     [Article.mk "32002R0178" 1 "Scope" "Aim and scope." "" "";
      Article.mk "32002R0178" 2 "Definitions" "Food means food." "" ""]
     "" "xhtml";
   ParsedRegulation.mk "32015R2283" "Novel Foods"
     [Article.mk "32015R2283" 1 "Scope" "Novel foods." "" "";
      Article.mk "32015R2283" 3 "First" "Inserted." "" "";
      Article.mk "32015R2283" 3 "Second" "Inserted too." "" ""]
     "" "xhtml"].

Lemma chunk_corpus_ids_unique_witness :
  NoDup (map ArticleChunk.chunk_id (chunk_corpus two_regulations 2000)).
Proof.
  apply chunk_corpus_ids_unique.
  - apply (bool_decide_unpack _). vm_compute. exact I.
  - repeat constructor.
Defined.

End chunking.

(* ===================================================================== *)
(** * Exceptions                                                          *)
(* ===================================================================== *)

Inductive exn :=
| ValueError (msg : string)
| IndexError (msg : string).

Inductive result (A : Type) :=
| Ok (a : A)
| Raise (e : exn).
Arguments Ok {A} a.
Arguments Raise {A} e.

Definition bind {A B} (m : result A) (f : A -> result B) : result B :=
  match m with
  | Ok a => f a
  | Raise e => Raise e
  end.

Notation "x <- m ;; k" := (bind m (fun x => k))
  (at level 100, m at next level, right associativity).

(** [for x in xs: ys.append(f(x))] where [f] may raise. *)
Fixpoint mapM {A B} (f : A -> result B) (xs : list A) : result (list B) :=
  match xs with
  | [] => Ok []
  | x :: rest => y <- f x ;; ys <- mapM f rest ;; Ok (y :: ys)
  end.

(* ===================================================================== *)
(** * Python's [re]: the backtracking matcher, for the operators the
      repository's patterns use                                           *)
(* ===================================================================== *)

Module re.

Inductive regex :=
| Eps
| Chr (p : ascii -> bool)                      (* one character of a class *)
| Seq (r1 r2 : regex)
| Alt (r1 r2 : regex)                          (* r1|r2, r1 tried first *)
| Rep (lo : nat) (hi : option nat) (r : regex) (* greedy r{lo,hi} *)
| Grp (n : nat) (r : regex)                    (* capturing group n *)
| Bol                                          (* ^ *)
| Eol                                          (* $ *)
| Wordb.                                       (* \b *)

Definition star := Rep 0 None.
Definition plus := Rep 1 None.
Definition opt := Rep 0 (Some 1).

Fixpoint seq (rs : list regex) : regex :=
  match rs with
  | [] => Eps
  | [r] => r
  | r :: rest => Seq r (seq rest)
  end.

Fixpoint alt (rs : list regex) : regex :=
  match rs with
  | [] => Chr (fun _ => false)
  | [r] => r
  | r :: rest => Alt r (alt rest)
  end.

(** A literal, compared exactly. *)
Fixpoint lit (s : string) : regex :=
  match s with
  | EmptyString => Eps
  | String c EmptyString => Chr (Ascii.eqb c)
  | String c s' => Seq (Chr (Ascii.eqb c)) (lit s')
  end.

(** A literal under [re.IGNORECASE]. *)
Fixpoint lit_i (s : string) : regex :=
  match s with
  | EmptyString => Eps
  | String c EmptyString =>
      Chr (fun d => Ascii.eqb (py.lower_char d) (py.lower_char c))
  | String c s' =>
      Seq (Chr (fun d => Ascii.eqb (py.lower_char d) (py.lower_char c))) (lit_i s')
  end.

(** [\d] *)
Definition isdigit (c : ascii) : bool :=
  let n := N_of_ascii c in ((48 <=? n) && (n <=? 57))%N.

(** [\w]: alphanumeric or underscore, by Python's tables on Latin-1. *)
Definition isword (c : ascii) : bool :=
  let n := N_of_ascii c in
  (isdigit c || (65 <=? n) && (n <=? 90) || (97 <=? n) && (n <=? 122)
   || (n =? 95) || (n =? 170) || (n =? 178) || (n =? 179) || (n =? 181)
   || (n =? 185) || (n =? 186) || (188 <=? n) && (n <=? 190)
   || (192 <=? n) && negb (n =? 215) && negb (n =? 247))%N.

Definition ws : regex := Chr py.isspace.
Definition digit : regex := Chr isdigit.

(** The matcher's position in the subject. *)
Record cursor := Cursor {
  pos : nat;                            (* characters consumed so far *)
  rest : string;                        (* what is left of the subject *)
  prev : option ascii;                  (* the character before [pos] *)
  groups : list (nat * (nat * nat))     (* latest capture first *)
}.

Definition at_word (c : option ascii) : bool :=
  match c with Some c => isword c | None => false end.

Definition peek (s : string) : option ascii :=
  match s with String c _ => Some c | EmptyString => None end.

(** The rounds of a greedy repetition [body{lo,hi}], [count] of them done:
    one more round if [hi] allows it and the round moves the cursor, else on
    with [k] if [lo] rounds are done.  A round consumes a character, so the
    [fuel] of one more than the characters left is never used up. *)
Fixpoint greedy (body : (cursor -> option cursor) -> cursor -> option cursor)
    (lo : nat) (hi : option nat) (k : cursor -> option cursor)
    (fuel count : nat) (cur : cursor) {struct fuel} : option cursor :=
  let stop := if lo <=? count then k cur else None in
  match fuel with
  | O => stop
  | S fuel' =>
      if match hi with Some h => h <=? count | None => false end
      then stop
      else
        match body (fun cur' =>
                      if pos cur <? pos cur'
                      then greedy body lo hi k fuel' (S count) cur'
                      else None) cur with
        | Some e => Some e
        | None => stop
        end
  end.

(** [run r k cur]: match [r] at [cur], then the continuation [k]; [None] makes
    the matcher backtrack into the latest choice. *)
Fixpoint run (r : regex) (k : cursor -> option cursor) (cur : cursor)
  : option cursor :=
  match r with
  | Eps => k cur
  | Chr p =>
      match rest cur with
      | String c s' =>
          if p c then k (Cursor (S (pos cur)) s' (Some c) (groups cur)) else None
      | EmptyString => None
      end
  | Seq r1 r2 => run r1 (run r2 k) cur
  | Alt r1 r2 =>
      match run r1 k cur with
      | Some e => Some e
      | None => run r2 k cur
      end
  | Rep lo hi r' => greedy (run r') lo hi k (S (py.len (rest cur))) 0 cur
  | Grp n r' =>
      run r' (fun cur' =>
                k (Cursor (pos cur') (rest cur') (prev cur')
                     ((n, (pos cur, pos cur')) :: groups cur'))) cur
  | Bol => if pos cur =? 0 then k cur else None
  | Eol =>
      match rest cur with
      | EmptyString => k cur
      | String c EmptyString => if Ascii.eqb c py.nl then k cur else None
      | _ => None
      end
  | Wordb =>
      if xorb (at_word (prev cur)) (at_word (peek (rest cur)))
      then k cur else None
  end.

(** A match object. *)
Record Match := MkMatch {
  string_ : string;
  start_ : nat;
  end_ : nat;
  spans : list (nat * (nat * nat))
}.

Fixpoint span_of (n : nat) (l : list (nat * (nat * nat))) : option (nat * nat) :=
  match l with
  | [] => None
  | (m, ab) :: l' => if n =? m then Some ab else span_of n l'
  end.

(** [m.group(n)] for a group that took part in the match. *)
Definition group (m : Match) (n : nat) : string :=
  match span_of n (spans m) with
  | Some (a, b) => py.slice a b (string_ m)
  | None => EmptyString
  end.

Definition try_at (r : regex) (subject : string) (cur : cursor) : option Match :=
  match run r Some cur with
  | Some e => Some (MkMatch subject (pos cur) (pos e) (groups e))
  | None => None
  end.

(** [re.match(r, subject)] *)
Definition match_ (r : regex) (subject : string) : option Match :=
  try_at r subject (Cursor 0 subject None []).

Definition advance (cur : cursor) : option cursor :=
  match rest cur with
  | String c s' => Some (Cursor (S (pos cur)) s' (Some c) [])
  | EmptyString => None
  end.

(** The scan of [finditer]: leftmost match from the cursor, then on from its
    end.  Each round moves the cursor forward, so [S (len subject)] rounds
    reach the end of the subject. *)
Fixpoint scan (r : regex) (subject : string) (fuel : nat) (cur : cursor)
  : list Match :=
  match fuel with
  | O => []
  | S fuel' =>
      match run r Some cur with
      | Some e =>
          MkMatch subject (pos cur) (pos e) (groups e) ::
          (if pos cur <? pos e
           then scan r subject fuel' (Cursor (pos e) (rest e) (prev e) [])
           else match advance cur with
                | Some cur' => scan r subject fuel' cur'
                | None => []
                end)
      | None =>
          match advance cur with
          | Some cur' => scan r subject fuel' cur'
          | None => []
          end
      end
  end.

(** [list(r.finditer(subject))] *)
Definition finditer (r : regex) (subject : string) : list Match :=
  scan r subject (S (py.len subject)) (Cursor 0 subject None []).

(** [int(s)] for a run of digits *)
Definition int_of_digits (s : string) : Z :=
  (fix go (acc : Z) (s : string) : Z :=
     match s with
     | EmptyString => acc
     | String c s' => go (10 * acc + Z.of_N (N_of_ascii c) - 48)%Z s'
     end) 0%Z s.

Example match_article :
  option_map (fun m => int_of_digits (group m 1))
    (match_ (seq [Bol; lit "Article"; plus ws; Grp 1 (plus digit); Eol]) "Article  12")
  = Some 12%Z.
Proof. reflexivity. Qed.

Example match_backtracks :
  option_map end_ (match_ (seq [star (Chr (fun _ => true)); lit "b"]) "abcbd") = Some 4.
Proof. reflexivity. Qed.

Example finditer_spans :
  map (fun m => (start_ m, end_ m)) (finditer (plus digit) "a12b345") = [(1, 3); (4, 7)].
Proof. reflexivity. Qed.

(** ** The matcher only moves forward *)

(** [cur'] is reached from [cur] by consuming characters. *)
Definition reaches (cur cur' : cursor) : Prop :=
  pos cur' + py.len (rest cur') = pos cur + py.len (rest cur)
  /\ pos cur <= pos cur'.

Lemma reaches_refl cur : reaches cur cur.
Proof. split; lia. Qed.

Lemma reaches_trans c1 c2 c3 : reaches c1 c2 -> reaches c2 c3 -> reaches c1 c3.
Proof. intros [H1 H2] [H3 H4]. split; lia. Qed.

Lemma greedy_reaches body lo hi k e :
  (forall k' cur e', body k' cur = Some e' ->
                     exists cur', reaches cur cur' /\ k' cur' = Some e') ->
  forall fuel count cur,
    greedy body lo hi k fuel count cur = Some e ->
    exists cur', reaches cur cur' /\ k cur' = Some e.
Proof.
  intros Hbody. induction fuel as [|fuel IHf]; intros count cur; cbn [greedy].
  - destruct (lo <=? count); [|easy].
    intros H. exists cur. split; [apply reaches_refl | exact H].
  - assert (Hstop : (if lo <=? count then k cur else None) = Some e ->
                    exists cur', reaches cur cur' /\ k cur' = Some e).
    { destruct (lo <=? count); [|easy].
      intros H. exists cur. split; [apply reaches_refl | exact H]. }
    destruct (match hi with Some h => h <=? count | None => false end);
      [exact Hstop|].
    destruct (body _ cur) as [e'|] eqn:Hrun; [|exact Hstop].
    intros [= ->]. apply Hbody in Hrun as (c1 & Hc1 & Hrun).
    destruct (pos cur <? pos c1); [|easy].
    apply IHf in Hrun as (c2 & Hc2 & Hrun).
    exists c2. split; [eapply reaches_trans; eassumption | exact Hrun].
Qed.

Lemma run_reaches r : forall k cur e,
  run r k cur = Some e -> exists cur', reaches cur cur' /\ k cur' = Some e.
Proof.
  induction r as [|p|r1 IH1 r2 IH2|r1 IH1 r2 IH2|lo hi r IH|n r IH| | |];
    intros k cur e; cbn [run].
  - intros H. exists cur. split; [apply reaches_refl | exact H].
  - destruct (rest cur) as [|c s'] eqn:Hr; [easy|].
    destruct (p c); [|easy]. intros H. eexists. split; [|exact H].
    unfold reaches. simpl. rewrite Hr. simpl. lia.
  - intros H. apply IH1 in H as (c1 & Hc1 & H).
    apply IH2 in H as (c2 & Hc2 & H).
    exists c2. split; [eapply reaches_trans; eassumption | exact H].
  - destruct (run r1 k cur) eqn:H1.
    + intros [= <-]. now apply IH1.
    + apply IH2.
  - apply greedy_reaches, IH.
  - intros H. apply IH in H as (c1 & Hc1 & H).
    eexists. split; [|exact H]. exact Hc1.
  - destruct (pos cur =? 0); [|easy].
    intros H. exists cur. split; [apply reaches_refl | exact H].
  - intros H. exists cur. split; [apply reaches_refl|].
    destruct (rest cur) as [|c [|d s]]; [exact H | | easy].
    now destruct (Ascii.eqb c py.nl).
  - destruct (xorb _ _); [|easy].
    intros H. exists cur. split; [apply reaches_refl | exact H].
Qed.

(** A match lies inside the subject. *)
Lemma match_span r subject m :
  match_ r subject = Some m -> start_ m = 0 /\ end_ m <= py.len subject.
Proof.
  unfold match_, try_at.
  destruct (run r Some _) as [e|] eqn:Hrun; [|easy].
  intros [= <-]. simpl. split; [reflexivity|].
  apply run_reaches in Hrun as (cur' & [Hlen _] & [= ->]). simpl in Hlen. lia.
Qed.

(** The rounds [finditer] is given are enough: more rounds find nothing
    more. *)
Lemma scan_enough r subject : forall fuel cur extra,
  py.len (rest cur) < fuel ->
  scan r subject (fuel + extra) cur = scan r subject fuel cur.
Proof.
  induction fuel as [|fuel IH]; intros cur extra Hfuel; [lia|].
  cbn [Nat.add scan].
  assert (Hadv : match advance cur with
                 | Some cur' => scan r subject (fuel + extra) cur'
                 | None => []
                 end
                 = match advance cur with
                   | Some cur' => scan r subject fuel cur'
                   | None => []
                   end).
  { unfold advance. destruct (rest cur) as [|c s'] eqn:Hr; [reflexivity|].
    apply IH. simpl in *. lia. }
  destruct (run r Some cur) as [e|] eqn:Hrun; [|exact Hadv].
  f_equal. destruct (pos cur <? pos e) eqn:Hlt; [|exact Hadv].
  apply IH. simpl. apply Nat.ltb_lt in Hlt.
  apply run_reaches in Hrun as (cur' & [Hlen _] & [= ->]). lia.
Qed.

Lemma finditer_enough r subject extra :
  scan r subject (S (py.len subject) + extra) (Cursor 0 subject None [])
  = finditer r subject.
Proof. apply scan_enough. simpl. lia. Qed.

(** ** The fuel of a repetition is never used up *)

Lemma greedy_ext body lo hi :
  (forall k1 k2 cur, (forall c, reaches cur c -> k1 c = k2 c) ->
                     body k1 cur = body k2 cur) ->
  forall fuel k1 k2 count cur,
    (forall c, reaches cur c -> k1 c = k2 c) ->
    greedy body lo hi k1 fuel count cur = greedy body lo hi k2 fuel count cur.
Proof.
  intros Hbody. induction fuel as [|fuel IHf]; intros k1 k2 count cur Hk;
    cbn [greedy]; rewrite (Hk cur (reaches_refl cur)); [reflexivity|].
  destruct (match hi with Some h => h <=? count | None => false end);
    [reflexivity|].
  erewrite Hbody; [reflexivity|].
  intros c Hc. cbn beta. destruct (pos cur <? pos c); [|reflexivity].
  apply IHf. intros c' Hc'. apply Hk. eapply reaches_trans; eassumption.
Qed.

Lemma run_ext r : forall k1 k2 cur,
  (forall c, reaches cur c -> k1 c = k2 c) -> run r k1 cur = run r k2 cur.
Proof.
  induction r as [|p|r1 IH1 r2 IH2|r1 IH1 r2 IH2|lo hi r IH|n r IH| | |];
    intros k1 k2 cur Hk; cbn [run];
    try (rewrite (Hk cur (reaches_refl cur)); reflexivity).
  - destruct (rest cur) as [|c s'] eqn:Hr; [reflexivity|].
    destruct (p c); [|reflexivity]. apply Hk.
    unfold reaches. simpl. rewrite Hr. simpl. lia.
  - apply IH1. intros c Hc. apply IH2. intros c' Hc'.
    apply Hk. eapply reaches_trans; eassumption.
  - now rewrite (IH1 k1 k2 cur Hk), (IH2 k1 k2 cur Hk).
  - now apply greedy_ext.
  - apply IH. intros c Hc. apply Hk. exact Hc.
Qed.

Lemma greedy_enough r lo hi k : forall fuel extra count cur,
  py.len (rest cur) < fuel ->
  greedy (run r) lo hi k (fuel + extra) count cur
  = greedy (run r) lo hi k fuel count cur.
Proof.
  induction fuel as [|fuel IHf]; intros extra count cur Hfuel; [lia|].
  cbn [Nat.add greedy].
  destruct (match hi with Some h => h <=? count | None => false end);
    [reflexivity|].
  erewrite run_ext; [reflexivity|].
  intros c [Hlen Hpos]. cbn beta.
  destruct (pos cur <? pos c) eqn:Hlt; [|reflexivity].
  apply Nat.ltb_lt in Hlt. apply IHf. lia.
Qed.

(** ** A match survives a weaker continuation *)

(** If the matcher succeeds with a continuation, it succeeds with any
    continuation that accepts at least the same cursors. *)
Lemma greedy_weaken body lo hi k k' :
  (forall k1 k2 cur,
      (forall c, k1 c <> None -> k2 c <> None) ->
      body k1 cur <> None -> body k2 cur <> None) ->
  (forall c, k c <> None -> k' c <> None) ->
  forall fuel count cur,
    greedy body lo hi k fuel count cur <> None ->
    greedy body lo hi k' fuel count cur <> None.
Proof.
  intros Hbody Hk.
  assert (Hstop : forall count cur,
             (if lo <=? count then k cur else None) <> None ->
             (if lo <=? count then k' cur else None) <> None).
  { intros count cur. destruct (lo <=? count); [apply Hk | easy]. }
  induction fuel as [|fuel IH]; intros count cur; cbn [greedy]; [apply Hstop|].
  destruct (match hi with Some h => h <=? count | None => false end);
    [apply Hstop|].
  set (K := fun cur' => if pos cur <? pos cur'
                        then greedy body lo hi k fuel (S count) cur' else None).
  set (K' := fun cur' => if pos cur <? pos cur'
                         then greedy body lo hi k' fuel (S count) cur' else None).
  assert (HK : forall c, K c <> None -> K' c <> None).
  { intros c. unfold K, K'. destruct (pos cur <? pos c); [apply IH | easy]. }
  destruct (body K cur) eqn:HbK.
  - intros _. assert (body K' cur <> None) as Hb'.
    { apply (Hbody K K' cur HK). now rewrite HbK. }
    now destruct (body K' cur).
  - intros Hs%Hstop. now destruct (body K' cur).
Qed.

Lemma run_weaken r : forall k k' cur,
  (forall c, k c <> None -> k' c <> None) ->
  run r k cur <> None -> run r k' cur <> None.
Proof.
  induction r as [|p|r1 IH1 r2 IH2|r1 IH1 r2 IH2|lo hi r IH|n r IH| | |];
    intros k k' cur Hk; cbn [run].
  - apply Hk.
  - destruct (rest cur) as [|c s']; [easy|]. destruct (p c); [apply Hk | easy].
  - apply IH1. intros c. now apply IH2.
  - destruct (run r1 k cur) eqn:H1.
    + intros _. assert (run r1 k' cur <> None) as H1'.
      { apply (IH1 k k' cur Hk). now rewrite H1. }
      now destruct (run r1 k' cur).
    + intros H2%(IH2 k k' cur Hk). now destruct (run r1 k' cur).
  - apply greedy_weaken; [exact IH | exact Hk].
  - apply IH. intros c. apply Hk.
  - destruct (pos cur =? 0); [apply Hk | easy].
  - destruct (rest cur) as [|c [|d s']]; [apply Hk | | easy].
    destruct (Ascii.eqb c py.nl); [apply Hk | easy].
  - destruct (xorb _ _); [apply Hk | easy].
Qed.

(** A sequence still matches when its tail is replaced by a pattern that
    matches wherever the tail did. *)
Lemma run_seq_weaken r r1 r2 k k' cur :
  (forall c, run r1 k c <> None -> run r2 k' c <> None) ->
  run (Seq r r1) k cur <> None -> run (Seq r r2) k' cur <> None.
Proof. intros H. cbn [run]. now apply run_weaken. Qed.

End re.

(* ===================================================================== *)
(** * The document tree BeautifulSoup hands to the parser                 *)
(* ===================================================================== *)

Module bs4.

(** A parsed page: text nodes and tags.  Of a tag's attributes the parser
    reads [class] (a list of names) and [id]. *)
#[warnings="-register-all"]
Inductive node :=
| NavigableString (s : string)
| Tag (name : string) (classes : list string) (id : option string)
      (contents : list node).

(** An element met during a search, with what [.parent] and [.next_sibling]
    reach from it. *)
Record located := Located {
  element : node;
  parents : list node;          (* nearest first; the last one is the soup *)
  next_siblings : list node
}.

(** Every node below [n], in document order. *)
Fixpoint descendants_at (above : list node) (n : node) : list located :=
  match n with
  | NavigableString _ => []
  | Tag _ _ _ contents =>
      (fix go (kids : list node) : list located :=
         match kids with
         | [] => []
         | k :: after =>
             Located k (n :: above) after
             :: descendants_at (n :: above) k ++ go after
         end) contents
  end.

Definition in_list (s : string) (l : list string) : bool :=
  existsb (String.eqb s) l.

Definition is_tag (n : node) : bool :=
  match n with Tag _ _ _ _ => true | NavigableString _ => false end.

Definition named (nm : string) (n : node) : bool :=
  match n with Tag x _ _ _ => String.eqb x nm | NavigableString _ => false end.

(** [sibling.get("class", [])] *)
Definition classes_of (n : node) : list string :=
  match n with Tag _ cs _ _ => cs | NavigableString _ => [] end.

Definition has_class (c : string) (n : node) : bool :=
  is_tag n && in_list c (classes_of n).

Definition has_id (i : string) (n : node) : bool :=
  match n with
  | Tag _ _ (Some x) _ => String.eqb x i
  | _ => false
  end.

(** [root.find_all(...)] for a test [p] on tags *)
Definition find_all (p : node -> bool) (root : node) : list located :=
  List.filter (fun l => p (element l)) (descendants_at [] root).

(** [root.find(...)] *)
Definition find (p : node -> bool) (root : node) : option located :=
  List.head (find_all p root).

(** Truth value of what [find] returns: a tag is true, [None] is false. *)
Definition found (o : option located) : bool :=
  match o with Some _ => true | None => false end.

Fixpoint strings (n : node) : list string :=
  match n with
  | NavigableString s => [s]
  | Tag _ _ _ contents =>
      (fix go (kids : list node) : list string :=
         match kids with
         | [] => []
         | k :: after => strings k ++ go after
         end) contents
  end.

(** [n.get_text(strip=True)] *)
Definition get_text (n : node) : string :=
  py.join EmptyString (List.filter py.truthy (map py.strip (strings n))).

End bs4.

(* ===================================================================== *)
(** * The structural parser ([src/ingestion/html_parser.py])              *)
(* ===================================================================== *)

Module html_parser.

Import bs4.

Definition p_class (c : string) (n : node) : bool := named "p" n && has_class c n.

Definition UNKNOWN_FORMAT : string :=
  "Unknown EUR-Lex HTML format: no eli-container, ti-art, or TexteOnly div found".

Definition detect_format (soup : node) : result string :=
  if found (find (has_class "eli-container") soup) then Ok "xhtml"
  else if found (find (has_class "ti-art") soup) then Ok "xhtml_mid"
  else if found (find (fun n => named "div" n && has_id "TexteOnly" n) soup)
  then Ok "html_legacy"
  else Raise (ValueError UNKNOWN_FORMAT).

(** The separator of the document title, blank, em dash (as its UTF-8
    bytes), blank. *)
Definition TITLE_SEP : string :=
  String " " (String "226" (String "128" (String "148" (String " " EmptyString)))).

Definition doc_title_of (cls celex_id : string) (soup : node) : string :=
  match map (fun l => get_text (element l)) (find_all (p_class cls) soup) with
  | [] => celex_id
  | title_parts => py.join TITLE_SEP title_parts
  end.

(** [r"Article\s+(\d+)"] *)
Definition ARTICLE_HEADING : re.regex :=
  re.seq [re.lit "Article"; re.plus re.ws; re.Grp 1 (re.plus re.digit)].

(** [_find_chapter_section_xhtml]: the walk up through the parents. *)
Definition _find_chapter_section_xhtml (heading : located) : string * string :=
  fold_left
    (fun '(chapter, section) current =>
       let chapter :=
         match find (p_class "oj-ti-section-1") current with
         | Some ch => if negb (py.truthy chapter) then get_text (element ch) else chapter
         | None => chapter
         end in
       let section :=
         match find (p_class "oj-ti-section-2") current with
         | Some sec => if negb (py.truthy section) then get_text (element sec) else section
         | None => section
         end in
       (chapter, section))
    (parents heading) (EmptyString, EmptyString).

(** The variables [_parse_xhtml] and [_parse_xhtml_mid] carry from one
    heading to the next. *)
Record walk := Walk {
  current_chapter : string;
  current_section : string;
  articles : list Article.t
}.

Definition _parse_xhtml_heading (celex_id : string) (st : walk) (heading : located)
  : walk :=
  match re.match_ ARTICLE_HEADING (get_text (element heading)) with
  | None => st
  | Some art_match =>
      let art_num := re.int_of_digits (re.group art_match 1) in
      let parent := List.head (parents heading) in
      let subtitle :=
        match parent with
        | Some par => find (p_class "oj-sti-art") par
        | None => None
        end in
      let art_title :=
        match subtitle with
        | Some sub => get_text (element sub)
        | None => EmptyString
        end in
      let '(chapter, section) := _find_chapter_section_xhtml heading in
      let current_chapter :=
        if py.truthy chapter then chapter else current_chapter st in
      let current_section :=
        if py.truthy section then section else current_section st in
      let body_parts :=
        match parent with
        | Some par =>
            if named "div" par
            then List.filter py.truthy
                   (map (fun l => get_text (element l))
                      (find_all (p_class "oj-normal") par))
            else []
        | None => []
        end in
      Walk current_chapter current_section
        (articles st ++
         [Article.mk celex_id art_num art_title (py.join py.NL body_parts)
            current_chapter current_section])
  end.

Definition _parse_xhtml (soup : node) (celex_id : string) : ParsedRegulation.t :=
  let doc_title := doc_title_of "oj-doc-ti" celex_id soup in
  let st := fold_left (_parse_xhtml_heading celex_id)
              (find_all (p_class "oj-ti-art") soup)
              (Walk EmptyString EmptyString []) in
  ParsedRegulation.mk celex_id doc_title (articles st) EmptyString "xhtml".

(** What the sibling walk of [_parse_xhtml_mid] has gathered. *)
Record gathered := Gathered {
  g_chapter : string;
  g_section : string;
  art_title : string;
  body_parts : list string
}.

(** [while sibling: ...] over the siblings after a heading. *)
Fixpoint walk_siblings (siblings : list node) (g : gathered) : gathered :=
  match siblings with
  | [] => g
  | sibling :: after =>
      if negb (is_tag sibling) then walk_siblings after g
      else if in_list "ti-art" (classes_of sibling) then g
      else if in_list "ti-section-1" (classes_of sibling) then
        walk_siblings after
          (Gathered (get_text sibling) (g_section g) (art_title g) (body_parts g))
      else if in_list "ti-section-2" (classes_of sibling) then
        walk_siblings after
          (Gathered (g_chapter g) (get_text sibling) (art_title g) (body_parts g))
      else if in_list "sti-art" (classes_of sibling) then
        walk_siblings after
          (Gathered (g_chapter g) (g_section g) (get_text sibling) (body_parts g))
      else if in_list "normal" (classes_of sibling) || named "table" sibling then
        let text := get_text sibling in
        walk_siblings after
          (if py.truthy text
           then Gathered (g_chapter g) (g_section g) (art_title g)
                  (body_parts g ++ [text])
           else g)
      else if in_list "doc-sep" (classes_of sibling) then g
      else walk_siblings after g
  end.

Definition _parse_xhtml_mid_heading (celex_id : string) (st : walk)
    (heading : located) : walk :=
  match re.match_ ARTICLE_HEADING (get_text (element heading)) with
  | None => st
  | Some art_match =>
      let art_num := re.int_of_digits (re.group art_match 1) in
      let g := walk_siblings (next_siblings heading)
                 (Gathered (current_chapter st) (current_section st)
                    EmptyString []) in
      Walk (g_chapter g) (g_section g)
        (articles st ++
         [Article.mk celex_id art_num (art_title g)
            (py.join py.NL (body_parts g)) (g_chapter g) (g_section g)])
  end.

Definition _parse_xhtml_mid (soup : node) (celex_id : string) : ParsedRegulation.t :=
  let doc_title := doc_title_of "doc-ti" celex_id soup in
  let st := fold_left (_parse_xhtml_mid_heading celex_id)
              (find_all (p_class "ti-art") soup)
              (Walk EmptyString EmptyString []) in
  ParsedRegulation.mk celex_id doc_title (articles st) EmptyString "xhtml_mid".

(** [r"^Article\s+(\d+)$"] *)
Definition article_pattern : re.regex :=
  re.seq [re.Bol; re.lit "Article"; re.plus re.ws; re.Grp 1 (re.plus re.digit);
          re.Eol].

Definition matches (r : re.regex) (s : string) : bool :=
  match re.match_ r s with Some _ => true | None => false end.

(** The test on the paragraph after a heading: is it the article's title? *)
Definition is_subtitle (next_text : string) : bool :=
  (py.len next_text <? 200)
  && negb (matches (re.seq [re.Bol; re.plus re.digit; re.lit "."]) next_text)
  && negb (matches (re.seq [re.Bol; re.lit "Article"; re.plus re.ws;
                            re.plus re.digit]) next_text)
  && negb (py.startswith "(" next_text).

(** The title and the paragraphs from [body_start] on. *)
Definition take_subtitle (after : list string) : string * list string :=
  match after with
  | next_text :: body =>
      if is_subtitle next_text then (next_text, body) else (EmptyString, after)
  | [] => (EmptyString, [])
  end.

(** [while j < len(paragraphs)]: the body, and the paragraphs from [j] on. *)
Fixpoint collect_body (paragraphs : list string) : list string * list string :=
  match paragraphs with
  | [] => ([], [])
  | p :: after =>
      if matches article_pattern p then ([], paragraphs)
      else if matches (re.seq [re.Bol; re.lit "ANNEX"; re.Wordb]) p
      then ([], paragraphs)
      else let '(body, remaining) := collect_body after in (p :: body, remaining)
  end.

Lemma take_subtitle_length after :
  length (snd (take_subtitle after)) <= length after.
Proof.
  destruct after as [|t body]; simpl; [lia|].
  destruct (is_subtitle t); simpl; lia.
Qed.

Lemma collect_body_length paragraphs :
  length (snd (collect_body paragraphs)) <= length paragraphs.
Proof.
  induction paragraphs as [|p after IH]; simpl; [lia|].
  destruct (matches article_pattern p); simpl; [lia|].
  destruct (matches _ p); simpl; [lia|].
  destruct (collect_body after). simpl in *. lia.
Qed.

(** [while i < len(paragraphs)]: the articles from paragraph [i] on. *)
Equations? scan_articles (celex_id : string) (paragraphs : list string)
  : list Article.t by wf (length paragraphs) lt :=
scan_articles celex_id [] := [];
scan_articles celex_id (p :: after) with re.match_ article_pattern p := {
  | None := scan_articles celex_id after
  | Some m :=
      Article.mk celex_id (re.int_of_digits (re.group m 1))
        (fst (take_subtitle after))
        (py.join py.NL (fst (collect_body (snd (take_subtitle after)))))
        EmptyString EmptyString
      :: scan_articles celex_id (snd (collect_body (snd (take_subtitle after)))) }.
Proof.
  pose proof (take_subtitle_length after).
  pose proof (collect_body_length (snd (take_subtitle after))). lia.
Qed.

Definition _parse_html_legacy (soup : node) (celex_id : string)
  : ParsedRegulation.t :=
  match find (fun n => named "div" n && has_id "TexteOnly" n) soup with
  | None => ParsedRegulation.mk celex_id celex_id [] EmptyString "html_legacy"
  | Some texte_div =>
      let container :=
        match find (named "txt_te") (element texte_div) with
        | Some txt_te => element txt_te
        | None => element texte_div
        end in
      let paragraphs :=
        List.filter py.truthy
          (map (fun l => get_text (element l)) (find_all (named "p") container)) in
      let doc_title :=
        match paragraphs with p :: _ => p | [] => celex_id end in
      ParsedRegulation.mk celex_id doc_title (scan_articles celex_id paragraphs)
        EmptyString "html_legacy"
  end.

(** [parse_regulation], from the parsed page on: reading the file and building
    the tree are the libraries' part. *)
Definition parse_regulation (soup : node) (celex_id : string)
  : result ParsedRegulation.t :=
  fmt <- detect_format soup ;;
  Ok (if String.eqb fmt "xhtml" then _parse_xhtml soup celex_id
      else if String.eqb fmt "xhtml_mid" then _parse_xhtml_mid soup celex_id
      else _parse_html_legacy soup celex_id).

(** [parse_corpus], over the files of the directory in sorted order, each a
    stem and its page. *)
Definition parse_corpus (html_files : list (string * node))
  : result (list ParsedRegulation.t) :=
  mapM (fun '(celex_id, soup) => parse_regulation soup celex_id) html_files.

(** ** Examples: the pages of the repository's parser tests *)

Definition p_ (text : string) : node := Tag "p" [] None [NavigableString text].
Definition pc (cls text : string) : node :=
  Tag "p" [cls] None [NavigableString text].
Definition page (body : list node) : node :=
  Tag "[document]" [] None [Tag "html" [] None [Tag "body" [] None body]].

Definition legacy_html_doc : node :=
  page [Tag "div" [] (Some "TexteOnly")
          [Tag "p" [] None [];
           Tag "txt_te" [] None
             [p_ "Test Regulation"; p_ "of 1 January 2002"; p_ "THE COUNCIL,";
              p_ "Whereas:"; p_ "(1) Recital text here.";
              p_ "Article 1"; p_ "Subject matter";
              p_ "This regulation establishes general principles.";
              p_ "It covers all food operators.";
              p_ "Article 2"; p_ "Scope";
              p_ "This regulation applies to food and feed.";
              p_ "Article 3"; p_ "Definitions";
              p_ "1. food means any substance.";
              p_ "2. feed means any substance for animals."]]].

Definition xhtml_doc : node :=
  page [Tag "div" ["eli-container"] None
          [Tag "div" ["eli-main-title"] None [pc "oj-doc-ti" "TEST REGULATION"];
           Tag "div" ["eli-subdivision"] (Some "enc_1")
             [Tag "div" ["eli-subdivision"] (Some "art_1")
                [pc "oj-ti-art" "Article 1";
                 Tag "div" [] None
                   [pc "oj-sti-art" "Subject matter";
                    pc "oj-normal" "This regulation lays down rules.";
                    pc "oj-normal" "It applies to all food business operators."]];
              Tag "div" ["eli-subdivision"] (Some "art_2")
                [pc "oj-ti-art" "Article 2";
                 Tag "div" [] None
                   [pc "oj-sti-art" "Definitions";
                    pc "oj-normal" "food means any substance."]]]]].

Definition mid_doc : node :=
  page [pc "doc-ti" "MID REGULATION";
        pc "ti-section-1" "CHAPTER I";
        pc "ti-art" "Article 1"; pc "sti-art" "Scope";
        pc "normal" "First."; pc "normal" " Second. ";
        pc "ti-art" "Article 2"; pc "normal" "Third.";
        Tag "p" ["doc-sep"] None []; pc "normal" "Annex text"].

(** A page with none of the three markers. *)
Definition unknown_doc : node := page [p_ "Article 1"; p_ "Text."].

Example detect_formats :
  map detect_format [xhtml_doc; mid_doc; legacy_html_doc; unknown_doc]
  = [Ok "xhtml"; Ok "xhtml_mid"; Ok "html_legacy";
     Raise (ValueError UNKNOWN_FORMAT)].
Proof. reflexivity. Qed.

Example parse_legacy_articles :
  ParsedRegulation.articles (_parse_html_legacy legacy_html_doc "32099R0002")
  = [Article.mk "32099R0002" 1 "Subject matter"
       ("This regulation establishes general principles." +:+ py.NL
        +:+ "It covers all food operators.") "" "";
     Article.mk "32099R0002" 2 "Scope"
       "This regulation applies to food and feed." "" "";
     Article.mk "32099R0002" 3 "Definitions"
       ("1. food means any substance." +:+ py.NL
        +:+ "2. feed means any substance for animals.") "" ""].
Proof. vm_compute. reflexivity. Qed.

Example parse_xhtml_articles :
  map (fun a => (Article.article_number a, Article.title a))
    (ParsedRegulation.articles (_parse_xhtml xhtml_doc "32099R0001"))
  = [(1%Z, "Subject matter"); (2%Z, "Definitions")].
Proof. vm_compute. reflexivity. Qed.

Example parse_mid_articles :
  map (fun a => (Article.article_number a, Article.title a, Article.text a,
                 Article.chapter a))
    (ParsedRegulation.articles (_parse_xhtml_mid mid_doc "32004R0001"))
  = [(1%Z, "Scope", "First." +:+ py.NL +:+ "Second.", "");
     (2%Z, "", "Third.", "")].
Proof. vm_compute. reflexivity. Qed.

(** ** Properties of the parser *)

Lemma scan_articles_no_context celex_id paragraphs :
  Forall (fun a => Article.chapter a = EmptyString
                   /\ Article.section a = EmptyString)
    (scan_articles celex_id paragraphs).
Proof.
  funelim (scan_articles celex_id paragraphs); simp scan_articles.
  - constructor.
  - constructor; [now split | assumption].
Qed.

(** C10. Every article the legacy parser produces has an empty chapter and
    an empty section. *)
Theorem legacy_articles_no_chapter_section (soup : node) (celex_id : string) :
  Forall (fun a => Article.chapter a = EmptyString
                   /\ Article.section a = EmptyString)
    (ParsedRegulation.articles (_parse_html_legacy soup celex_id)).
Proof.
  unfold _parse_html_legacy.
  destruct (find _ soup) as [texte_div|]; simpl; [|constructor].
  apply scan_articles_no_context.
Qed.

Lemma detect_format_error soup e :
  detect_format soup = Raise e -> e = ValueError UNKNOWN_FORMAT.
Proof.
  unfold detect_format.
  repeat (destruct (found _); [discriminate|]). now intros [= <-].
Qed.

Lemma parse_regulation_raises soup celex_id e :
  detect_format soup = Raise e -> parse_regulation soup celex_id = Raise e.
Proof. intros H. unfold parse_regulation. now rewrite H. Qed.

Lemma parse_regulation_ok soup celex_id fmt :
  detect_format soup = Ok fmt ->
  exists regulation, parse_regulation soup celex_id = Ok regulation.
Proof. intros H. unfold parse_regulation. rewrite H. simpl. eauto. Qed.

(** C5 (as amended). [parse_corpus] has no handler around [parse_regulation]:
    when [detect_format] raises on any one page of the batch, [parse_corpus]
    raises that error and returns no document at all. *)
Theorem parse_corpus_aborts (html_files : list (string * node))
    (celex_id : string) (soup : node) (e : exn) :
  In (celex_id, soup) html_files ->
  detect_format soup = Raise e ->
  parse_corpus html_files = Raise (ValueError UNKNOWN_FORMAT).
Proof.
  intros Hin Hbad. unfold parse_corpus.
  induction html_files as [|[c s] files IH]; [easy|]. simpl.
  destruct (detect_format s) as [fmt|e'] eqn:Hs.
  - destruct (parse_regulation_ok s c fmt Hs) as (reg & ->). simpl.
    destruct Hin as [[= -> ->]|Hin]; [congruence|].
    now rewrite (IH Hin).
  - rewrite (parse_regulation_raises s c e' Hs). simpl.
    now rewrite (detect_format_error s e' Hs).
Qed.

Lemma parse_corpus_aborts_witness :
  parse_corpus [("32099R0001", xhtml_doc); ("32099R0009", unknown_doc);
                ("32099R0002", legacy_html_doc)]
  = Raise (ValueError UNKNOWN_FORMAT).
Proof.
  apply (parse_corpus_aborts _ "32099R0009" unknown_doc (ValueError UNKNOWN_FORMAT)).
  - right. left. reflexivity.
  - reflexivity.
Defined.

(** C5 as stated fails: one unrecognised page between two good ones, and the
    batch yields an error instead of the two parsed documents. *)
Lemma parse_corpus_unrecognized_loses_batch :
  parse_regulation xhtml_doc "32099R0001"
    = Ok (_parse_xhtml xhtml_doc "32099R0001")
  /\ parse_regulation legacy_html_doc "32099R0002"
      = Ok (_parse_html_legacy legacy_html_doc "32099R0002")
  /\ parse_regulation unknown_doc "32099R0009" = Raise (ValueError UNKNOWN_FORMAT)
  /\ parse_corpus [("32099R0001", xhtml_doc); ("32099R0009", unknown_doc);
                   ("32099R0002", legacy_html_doc)]
      = Raise (ValueError UNKNOWN_FORMAT).
Proof. repeat split. Qed.

(** Without an unrecognised page the whole batch is parsed. *)
Lemma parse_corpus_all_recognized html_files :
  Forall (fun f => exists fmt, detect_format (snd f) = Ok fmt) html_files ->
  exists regulations,
    parse_corpus html_files = Ok regulations
    /\ length regulations = length html_files.
Proof.
  unfold parse_corpus.
  induction 1 as [|[c s] files (fmt & Hs) _ (regs & IH & Hlen)]; simpl.
  - now exists [].
  - destruct (parse_regulation_ok s c fmt Hs) as (reg & ->). simpl.
    rewrite IH. simpl. exists (reg :: regs). split; [reflexivity | simpl; lia].
Qed.

(** ** Every article belongs to the parsed document *)

Lemma xhtml_heading_celex celex_id st heading :
  Forall (fun a => Article.celex_id a = celex_id) (articles st) ->
  Forall (fun a => Article.celex_id a = celex_id)
    (articles (_parse_xhtml_heading celex_id st heading)).
Proof.
  intros H. unfold _parse_xhtml_heading.
  destruct (re.match_ _ _); [|exact H].
  destruct (_find_chapter_section_xhtml heading). simpl.
  apply Forall_app. split; [exact H | now repeat constructor].
Qed.

Lemma xhtml_mid_heading_celex celex_id st heading :
  Forall (fun a => Article.celex_id a = celex_id) (articles st) ->
  Forall (fun a => Article.celex_id a = celex_id)
    (articles (_parse_xhtml_mid_heading celex_id st heading)).
Proof.
  intros H. unfold _parse_xhtml_mid_heading.
  destruct (re.match_ _ _); [|exact H]. simpl.
  apply Forall_app. split; [exact H | now repeat constructor].
Qed.

Lemma fold_headings_celex (step : walk -> located -> walk) celex_id headings :
  (forall st heading,
      Forall (fun a => Article.celex_id a = celex_id) (articles st) ->
      Forall (fun a => Article.celex_id a = celex_id) (articles (step st heading))) ->
  forall st,
    Forall (fun a => Article.celex_id a = celex_id) (articles st) ->
    Forall (fun a => Article.celex_id a = celex_id)
      (articles (fold_left step headings st)).
Proof.
  intros Hstep. induction headings as [|h headings IH]; intros st Hst; [exact Hst|].
  simpl. now apply IH, Hstep.
Qed.

Lemma scan_articles_celex celex_id paragraphs :
  Forall (fun a => Article.celex_id a = celex_id) (scan_articles celex_id paragraphs).
Proof.
  funelim (scan_articles celex_id paragraphs); simp scan_articles.
  - constructor.
  - constructor; [reflexivity | assumption].
Qed.

Lemma parse_regulation_cases soup celex_id regulation :
  parse_regulation soup celex_id = Ok regulation ->
  (detect_format soup = Ok "xhtml" /\ regulation = _parse_xhtml soup celex_id)
  \/ (detect_format soup = Ok "xhtml_mid"
      /\ regulation = _parse_xhtml_mid soup celex_id)
  \/ (detect_format soup = Ok "html_legacy"
      /\ regulation = _parse_html_legacy soup celex_id).
Proof.
  unfold parse_regulation, detect_format.
  destruct (found _); [intros [= <-]; now left|].
  destruct (found _); [intros [= <-]; right; now left|].
  destruct (found _); [intros [= <-]; right; now right | discriminate].
Qed.

Lemma parse_regulation_celex soup celex_id regulation :
  parse_regulation soup celex_id = Ok regulation ->
  ParsedRegulation.celex_id regulation = celex_id
  /\ Forall (fun a => Article.celex_id a = celex_id)
       (ParsedRegulation.articles regulation).
Proof.
  intros [[_ ->] | [[_ ->] | [_ ->]]]%parse_regulation_cases;
    (split; [try reflexivity|]).
  - apply fold_headings_celex; [apply xhtml_heading_celex | constructor].
  - apply fold_headings_celex; [apply xhtml_mid_heading_celex | constructor].
  - unfold _parse_html_legacy. now destruct (find _ soup).
  - unfold _parse_html_legacy. destruct (find _ soup); simpl; [|constructor].
    apply scan_articles_celex.
Qed.

(** X6. A page that is parsed yields a regulation with the document id it
    was given, carried by every one of its articles, and with the format
    [detect_format] found as its [format_type]. *)
Theorem parse_regulation_identifies
    (soup : node) (celex_id : string) (regulation : ParsedRegulation.t) :
  parse_regulation soup celex_id = Ok regulation ->
  ParsedRegulation.celex_id regulation = celex_id
  /\ detect_format soup = Ok (ParsedRegulation.format_type regulation)
  /\ Forall (fun a => Article.celex_id a = celex_id)
       (ParsedRegulation.articles regulation).
Proof.
  intros H. destruct (parse_regulation_celex _ _ _ H) as [Hc Ha].
  split; [exact Hc|]. split; [|exact Ha].
  apply parse_regulation_cases in H as [[Hf ->] | [[Hf ->] | [Hf ->]]];
    rewrite Hf; try reflexivity.
  unfold _parse_html_legacy. now destruct (find _ soup).
Qed.

Lemma parse_regulation_identifies_witness :
  ParsedRegulation.celex_id (_parse_html_legacy legacy_html_doc "32099R0002")
  = "32099R0002"
  /\ detect_format legacy_html_doc
     = Ok (ParsedRegulation.format_type
             (_parse_html_legacy legacy_html_doc "32099R0002"))
  /\ Forall (fun a => Article.celex_id a = "32099R0002")
       (ParsedRegulation.articles (_parse_html_legacy legacy_html_doc "32099R0002")).
Proof.
  apply (parse_regulation_identifies legacy_html_doc). reflexivity.
Defined.

(** ** One article per heading *)

(** The number a heading announces, if the text is a heading at all. *)
Definition heading_number (pattern : re.regex) (text : string) : option Z :=
  match re.match_ pattern text with
  | Some m => Some (re.int_of_digits (re.group m 1))
  | None => None
  end.

(** The [paragraphs] of [_parse_html_legacy]. *)
Definition legacy_paragraphs (soup : node) : list string :=
  match find (fun n => named "div" n && has_id "TexteOnly" n) soup with
  | None => []
  | Some texte_div =>
      let container :=
        match find (named "txt_te") (element texte_div) with
        | Some txt_te => element txt_te
        | None => element texte_div
        end in
      List.filter py.truthy
        (map (fun l => get_text (element l)) (find_all (named "p") container))
  end.

Lemma heading_not_subtitle p :
  matches article_pattern p = true -> is_subtitle p = false.
Proof.
  intros H. unfold is_subtitle.
  enough (matches (re.seq [re.Bol; re.lit "Article"; re.plus re.ws;
                           re.plus re.digit]) p = true) as ->
    by (now rewrite andb_false_r).
  unfold matches, re.match_, re.try_at, article_pattern in *.
  set (cur := re.Cursor 0 p None []) in *.
  assert (re.run (re.seq [re.Bol; re.lit "Article"; re.plus re.ws;
                          re.plus re.digit]) Some cur <> None) as Hgoal.
  { assert (re.run (re.seq [re.Bol; re.lit "Article"; re.plus re.ws;
                            re.Grp 1 (re.plus re.digit); re.Eol]) Some cur <> None)
      as Hrun.
    { intros E. rewrite E in H. discriminate H. }
    revert Hrun. cbn [re.seq].
    apply re.run_seq_weaken. intros c1.
    apply re.run_seq_weaken. intros c2.
    apply re.run_seq_weaken. intros c3.
    cbn [re.run]. apply re.run_weaken. easy. }
  clear H.
  destruct (re.run _ Some cur); [reflexivity | easy].
Qed.

Lemma take_subtitle_headings after :
  omap (heading_number article_pattern) (snd (take_subtitle after))
  = omap (heading_number article_pattern) after.
Proof.
  destruct after as [|t body]; [reflexivity|]. unfold take_subtitle.
  destruct (is_subtitle t) eqn:Hsub; [|reflexivity]. cbn [snd omap list_omap].
  unfold heading_number at 2.
  destruct (re.match_ article_pattern t) eqn:Hm; [|reflexivity].
  assert (matches article_pattern t = true) as Hh%heading_not_subtitle
    by (unfold matches; now rewrite Hm).
  congruence.
Qed.

Lemma collect_body_headings paragraphs :
  omap (heading_number article_pattern) (snd (collect_body paragraphs))
  = omap (heading_number article_pattern) paragraphs.
Proof.
  induction paragraphs as [|p after IH]; [reflexivity|]. cbn [collect_body].
  destruct (matches article_pattern p) eqn:Hp; [reflexivity|].
  destruct (matches (re.seq [re.Bol; re.lit "ANNEX"; re.Wordb]) p); [reflexivity|].
  destruct (collect_body after) as [body remaining]. cbn [snd omap list_omap] in *.
  unfold heading_number at 2. unfold matches in Hp.
  destruct (re.match_ article_pattern p); [discriminate | exact IH].
Qed.

Lemma scan_articles_numbers celex_id paragraphs :
  map Article.article_number (scan_articles celex_id paragraphs)
  = omap (heading_number article_pattern) paragraphs.
Proof.
  funelim (scan_articles celex_id paragraphs); simp scan_articles.
  - reflexivity.
  - cbn [omap list_omap map]. unfold heading_number at 1. rewrite Heq.
    cbn [Article.article_number]. f_equal.
    now rewrite H, collect_body_headings, take_subtitle_headings.
  - cbn [omap list_omap]. unfold heading_number at 1. rewrite Heq. exact H.
Qed.

Lemma fold_headings_numbers step pattern (headings : list located) :
  (forall st heading,
      map Article.article_number (articles (step st heading))
      = map Article.article_number (articles st)
        ++ match heading_number pattern (get_text (element heading)) with
           | Some n => [n]
           | None => []
           end) ->
  forall st : walk,
    map Article.article_number (articles (fold_left step headings st))
    = map Article.article_number (articles st)
      ++ omap (fun heading => heading_number pattern (get_text (element heading)))
           headings.
Proof.
  intros Hstep.
  induction headings as [|h headings IH]; intros st; simpl.
  - now rewrite app_nil_r.
  - rewrite IH, Hstep, <- app_assoc. f_equal.
    now destruct (heading_number pattern (get_text (element h))).
Qed.

(** X7. Each parser returns one article per heading, in document order, with
    the number the heading announces: for the two XHTML variants the headings
    are the paragraphs of the heading class whose text starts with
    [Article N]; for the legacy format they are the paragraphs that read
    [Article N] and nothing else, none of which is taken for a title or for
    body text of the article before it. *)
Theorem parsers_one_article_per_heading (soup : node) (celex_id : string) :
  map Article.article_number (ParsedRegulation.articles (_parse_xhtml soup celex_id))
  = omap (fun heading =>
            heading_number ARTICLE_HEADING (get_text (element heading)))
      (find_all (p_class "oj-ti-art") soup)
  /\ map Article.article_number
       (ParsedRegulation.articles (_parse_xhtml_mid soup celex_id))
     = omap (fun heading =>
               heading_number ARTICLE_HEADING (get_text (element heading)))
         (find_all (p_class "ti-art") soup)
  /\ map Article.article_number
       (ParsedRegulation.articles (_parse_html_legacy soup celex_id))
     = omap (heading_number article_pattern) (legacy_paragraphs soup).
Proof.
  split; [|split].
  - unfold _parse_xhtml. cbn [ParsedRegulation.articles].
    rewrite (fold_headings_numbers _ ARTICLE_HEADING); [reflexivity|].
    intros st heading. unfold _parse_xhtml_heading, heading_number.
    destruct (re.match_ _ _); [|now rewrite app_nil_r].
    destruct (_find_chapter_section_xhtml heading). simpl.
    now rewrite map_app.
  - unfold _parse_xhtml_mid. cbn [ParsedRegulation.articles].
    rewrite (fold_headings_numbers _ ARTICLE_HEADING); [reflexivity|].
    intros st heading. unfold _parse_xhtml_mid_heading, heading_number.
    destruct (re.match_ _ _); [|now rewrite app_nil_r]. simpl.
    now rewrite map_app.
  - unfold _parse_html_legacy, legacy_paragraphs.
    destruct (find _ soup); [|reflexivity]. cbn [ParsedRegulation.articles].
    apply scan_articles_numbers.
Qed.


(** ** The fields of an article have no blanks at their ends *)

Definition tidy (s : string) : Prop := py.strip s = s.

(** A text as the parsers collect it: stripped and not empty. *)
Definition solid (s : string) : Prop := py.strip s = s /\ s <> EmptyString.

Definition tidy_article (a : Article.t) : Prop :=
  tidy (Article.title a) /\ tidy (Article.text a)
  /\ tidy (Article.chapter a) /\ tidy (Article.section a).

Lemma filter_truthy_solid (l : list string) :
  Forall tidy l -> Forall solid (List.filter py.truthy l).
Proof.
  induction 1 as [|s l Hs _ IH]; simpl; [constructor|].
  destruct (py.truthy s) eqn:Ht; [|exact IH].
  constructor; [|exact IH]. split; [exact Hs | now apply py.truthy_true].
Qed.

Lemma get_text_tidy n : tidy (get_text n).
Proof.
  unfold tidy, get_text. apply py.strip_join, filter_truthy_solid.
  apply List.Forall_forall. intros s (x & <- & _)%in_map_iff. apply py.strip_idem.
Qed.

Lemma body_tidy (parts : list string) : Forall solid parts -> tidy (py.join py.NL parts).
Proof. intros H. now apply py.strip_join. Qed.

Lemma get_texts_solid {A} (f : A -> node) (l : list A) :
  Forall solid (List.filter py.truthy (map (fun x => get_text (f x)) l)).
Proof.
  apply filter_truthy_solid, List.Forall_forall.
  intros s (x & <- & _)%in_map_iff. apply get_text_tidy.
Qed.

Lemma find_chapter_section_tidy heading :
  tidy (fst (_find_chapter_section_xhtml heading))
  /\ tidy (snd (_find_chapter_section_xhtml heading)).
Proof.
  unfold _find_chapter_section_xhtml.
  generalize (parents heading) as l.
  assert (Hinit : tidy (fst (EmptyString, EmptyString))
                  /\ tidy (snd (EmptyString, EmptyString))) by now split.
  revert Hinit. generalize (EmptyString, EmptyString) as acc.
  intros acc Hacc l. revert acc Hacc.
  induction l as [|current l IH]; intros [chapter section] Hacc; [exact Hacc|].
  cbn [fold_left]. apply IH. destruct Hacc as [Hc Hs]. simpl in *. split.
  - destruct (find (p_class "oj-ti-section-1") current); [|exact Hc].
    destruct (negb _); [apply get_text_tidy | exact Hc].
  - destruct (find (p_class "oj-ti-section-2") current); [|exact Hs].
    destruct (negb _); [apply get_text_tidy | exact Hs].
Qed.

(** What the loops over the headings keep true. *)
Definition tidy_walk (st : walk) : Prop :=
  tidy (current_chapter st) /\ tidy (current_section st)
  /\ Forall tidy_article (articles st).

Lemma xhtml_heading_tidy celex_id st heading :
  tidy_walk st -> tidy_walk (_parse_xhtml_heading celex_id st heading).
Proof.
  intros (Hc & Hs & Ha). unfold _parse_xhtml_heading.
  destruct (re.match_ _ _); [|now repeat split].
  pose proof (find_chapter_section_tidy heading) as [Hfc Hfs].
  destruct (_find_chapter_section_xhtml heading) as [chapter section].
  simpl in Hfc, Hfs.
  assert (Hc' : tidy (if py.truthy chapter then chapter else current_chapter st))
    by now destruct (py.truthy chapter).
  assert (Hs' : tidy (if py.truthy section then section else current_section st))
    by now destruct (py.truthy section).
  repeat split; simpl; try assumption.
  apply Forall_app. split; [exact Ha|]. constructor; [|constructor].
  repeat split; simpl; try assumption.
  - destruct (List.head (parents heading)) as [par|]; [|reflexivity].
    destruct (find _ par); [apply get_text_tidy | reflexivity].
  - apply body_tidy.
    destruct (List.head (parents heading)) as [par|]; [|constructor].
    destruct (named "div" par); [apply get_texts_solid | constructor].
Qed.

Lemma walk_siblings_tidy siblings : forall g,
  tidy (g_chapter g) -> tidy (g_section g) -> tidy (art_title g) ->
  Forall solid (body_parts g) ->
  tidy (g_chapter (walk_siblings siblings g))
  /\ tidy (g_section (walk_siblings siblings g))
  /\ tidy (art_title (walk_siblings siblings g))
  /\ Forall solid (body_parts (walk_siblings siblings g)).
Proof.
  induction siblings as [|sibling after IH]; intros g Hc Hs Ht Hb; [easy|].
  cbn [walk_siblings].
  destruct (negb (is_tag sibling)); [now apply IH|].
  destruct (in_list "ti-art" _); [easy|].
  destruct (in_list "ti-section-1" _);
    [apply IH; simpl; try assumption; apply get_text_tidy|].
  destruct (in_list "ti-section-2" _);
    [apply IH; simpl; try assumption; apply get_text_tidy|].
  destruct (in_list "sti-art" _);
    [apply IH; simpl; try assumption; apply get_text_tidy|].
  destruct (in_list "normal" _ || named "table" sibling).
  - destruct (py.truthy (get_text sibling)) eqn:Htext; [|now apply IH].
    apply IH; simpl; try assumption.
    apply Forall_app. split; [assumption|]. constructor; [|constructor].
    split; [apply get_text_tidy | now apply py.truthy_true].
  - destruct (in_list "doc-sep" _); [easy | now apply IH].
Qed.

Lemma xhtml_mid_heading_tidy celex_id st heading :
  tidy_walk st -> tidy_walk (_parse_xhtml_mid_heading celex_id st heading).
Proof.
  intros (Hc & Hs & Ha). unfold _parse_xhtml_mid_heading.
  destruct (re.match_ _ _); [|now repeat split].
  destruct (walk_siblings_tidy (next_siblings heading)
              (Gathered (current_chapter st) (current_section st) EmptyString []))
    as (Hgc & Hgs & Hgt & Hgb); simpl; try assumption; try easy.
  repeat split; simpl; try assumption.
  apply Forall_app. split; [exact Ha|]. constructor; [|constructor].
  repeat split; simpl; try assumption. now apply body_tidy.
Qed.

Lemma fold_headings_tidy (step : walk -> located -> walk) headings :
  (forall st heading, tidy_walk st -> tidy_walk (step st heading)) ->
  forall st, tidy_walk st -> tidy_walk (fold_left step headings st).
Proof.
  intros Hstep. induction headings as [|h headings IH]; intros st Hst; [exact Hst|].
  simpl. now apply IH, Hstep.
Qed.

Lemma take_subtitle_solid after :
  Forall solid after ->
  tidy (fst (take_subtitle after)) /\ Forall solid (snd (take_subtitle after)).
Proof.
  intros H. destruct after as [|t body]; [now split|]. unfold take_subtitle.
  inversion_clear H as [|? ? Ht Hbody].
  destruct (is_subtitle t); simpl; split;
    [apply Ht | exact Hbody | reflexivity | now constructor].
Qed.

Lemma collect_body_solid paragraphs :
  Forall solid paragraphs ->
  Forall solid (fst (collect_body paragraphs))
  /\ Forall solid (snd (collect_body paragraphs)).
Proof.
  induction 1 as [|p after Hp Hafter IH]; [now split|]. cbn [collect_body].
  destruct (matches article_pattern p); [split; [constructor | now constructor]|].
  destruct (matches _ p); [split; [constructor | now constructor]|].
  destruct (collect_body after) as [body remaining]. simpl in *.
  split; [constructor|]; easy.
Qed.

Lemma scan_articles_tidy celex_id paragraphs :
  Forall solid paragraphs ->
  Forall tidy_article (scan_articles celex_id paragraphs).
Proof.
  funelim (scan_articles celex_id paragraphs); simp scan_articles; intros Hall.
  - constructor.
  - inversion_clear Hall as [|? ? _ Hafter].
    destruct (take_subtitle_solid after Hafter) as [Ht Hrest].
    destruct (collect_body_solid _ Hrest) as [Hbody Hremaining].
    constructor; [|now apply H].
    repeat split; simpl; try reflexivity; [exact Ht | now apply body_tidy].
  - inversion_clear Hall as [|? ? _ Hafter]. now apply H.
Qed.

(** X8. In every article a parser returns, the title, the body text, the
    chapter and the section have no whitespace at either end (each is the
    stripped text of page elements, or empty). *)
Theorem parsed_articles_stripped (soup : node) (celex_id : string) :
  Forall tidy_article (ParsedRegulation.articles (_parse_xhtml soup celex_id))
  /\ Forall tidy_article (ParsedRegulation.articles (_parse_xhtml_mid soup celex_id))
  /\ Forall tidy_article
       (ParsedRegulation.articles (_parse_html_legacy soup celex_id)).
Proof.
  split; [|split].
  - apply fold_headings_tidy; [apply xhtml_heading_tidy|].
    repeat split; constructor.
  - apply fold_headings_tidy; [apply xhtml_mid_heading_tidy|].
    repeat split; constructor.
  - unfold _parse_html_legacy. destruct (find _ soup); simpl; [|constructor].
    apply scan_articles_tidy, get_texts_solid.
Qed.

(** ** From the pages to the chunks *)

Lemma parse_corpus_celex html_files : forall regulations,
  parse_corpus html_files = Ok regulations ->
  map ParsedRegulation.celex_id regulations = map fst html_files
  /\ Forall (fun regulation =>
               Forall (fun a => Article.celex_id a
                                = ParsedRegulation.celex_id regulation)
                 (ParsedRegulation.articles regulation)) regulations.
Proof.
  unfold parse_corpus.
  induction html_files as [|[celex_id soup] files IH]; intros regulations; simpl.
  - intros [= <-]. split; [reflexivity | constructor].
  - destruct (parse_regulation soup celex_id) as [regulation|] eqn:Hreg;
      [|discriminate].
    cbn [bind].
    destruct (mapM _ files) as [rest|]; [|discriminate]. cbn [bind].
    intros [= <-]. destruct (IH rest eq_refl) as [Hids Hall].
    destruct (parse_regulation_celex _ _ _ Hreg) as [Hc Ha].
    split; [simpl; now rewrite Hc, Hids|].
    constructor; [now rewrite Hc | exact Hall].
Qed.

(** X9. The chunk ids of a parsed and chunked corpus are pairwise distinct:
    when [parse_corpus] succeeds on pages with distinct file stems, as the
    files of one directory have, no two chunks of [chunk_corpus] share a
    [chunk_id], also when a regulation repeats an article number. *)
Theorem parse_corpus_chunk_ids_unique
    (html_files : list (string * node)) (regulations : list ParsedRegulation.t)
    (max_chars : Z) :
  parse_corpus html_files = Ok regulations ->
  NoDup (map fst html_files) ->
  NoDup (map ArticleChunk.chunk_id (chunking.chunk_corpus regulations max_chars)).
Proof.
  intros Hparse Hnd. destruct (parse_corpus_celex _ _ Hparse) as [Hids Hall].
  apply chunking.chunk_corpus_NoDup; [now rewrite Hids | exact Hall].
Qed.

Lemma parse_corpus_chunk_ids_unique_witness :
  NoDup (map ArticleChunk.chunk_id
           (chunking.chunk_corpus
              [_parse_xhtml xhtml_doc "32099R0001";
               _parse_html_legacy legacy_html_doc "32099R0002"] 2000)).
Proof.
  apply (parse_corpus_chunk_ids_unique
           [("32099R0001", xhtml_doc); ("32099R0002", legacy_html_doc)]).
  - reflexivity.
  - apply (bool_decide_unpack _). vm_compute. exact I.
Defined.

End html_parser.

(* ===================================================================== *)
(** * The catalog of documents ([src/ingestion/corpus.py])                *)
(* ===================================================================== *)

Module corpus.

(** An entry of [CORPUS].  Its third key, the description, is display text
    no function of the pipeline reads; it is left out. *)
Record info := Info {
  category : string;
  title : string
}.

(** [CORPUS], in the order of the source. *)
Definition CORPUS : list (string * info) :=
  [
   ("32002R0178", Info "general_food_law"
      "General Food Law Regulation");
   ("32019R1381", Info "general_food_law"
      "Transparency and sustainability of EU risk assessment in food chain");
   ("32004R0852", Info "general_food_law"
      "Hygiene of foodstuffs");
   ("32004R0853", Info "general_food_law"
      "Hygiene rules for food of animal origin");
   ("32011R0016", Info "general_food_law"
      "Implementing measures for the Rapid Alert System for Food and Feed");
   ("32015R2283", Info "novel_food"
      "Novel Foods Regulation");
   ("32017R2468", Info "novel_food"
      "Novel food application requirements");
   ("32017R2469", Info "novel_food"
      "Novel food application requirements (traditional foods from third countries)");
   ("32017R2470", Info "novel_food"
      "Union List of novel foods");
   ("32018R0456", Info "novel_food"
      "Procedural steps of the consultation process for novel food status");
   ("32008R1333", Info "food_additives"
      "Food Additives Regulation");
   ("32008R1331", Info "food_additives"
      "Common authorisation procedure for food additives, enzymes, flavourings");
   ("32012R0231", Info "food_additives"
      "Specifications for food additives");
   ("32008R1332", Info "food_enzymes"
      "Food Enzymes Regulation");
   ("32008R1334", Info "flavourings"
      "Flavourings Regulation");
   ("32004R1935", Info "food_contact_materials"
      "Food Contact Materials framework regulation");
   ("32011R0010", Info "food_contact_materials"
      "Plastic food contact materials");
   ("32022R1616", Info "food_contact_materials"
      "Recycled plastic food contact materials");
   ("32006R2023", Info "food_contact_materials"
      "Good Manufacturing Practice for food contact materials");
   ("32011R1169", Info "labelling_fic"
      "Food Information to Consumers (FIC) Regulation");
   ("32013R1337", Info "labelling_fic"
      "Origin labelling for meat");
   ("32006R1924", Info "nutrition_health_claims"
      "Nutrition and Health Claims Regulation");
   ("32012R0432", Info "nutrition_health_claims"
      "List of permitted health claims");
   ("32023R0915", Info "contaminants"
      "Maximum levels for contaminants in food");
   ("32006R1881", Info "contaminants"
      "Maximum levels for contaminants in food (predecessor)");
   ("32017R0625", Info "official_controls"
      "Official Controls Regulation");
   ("32018R0848", Info "organic"
      "Organic Production Regulation");
   ("32013R0609", Info "food_specific_groups"
      "Food for Specific Groups Regulation");
   ("32016R0127", Info "food_specific_groups"
      "Requirements for infant formula and follow-on formula");
   ("32002L0046", Info "food_supplements"
      "Food Supplements Directive");
   ("32003R1829", Info "gmo"
      "GM Food and Feed Regulation");
   ("32003R1830", Info "gmo"
      "Traceability and labelling of GMOs");
   ("32006R1925", Info "fortification"
      "Addition of vitamins and minerals to foods")
  ].

(** [d.get(key)] on a dict written as its list of items *)
Fixpoint get {V} (key : string) (d : list (string * V)) : option V :=
  match d with
  | [] => None
  | (k, v) :: d' => if String.eqb k key then Some v else get key d'
  end.

(** [CORPUS.get(celex_id, {}).get("category", "")] *)
Definition category_of (celex_id : string) : string :=
  match get celex_id CORPUS with
  | Some i => category i
  | None => EmptyString
  end.

(** [CORPUS.get(celex, {}).get("title", celex)] *)
Definition title_of (celex : string) : string :=
  match get celex CORPUS with
  | Some i => title i
  | None => celex
  end.

End corpus.

(* ===================================================================== *)
(** * The entity extractor ([src/extraction/entity_extractor.py])         *)
(* ===================================================================== *)

Module DefinedTerm.
Record t := mk {
  term : string;
  celex_id : string;
  article_number : Z;
  definition_snippet : string;
  category : string
}.

(** The [term_lower] property. *)
Definition term_lower (dt : t) : string := py.strip (py.lower (term dt)).
End DefinedTerm.

Module CrossReference.
Record t := mk {
  source_celex : string;
  source_article : Z;
  target_regulation_number : string;
  context : string
}.
End CrossReference.

Module EntityIndex.
Record t := mk {
  defined_terms : list DefinedTerm.t;
  cross_references : list CrossReference.t
}.

(** [result[key].append(dt)] on a dict kept in insertion order. *)
Fixpoint append_at (key : string) (dt : DefinedTerm.t)
    (d : list (string * list DefinedTerm.t)) : list (string * list DefinedTerm.t) :=
  match d with
  | [] => [(key, [dt])]
  | (k, v) :: d' =>
      if String.eqb k key then (k, v ++ [dt]) :: d'
      else (k, v) :: append_at key dt d'
  end.

(** The [term_to_sources] property. *)
Definition term_to_sources (index : t) : list (string * list DefinedTerm.t) :=
  fold_left (fun result dt => append_at (DefinedTerm.term_lower dt) dt result)
    (defined_terms index) [].

(** The [celex_to_terms] property. *)
Definition celex_to_terms (index : t) : list (string * list DefinedTerm.t) :=
  fold_left (fun result dt => append_at (DefinedTerm.celex_id dt) dt result)
    (defined_terms index) [].
(** ** Grouping the defined terms by a key *)

(** The terms filed under [k], in index order. *)
Definition with_key (key : DefinedTerm.t -> string) (k : string)
    (terms : list DefinedTerm.t) : list DefinedTerm.t :=
  List.filter (fun dt => String.eqb (key dt) k) terms.

Definition entry_of (l : list DefinedTerm.t) : option (list DefinedTerm.t) :=
  match l with [] => None | _ => Some l end.

Lemma append_at_get key dt d k :
  corpus.get k (append_at key dt d)
  = if String.eqb key k then Some (default [] (corpus.get k d) ++ [dt])
    else corpus.get k d.
Proof.
  induction d as [|[k' v] d IH]; simpl.
  - destruct (String.eqb key k); reflexivity.
  - destruct (String.eqb_spec k' key) as [->|Hne]; simpl.
    + destruct (String.eqb key k); reflexivity.
    + rewrite IH. destruct (String.eqb_spec k' k) as [->|Hne'];
        [|reflexivity].
      destruct (String.eqb_spec key k) as [->|_]; [easy | reflexivity].
Qed.

Lemma append_at_keys key dt d :
  map fst (append_at key dt d)
  = map fst d ++ (if bool_decide (key ∈ map fst d) then [] else [key]).
Proof.
  induction d as [|[k' v] d IH]; simpl; [reflexivity|].
  destruct (String.eqb_spec k' key) as [->|Hne]; simpl.
  - rewrite bool_decide_eq_true_2 by apply list_elem_of_here.
    now rewrite app_nil_r.
  - rewrite IH. f_equal. apply app_inv_head_iff.
    destruct (bool_decide (key ∈ map fst d)) eqn:E.
    + apply bool_decide_eq_true in E.
      rewrite bool_decide_eq_true_2; [reflexivity | now apply list_elem_of_further].
    + apply bool_decide_eq_false in E.
      rewrite bool_decide_eq_false_2; [reflexivity|].
      intros [H|H]%elem_of_cons; [congruence | easy].
Qed.

Lemma grouped_fold key terms : forall d done,
  NoDup (map fst d) ->
  (forall k, corpus.get k d = entry_of (with_key key k done)) ->
  NoDup (map fst (fold_left (fun result dt => append_at (key dt) dt result) terms d))
  /\ (forall k,
        corpus.get k (fold_left (fun result dt => append_at (key dt) dt result)
                        terms d)
        = entry_of (with_key key k (done ++ terms))).
Proof.
  induction terms as [|dt terms IH]; intros d done Hnd Hget.
  - simpl. now rewrite app_nil_r.
  - cbn [fold_left].
    replace (done ++ dt :: terms) with ((done ++ [dt]) ++ terms)
      by now rewrite <- app_assoc.
    apply IH.
    + rewrite append_at_keys. case_bool_decide as Hin; [now rewrite app_nil_r|].
      apply NoDup_app. split; [exact Hnd|].
      split; [|apply NoDup_singleton].
      intros x Hx ->%list_elem_of_singleton. easy.
    + intros k. rewrite append_at_get, Hget. unfold with_key.
      rewrite List.filter_app. simpl.
      destruct (String.eqb (key dt) k).
      * destruct (List.filter _ done); reflexivity.
      * now rewrite app_nil_r.
Qed.

(** X10. [term_to_sources] and [celex_to_terms] are groupings of the index:
    no key occurs twice, and the entry of a key is the list of exactly the
    defined terms with that normalized term (that document id), in index
    order; a key no term has is absent. *)
Theorem index_maps_group_terms (index : t) :
  NoDup (map fst (term_to_sources index))
  /\ (forall k, corpus.get k (term_to_sources index)
                = entry_of (with_key DefinedTerm.term_lower k (defined_terms index)))
  /\ NoDup (map fst (celex_to_terms index))
  /\ (forall k, corpus.get k (celex_to_terms index)
                = entry_of (with_key DefinedTerm.celex_id k (defined_terms index))).
Proof.
  unfold term_to_sources, celex_to_terms.
  destruct (grouped_fold DefinedTerm.term_lower (defined_terms index) [] [])
    as [H1 H2]; [constructor | reflexivity|].
  destruct (grouped_fold DefinedTerm.celex_id (defined_terms index) [] [])
    as [H3 H4]; [constructor | reflexivity|].
  easy.
Qed.

End EntityIndex.

Module entity_extractor.

(** The eight quote characters of the patterns: apostrophe, double quote,
    the two guillemets, and the curly quotes U+2018, U+2019, U+201C, U+201D
    at the positions 145..148 of the alphabet. *)
Definition is_quote (c : ascii) : bool :=
  let n := N_of_ascii c in
  ((n =? 39) || (n =? 34) || (n =? 171) || (n =? 187)
   || (145 <=? n) && (n <=? 148))%N.

Definition QUOTE : re.regex := re.Chr is_quote.
Definition NOT_QUOTE : re.regex := re.Chr (fun c => negb (is_quote c)).

(** [_TERM_PATTERN], compiled with [re.VERBOSE | re.IGNORECASE]. *)
Definition _TERM_PATTERN : re.regex :=
  re.seq
    [QUOTE; re.star re.ws;
     re.Grp 1 (re.Rep 2 (Some 80) NOT_QUOTE);
     re.star re.ws; QUOTE; re.star re.ws;
     re.opt (re.seq [re.lit "(";
                     re.Rep 0 (Some 80) (re.Chr (fun c => negb (Ascii.eqb c ")")));
                     re.lit ")"; re.star re.ws]);
     re.opt (re.seq [re.lit ","; re.star re.ws; re.lit_i "hereinafter";
                     re.plus re.ws;
                     re.Alt (re.lit_i "called")
                       (re.seq [re.lit_i "referred"; re.plus re.ws;
                                re.lit_i "to"; re.plus re.ws; re.lit_i "as"]);
                     re.star re.ws; QUOTE; re.star re.ws;
                     re.plus NOT_QUOTE; re.star re.ws; QUOTE; re.star re.ws;
                     re.opt (re.lit ","); re.star re.ws]);
     re.opt (re.seq [re.lit_i "shall"; re.plus re.ws]);
     re.lit_i "mean"; re.opt (re.lit_i "s")].

(** [_CELEX_REF_PATTERN], compiled with [re.VERBOSE | re.IGNORECASE]. *)
Definition _CELEX_REF_PATTERN : re.regex :=
  re.seq
    [re.opt
       (re.Alt
          (re.seq [re.lit_i "Commission"; re.plus re.ws])
          (re.seq [re.lit_i "European"; re.plus re.ws; re.lit_i "Parliament";
                   re.plus re.ws;
                   re.opt (re.seq [re.lit_i "and"; re.plus re.ws;
                                   re.opt (re.seq [re.lit_i "of"; re.plus re.ws;
                                                   re.lit_i "the"; re.plus re.ws]);
                                   re.lit_i "Council"; re.plus re.ws])]));
     re.alt [re.lit_i "Regulation"; re.lit_i "Directive"; re.lit_i "Decision"];
     re.star re.ws; re.lit "(";
     re.alt [re.lit_i "EC"; re.lit_i "EU"; re.lit_i "EEC"; re.lit_i "Euratom"];
     re.lit ")"; re.star re.ws;
     re.opt (re.seq [re.lit_i "No"; re.plus re.ws]);
     re.Grp 1 (re.Rep 1 (Some 4) re.digit); re.lit "/";
     re.Grp 2 (re.Rep 4 (Some 4) re.digit)].

Definition _normalize_term (raw : string) : string :=
  let term := py.strip raw in
  let term := py.collapse_spaces false term in
  py.rstrip_chars ",;." term.

(** The snippet after a match: up to 200 characters, cut at the first
    semicolon when that semicolon lies beyond position 50. *)
Definition snippet_after (text : string) (start : nat) : string :=
  let snippet_end := Nat.min (start + 200) (py.len text) in
  let snippet := py.strip (py.slice start snippet_end text) in
  match py.find_char ";" snippet with
  | Some sentence_end =>
      if 50 <? sentence_end then py.slice 0 sentence_end snippet else snippet
  | None => snippet
  end.

(** One iteration of [for match in _TERM_PATTERN.finditer(text)], on the
    pair of [terms] and [seen_terms]. *)
Definition term_step (article : Article.t) (category : string)
    (acc : list DefinedTerm.t * gset string) (m : re.Match)
  : list DefinedTerm.t * gset string :=
  let '(terms, seen_terms) := acc in
  let term := _normalize_term (re.group m 1) in
  if negb (py.truthy term) || (py.len term <? 2) then acc
  else
    let term_lower := py.lower term in
    if bool_decide (term_lower ∈ seen_terms) then acc
    else
      (terms ++ [DefinedTerm.mk term (Article.celex_id article)
                   (Article.article_number article)
                   (snippet_after (Article.text article) (re.end_ m)) category],
       seen_terms ∪ {[term_lower]}).

Definition extract_defined_terms (article : Article.t) : list DefinedTerm.t :=
  let text := Article.text article in
  if negb (py.truthy text) then []
  else
    let category := corpus.category_of (Article.celex_id article) in
    fst (fold_left (term_step article category)
           (re.finditer _TERM_PATTERN text) ([], ∅)).

Definition SLASH : string := "/".

Definition ref_step (article : Article.t)
    (acc : list CrossReference.t * gset string) (m : re.Match)
  : list CrossReference.t * gset string :=
  let '(refs, seen) := acc in
  let text := Article.text article in
  let reg_number := re.group m 1 +:+ SLASH +:+ re.group m 2 in
  if bool_decide (reg_number ∈ seen) then acc
  else
    let start := re.start_ m - 30 in
    let end_ := Nat.min (py.len text) (re.end_ m + 50) in
    (refs ++ [CrossReference.mk (Article.celex_id article)
                (Article.article_number article) reg_number
                (py.slice start end_ text)],
     seen ∪ {[reg_number]}).

Definition extract_cross_references (article : Article.t) : list CrossReference.t :=
  let text := Article.text article in
  if negb (py.truthy text) then []
  else fst (fold_left (ref_step article)
              (re.finditer _CELEX_REF_PATTERN text) ([], ∅)).

(** Is the article scanned for defined terms? *)
Definition is_definitions (article : Article.t) : bool :=
  let title_lower := py.lower (Article.title article) in
  py.contains "definition" title_lower || py.contains "scope" title_lower.

Definition extract_article (index : EntityIndex.t) (article : Article.t)
  : EntityIndex.t :=
  let defined_terms :=
    if is_definitions article
    then EntityIndex.defined_terms index ++ extract_defined_terms article
    else EntityIndex.defined_terms index in
  EntityIndex.mk defined_terms
    (EntityIndex.cross_references index ++ extract_cross_references article).

Definition extract_entities (regulations : list ParsedRegulation.t)
  : EntityIndex.t :=
  fold_left
    (fun index reg => fold_left extract_article (ParsedRegulation.articles reg) index)
    regulations (EntityIndex.mk [] []).

(** ** Examples: the articles of the repository's extractor tests *)

Definition APOS : string := "'".

Definition definitions_article_single_quotes : Article.t :=
  Article.mk "32008R1333" 3 "Definitions"
    ("For the purposes of this Regulation the following definitions shall also apply:"
     +:+ py.NL +:+ "(a)" +:+ py.NL
     +:+ "'food additive' shall mean any substance not normally consumed as a food;"
     +:+ py.NL +:+ "(b)" +:+ py.NL
     +:+ "'processing aid' shall mean any substance which is not consumed as a food;"
     +:+ py.NL +:+ "(c)" +:+ py.NL
     +:+ "'quantum satis' shall mean that no maximum numerical level is specified.")
    "CHAPTER I" "".

Example extract_single_quote_terms :
  map (fun dt => (DefinedTerm.term dt, DefinedTerm.category dt))
    (extract_defined_terms definitions_article_single_quotes)
  = [("food additive", "food_additives"); ("processing aid", "food_additives");
     ("quantum satis", "food_additives")].
Proof. vm_compute. reflexivity. Qed.

(** [test_no_duplicate_terms] *)
Example no_duplicate_terms :
  map DefinedTerm.term
    (extract_defined_terms
       (Article.mk "32099R0001" 1 "Definitions"
          "'food' means substance. Also, 'Food' means edible matter." "" ""))
  = ["food"].
Proof. vm_compute. reflexivity. Qed.

(** [test_no_duplicate_cross_refs] and a prefixed mention *)
Example cross_references_once :
  map CrossReference.target_regulation_number
    (extract_cross_references
       (Article.mk "32099R0001" 1 "Scope"
          "See Regulation (EC) No 178/2002. Also see Commission Regulation (EU) 2015/2283 and Regulation (EC) No 178/2002 again."
          "" ""))
  = ["178/2002"; "2015/2283"].
Proof. vm_compute. reflexivity. Qed.

(** ** First occurrence wins, within one article *)




















(** Outside the amended C4: [_normalize_term] strips whitespace before it
    strips the punctuation, so a term quoted with a blank before its closing
    punctuation keeps a trailing blank, differs from the plain term under
    [term.lower()] and is returned beside it with the same [term_lower]. *)
Lemma extract_defined_terms_trailing_blank :
  map (fun dt => (DefinedTerm.term dt, DefinedTerm.term_lower dt))
    (extract_defined_terms
       (Article.mk "32099R0001" 2 "Definitions"
          "'food additive' means x; 'food additive ;' means y" "" ""))
  = [("food additive", "food additive"); ("food additive ", "food additive")].
Proof. vm_compute. reflexivity. Qed.

(** The curly quotes U+2018 and U+2019, at their positions in the
    alphabet. *)
Definition LSQUO : string := String "145" EmptyString.
Definition RSQUO : string := String "146" EmptyString.

Example extract_curly_quote_terms :
  map DefinedTerm.term
    (extract_defined_terms
       (Article.mk "32015R2283" 3 "Definitions"
          (LSQUO +:+ "novel food" +:+ RSQUO +:+ " means any food that was not used;")
          "" ""))
  = ["novel food"].
Proof. vm_compute. reflexivity. Qed.

(** ** Cross-references: one per target, from the article scanned *)

Lemma ref_fold article ms : forall refs seen,
  NoDup (map CrossReference.target_regulation_number refs) ->
  (forall r, r ∈ refs -> CrossReference.target_regulation_number r ∈ seen) ->
  Forall (fun r => CrossReference.source_celex r = Article.celex_id article
                   /\ CrossReference.source_article r
                      = Article.article_number article) refs ->
  NoDup (map CrossReference.target_regulation_number
           (fst (fold_left (ref_step article) ms (refs, seen))))
  /\ Forall (fun r => CrossReference.source_celex r = Article.celex_id article
                      /\ CrossReference.source_article r
                         = Article.article_number article)
       (fst (fold_left (ref_step article) ms (refs, seen))).
Proof.
  induction ms as [|m ms IH]; intros refs seen Hnd Hseen Hfrom; [now split|].
  cbn [fold_left]. unfold ref_step at 2 4.
  case_bool_decide as Hin; [now apply IH|].
  apply IH.
  - rewrite map_app. apply NoDup_app. split; [exact Hnd|].
    split; [|apply NoDup_singleton].
    intros x (r & -> & Hr)%list_elem_of_fmap Heq%list_elem_of_singleton.
    apply Hin. simpl in Heq. rewrite <- Heq. now apply Hseen.
  - intros r [Hr | ->%list_elem_of_singleton]%elem_of_app.
    + apply elem_of_union_l. now apply Hseen.
    + apply elem_of_union_r. now apply elem_of_singleton.
  - apply Forall_app. split; [exact Hfrom | now repeat constructor].
Qed.

Lemma extract_articles_refs articles : forall index,
  EntityIndex.cross_references (fold_left extract_article articles index)
  = EntityIndex.cross_references index
    ++ flat_map extract_cross_references articles.
Proof.
  induction articles as [|a articles IH]; intros index; simpl.
  - now rewrite app_nil_r.
  - rewrite IH. unfold extract_article. simpl. now rewrite <- app_assoc.
Qed.

Lemma extract_entities_refs regulations : forall index,
  EntityIndex.cross_references
    (fold_left (fun index reg =>
                  fold_left extract_article (ParsedRegulation.articles reg) index)
       regulations index)
  = EntityIndex.cross_references index
    ++ flat_map extract_cross_references
         (flat_map ParsedRegulation.articles regulations).
Proof.
  induction regulations as [|reg regulations IH]; intros index; simpl.
  - now rewrite app_nil_r.
  - rewrite IH, extract_articles_refs, flat_map_app. now rewrite <- app_assoc.
Qed.

(** X11. [extract_cross_references] returns at most one reference per target
    regulation number, each naming the article scanned as its source; and the
    index of [extract_entities] holds the references of every article of
    every regulation, in corpus order, whatever the article's title. *)
Theorem extract_cross_references_once_per_target :
  (forall article : Article.t,
      NoDup (map CrossReference.target_regulation_number
               (extract_cross_references article))
      /\ Forall (fun r => CrossReference.source_celex r = Article.celex_id article
                          /\ CrossReference.source_article r
                             = Article.article_number article)
           (extract_cross_references article))
  /\ (forall regulations : list ParsedRegulation.t,
        EntityIndex.cross_references (extract_entities regulations)
        = flat_map extract_cross_references
            (flat_map ParsedRegulation.articles regulations)).
Proof.
  split.
  - intros article. unfold extract_cross_references.
    destruct (negb _); [split; constructor|].
    apply ref_fold; [constructor | | constructor].
    intros r Hr. now apply elem_of_nil in Hr.
  - intros regulations. unfold extract_entities.
    now rewrite extract_entities_refs.
Qed.

(** ** What a defined term records *)

Lemma substring_len n m s : py.len (String.substring n m s) <= m.
Proof.
  revert n m. induction s as [|c s IH]; intros [|n] [|m]; simpl; try lia.
  - specialize (IH 0 m). lia.
  - apply IH.
  - apply IH.
Qed.

Lemma substring_len_le n m s : py.len (String.substring n m s) <= py.len s.
Proof.
  revert n m. induction s as [|c s IH]; intros [|n] [|m]; simpl; try lia.
  - specialize (IH 0 m). lia.
  - specialize (IH n 0). lia.
  - specialize (IH n (S m)). lia.
Qed.

Lemma snippet_after_len text start : py.len (snippet_after text start) <= 200.
Proof.
  unfold snippet_after.
  set (snippet := py.strip _).
  assert (Hs : py.len snippet <= 200).
  { subst snippet. etransitivity; [apply py.strip_len|].
    unfold py.slice. etransitivity; [apply substring_len | lia]. }
  destruct (py.find_char ";" snippet) as [e|]; [|exact Hs].
  destruct (50 <? e); [|exact Hs].
  unfold py.slice. etransitivity; [apply substring_len_le | exact Hs].
Qed.

(** What every term found in [article] satisfies. *)
Definition recorded_from (article : Article.t) (dt : DefinedTerm.t) : Prop :=
  2 <= py.len (DefinedTerm.term dt)
  /\ DefinedTerm.celex_id dt = Article.celex_id article
  /\ DefinedTerm.article_number dt = Article.article_number article
  /\ DefinedTerm.category dt = corpus.category_of (Article.celex_id article)
  /\ py.len (DefinedTerm.definition_snippet dt) <= 200.

Lemma term_fold_recorded article ms : forall terms seen,
  Forall (recorded_from article) terms ->
  Forall (recorded_from article)
    (fst (fold_left (term_step article (corpus.category_of (Article.celex_id article)))
            ms (terms, seen))).
Proof.
  induction ms as [|m ms IH]; intros terms seen Hall; [exact Hall|].
  cbn [fold_left]. unfold term_step at 2.
  destruct (negb _ || _) eqn:Hshort; [now apply IH|].
  case_bool_decide; [now apply IH|].
  apply IH, Forall_app. split; [exact Hall|]. constructor; [|constructor].
  apply orb_false_iff in Hshort as [_ Hlen%Nat.ltb_ge].
  repeat split; simpl; try reflexivity; [exact Hlen | apply snippet_after_len].
Qed.

(** X12. Every defined term [extract_defined_terms] returns has a term of at
    least two characters, names the document and the article it was found
    in, carries the category the corpus catalog gives that document (empty
    for a document the catalog does not list), and has a definition snippet
    of at most 200 characters. *)
Theorem extract_defined_terms_records (article : Article.t) :
  Forall (recorded_from article) (extract_defined_terms article).
Proof.
  unfold extract_defined_terms. destruct (negb _); [constructor|].
  apply term_fold_recorded. constructor.
Qed.

(** ** No quotation mark, no defined term *)

Fixpoint no_quote (s : string) : bool :=
  match s with
  | EmptyString => true
  | String c s' => negb (is_quote c) && no_quote s'
  end.

Lemma term_pattern_needs_quote cur :
  no_quote (re.rest cur) = true -> re.run _TERM_PATTERN Some cur = None.
Proof.
  intros H. unfold _TERM_PATTERN.
  change (re.seq (QUOTE :: ?r :: ?rs)) with (re.Seq QUOTE (re.seq (r :: rs))).
  unfold QUOTE at 1. cbn [re.run].
  destruct (re.rest cur) as [|c s']; [reflexivity|]. simpl in H.
  now destruct (is_quote c).
Qed.

Lemma scan_no_quote subject fuel : forall cur,
  no_quote (re.rest cur) = true -> re.scan _TERM_PATTERN subject fuel cur = [].
Proof.
  induction fuel as [|fuel IH]; intros cur H; [reflexivity|]. cbn [re.scan].
  rewrite (term_pattern_needs_quote cur H). unfold re.advance.
  destruct (re.rest cur) as [|c s'] eqn:Hr; [reflexivity|].
  apply IH. simpl in *. now apply andb_prop in H as [_ H].
Qed.

(** X13. A text without any of the eight quotation marks the pattern knows
    defines no term. *)
Theorem extract_defined_terms_needs_quote (article : Article.t) :
  no_quote (Article.text article) = true ->
  extract_defined_terms article = [].
Proof.
  intros H. unfold extract_defined_terms. destruct (negb _); [reflexivity|].
  unfold re.finditer. now rewrite scan_no_quote.
Qed.

Lemma extract_defined_terms_needs_quote_witness :
  extract_defined_terms
    (Article.mk "32002R0178" 2 "Definitions"
       "For the purposes of this Regulation, food means any substance." "" "")
  = [].
Proof. apply extract_defined_terms_needs_quote. reflexivity. Defined.

End entity_extractor.

(* ===================================================================== *)
(** * The routing table ([src/retrieval/routing.py])                      *)
(* ===================================================================== *)

Module RoutingResult.
Record t := mk {
  celex_ids : list string;
  reasons : gmap string (list string)
}.

Definition add (result : t) (celex_id reason : string) : t :=
  let result :=
    match reasons result !! celex_id with
    | None => mk (celex_ids result ++ [celex_id])
                 (<[celex_id := []]> (reasons result))
    | Some _ => result
    end in
  let listed := default [] (reasons result !! celex_id) in
  if bool_decide (reason ∈ listed) then result
  else mk (celex_ids result) (<[celex_id := listed ++ [reason]]> (reasons result)).

(** [RoutingResult(celex_ids=[])] *)
Definition empty : t := mk [] ∅.
End RoutingResult.

Module routing.

Import RoutingResult.

Definition ALWAYS_INCLUDE : gset string := {["32002R0178"; "32011R1169"]}.

Definition CATEGORY_ROUTING : list (string * list string) :=
  [
   ("novel food", ["novel_food"]);
   ("food supplement", ["food_supplements"]);
   ("infant formula", ["food_specific_groups"]);
   ("food for special medical purposes", ["food_specific_groups"]);
   ("organic food", ["organic"]);
   ("food additive", ["food_additives"]);
   ("flavouring", ["flavourings"]);
   ("food enzyme", ["food_enzymes"]);
   ("gmo", ["gmo"]);
   ("vitamin", ["fortification"; "food_supplements"]);
   ("mineral", ["fortification"; "food_supplements"]);
   ("health claim", ["nutrition_health_claims"]);
   ("nutrition claim", ["nutrition_health_claims"]);
   ("food contact material", ["food_contact_materials"]);
   ("plastic packaging", ["food_contact_materials"]);
   ("allergen", ["labelling_fic"]);
   ("nutrition declaration", ["labelling_fic"]);
   ("origin labelling", ["labelling_fic"; "meat_origin"]);
   ("contaminant", ["contaminants"]);
   ("official control", ["official_controls"])
  ].

(** The double quote and the arrow (as its UTF-8 bytes) of the reasons. *)
Definition DQ : string := String "034" EmptyString.
Definition ARROW : string := String "226" (String "134" (String "146" EmptyString)).

Definition reason_always (celex : string) : string :=
  "always included (" +:+ corpus.title_of celex +:+ ")".
Definition reason_category (source_label term cat : string) : string :=
  source_label +:+ ": " +:+ DQ +:+ term +:+ DQ +:+ " " +:+ ARROW
  +:+ " category " +:+ cat.
Definition reason_defined (source_label term : string) : string :=
  source_label +:+ ": " +:+ DQ +:+ term +:+ DQ +:+ " defined in this regulation".
Definition reason_contained (source_label term defined_term : string) : string :=
  source_label +:+ ": " +:+ DQ +:+ term +:+ DQ +:+ " in " +:+ DQ
  +:+ defined_term +:+ DQ.

(** What [RoutingTable.__init__] builds. *)
Record RoutingTable := MkTable {
  _category_to_celex : gmap string (gset string);
  _term_to_celex : list (string * gset string)    (* in insertion order *)
}.

Definition RoutingTable_init (entity_index : option EntityIndex.t) : RoutingTable :=
  MkTable
    (fold_left
       (fun m '(celex_id, info) =>
          let cat := corpus.category info in
          <[cat := default ∅ (m !! cat) ∪ {[celex_id]}]> m)
       corpus.CORPUS ∅)
    (match entity_index with
     | Some index =>
         map (fun '(term, sources) =>
                (term, list_to_set (map DefinedTerm.celex_id sources)))
           (EntityIndex.term_to_sources index)
     | None => []
     end).

Section route.

(** The order in which the interpreter enumerates a set is not fixed by the
    language: any enumeration of the elements, each once. *)
Variable set_iter : gset string -> list string.
Hypothesis set_iter_perm : forall s, set_iter s ≡ₚ elements s.

Variable table : RoutingTable.

(** [for celex in celexes: result.add(celex, reason)] *)
Definition add_all (celexes : gset string) (reason : string) (result : t) : t :=
  fold_left (fun result celex => add result celex reason) (set_iter celexes) result.

(** The body of [for term, source_label in all_terms]. *)
Definition route_term (result : t) (ts : string * string) : t :=
  let '(term, source_label) := ts in
  let result :=
    match corpus.get term CATEGORY_ROUTING with
    | Some cats =>
        fold_left
          (fun result cat =>
             add_all (default ∅ (_category_to_celex table !! cat))
               (reason_category source_label term cat) result)
          cats result
    | None => result
    end in
  let result :=
    match corpus.get term (_term_to_celex table) with
    | Some celexes => add_all celexes (reason_defined source_label term) result
    | None => result
    end in
  if py.has_char " " term && (5 <? py.len term) then
    fold_left
      (fun result '(defined_term, celex_set) =>
         if py.contains term defined_term && negb (String.eqb term defined_term)
         then add_all celex_set (reason_contained source_label term defined_term)
                result
         else result)
      (_term_to_celex table) result
  else result.

Definition seed : t :=
  fold_left (fun result celex => add result celex (reason_always celex))
    (set_iter ALWAYS_INCLUDE) empty.

Definition labelled (label : string) (values : option (list string))
  : list (string * string) :=
  map (fun v => (py.strip (py.lower v), label)) (default [] values).

Definition all_terms (product_type : string) (ingredients claims : option (list string))
    (packaging : string) (keywords : option (list string)) : list (string * string) :=
  (if py.truthy product_type
   then [(py.strip (py.lower product_type), "product type")] else [])
  ++ labelled "ingredient" ingredients
  ++ labelled "claim" claims
  ++ (if py.truthy packaging
      then [(py.strip (py.lower packaging), "packaging")] else [])
  ++ labelled "keyword" keywords.

Definition route (product_type : string) (ingredients claims : option (list string))
    (packaging : string) (keywords : option (list string)) : t :=
  fold_left route_term
    (all_terms product_type ingredients claims packaging keywords) seed.

Definition route_by_category (category : string) : t :=
  add_all (default ∅ (_category_to_celex table !! category))
    ("category: " +:+ category) seed.

(** ** The calls of [add] a route makes, in order *)

Definition calls_of_set (celexes : gset string) (reason : string)
  : list (string * string) :=
  map (fun celex => (celex, reason)) (set_iter celexes).

Definition term_calls (ts : string * string) : list (string * string) :=
  let '(term, source_label) := ts in
  match corpus.get term CATEGORY_ROUTING with
  | Some cats =>
      flat_map (fun cat => calls_of_set (default ∅ (_category_to_celex table !! cat))
                             (reason_category source_label term cat)) cats
  | None => []
  end
  ++ match corpus.get term (_term_to_celex table) with
     | Some celexes => calls_of_set celexes (reason_defined source_label term)
     | None => []
     end
  ++ (if py.has_char " " term && (5 <? py.len term) then
        flat_map
          (fun '(defined_term, celex_set) =>
             if py.contains term defined_term && negb (String.eqb term defined_term)
             then calls_of_set celex_set
                    (reason_contained source_label term defined_term)
             else [])
          (_term_to_celex table)
      else []).

Definition seed_calls : list (string * string) :=
  map (fun celex => (celex, reason_always celex)) (set_iter ALWAYS_INCLUDE).

Definition route_calls (product_type : string)
    (ingredients claims : option (list string)) (packaging : string)
    (keywords : option (list string)) : list (string * string) :=
  seed_calls
  ++ flat_map term_calls
       (all_terms product_type ingredients claims packaging keywords).

End route.

(** [result.add(c, x)] for each call of a list, in order. *)
Definition apply_calls (calls : list (string * string)) (result : t) : t :=
  fold_left (fun result '(celex, reason) => add result celex reason) calls result.

(** The documents of a list of calls in first-seen order: each one kept where
    it first occurs. *)
Fixpoint firsts (l : list string) : list string :=
  match l with
  | [] => []
  | c :: l' => c :: filter (fun x => x <> c) (firsts l')
  end.

(** The listed documents are exactly the keys of [reasons]. *)
Definition wf (result : t) : Prop :=
  forall c, c ∈ celex_ids result <-> is_Some (reasons result !! c).

Lemma wf_empty : wf empty.
Proof.
  intros c. simpl. rewrite lookup_empty, elem_of_nil. split; [easy|].
  now intros [x Hx].
Qed.

Lemma add_ids result c x :
  wf result ->
  celex_ids (add result c x)
  = celex_ids result ++ (if decide (c ∈ celex_ids result) then [] else [c]).
Proof.
  intros Hwf. unfold add.
  destruct (reasons result !! c) as [listed|] eqn:Hc.
  - rewrite decide_True by (apply Hwf; rewrite Hc; eauto).
    rewrite app_nil_r. now destruct (bool_decide _).
  - rewrite decide_False by (rewrite (Hwf c), Hc; now intros [y Hy]).
    now destruct (bool_decide _).
Qed.

Lemma add_wf result c x : wf result -> wf (add result c x).
Proof.
  intros Hwf d. unfold add.
  destruct (reasons result !! c) as [listed|] eqn:Hc; simpl.
  - rewrite Hc. simpl. case_bool_decide; simpl; [apply Hwf|].
    rewrite (Hwf d). destruct (decide (c = d)) as [->|Hne].
    + rewrite lookup_insert_eq, Hc. split; eauto.
    + now rewrite lookup_insert_ne.
  - rewrite lookup_insert_eq. simpl.
    rewrite elem_of_app, list_elem_of_singleton, (Hwf d).
    destruct (decide (c = d)) as [->|Hne].
    + rewrite lookup_insert_eq. split; eauto.
    + rewrite !lookup_insert_ne by exact Hne.
      split; [intros [H|H]; [exact H | congruence] | eauto].
Qed.

Lemma filter_listed_drop (ids : list string) c (l : list string) :
  c ∈ ids ->
  filter (fun x => x ∉ ids) (filter (fun x => x <> c) l)
  = filter (fun x => x ∉ ids) l.
Proof.
  intros Hc. rewrite list_filter_filter. apply list_filter_iff.
  intros x. split; [tauto|]. intros Hx. split; [exact Hx | congruence].
Qed.

Lemma filter_listed_add (ids : list string) c (l : list string) :
  filter (fun x => x ∉ ids ++ [c]) l
  = filter (fun x => x ∉ ids) (filter (fun x => x <> c) l).
Proof.
  rewrite list_filter_filter. apply list_filter_iff.
  intros x. rewrite elem_of_app, list_elem_of_singleton. tauto.
Qed.

Lemma apply_calls_ids calls : forall result,
  wf result ->
  celex_ids (apply_calls calls result)
  = celex_ids result
    ++ filter (fun c => c ∉ celex_ids result) (firsts (map fst calls))
  /\ wf (apply_calls calls result).
Proof.
  induction calls as [|[c x] calls IH]; intros result Hwf.
  - simpl. now rewrite app_nil_r.
  - change (apply_calls ((c, x) :: calls) result)
      with (apply_calls calls (add result c x)).
    destruct (IH (add result c x) (add_wf result c x Hwf)) as [IHids IHwf].
    split; [|exact IHwf].
    rewrite IHids, (add_ids result c x Hwf). cbn [map fst firsts].
    destruct (decide (c ∈ celex_ids result)) as [Hin|Hout].
    + rewrite app_nil_r, filter_cons_False by tauto.
      now rewrite filter_listed_drop.
    + rewrite filter_cons_True by exact Hout.
      now rewrite <- app_assoc, filter_listed_add.
Qed.

Lemma filter_all_strings (l : list string) :
  filter (fun c => c ∉ @nil string) l = l.
Proof.
  induction l as [|x l IH]; [reflexivity|].
  rewrite filter_cons_True by apply not_elem_of_nil. now f_equal.
Qed.

Lemma firsts_NoDup l : NoDup (firsts l).
Proof.
  induction l as [|c l IH]; simpl; [constructor|].
  apply NoDup_cons. split.
  - intros [Hne _]%list_elem_of_filter. congruence.
  - eapply sublist_NoDup; [exact IH | apply sublist_filter].
Qed.

Lemma firsts_NoDup_id l : NoDup l -> firsts l = l.
Proof.
  induction 1 as [|c l Hc _ IH]; simpl; [reflexivity|].
  rewrite IH. f_equal. clear IH.
  induction l as [|d l IHl]; [reflexivity|].
  apply not_elem_of_cons in Hc as [Hne Hc].
  rewrite filter_cons_True by congruence. f_equal. now apply IHl.
Qed.

Lemma apply_calls_app calls1 calls2 result :
  apply_calls (calls1 ++ calls2) result
  = apply_calls calls2 (apply_calls calls1 result).
Proof. unfold apply_calls. apply fold_left_app. Qed.

Lemma fold_left_pointwise {A B} (f g : A -> B -> A) (l : list B) :
  (forall a b, f a b = g a b) -> forall a, fold_left f l a = fold_left g l a.
Proof.
  intros Hfg. induction l as [|b l IH]; intros a; simpl; [reflexivity|].
  now rewrite Hfg, IH.
Qed.

Lemma fold_apply_calls {A} (F : A -> list (string * string)) (l : list A) :
  forall result,
    fold_left (fun result a => apply_calls (F a) result) l result
    = apply_calls (flat_map F l) result.
Proof.
  induction l as [|a l IH]; intros result; simpl; [reflexivity|].
  now rewrite IH, apply_calls_app.
Qed.

Section route_calls.

Variable set_iter : gset string -> list string.
Variable table : RoutingTable.

Lemma add_all_calls celexes reason result :
  add_all set_iter celexes reason result
  = apply_calls (calls_of_set set_iter celexes reason) result.
Proof.
  unfold add_all, calls_of_set, apply_calls.
  generalize (set_iter celexes) as l. intros l. revert result.
  induction l as [|c l IH]; intros result; simpl; [reflexivity | apply IH].
Qed.

Lemma route_term_calls result ts :
  route_term set_iter table result ts
  = apply_calls (term_calls set_iter table ts) result.
Proof.
  destruct ts as [term source_label]. unfold route_term, term_calls.
  rewrite !apply_calls_app.
  set (by_category :=
         match corpus.get term CATEGORY_ROUTING with
         | Some cats => _
         | None => result
         end).
  assert (by_category = apply_calls
            match corpus.get term CATEGORY_ROUTING with
            | Some cats =>
                flat_map (fun cat =>
                            calls_of_set set_iter
                              (default ∅ (_category_to_celex table !! cat))
                              (reason_category source_label term cat)) cats
            | None => []
            end result) as <-.
  { subst by_category.
    destruct (corpus.get term CATEGORY_ROUTING) as [cats|]; [|reflexivity].
    rewrite <- fold_apply_calls. apply fold_left_pointwise. intros r cat.
    apply add_all_calls. }
  set (by_term :=
         match corpus.get term (_term_to_celex table) with
         | Some celexes => _
         | None => by_category
         end).
  assert (by_term = apply_calls
            match corpus.get term (_term_to_celex table) with
            | Some celexes =>
                calls_of_set set_iter celexes (reason_defined source_label term)
            | None => []
            end by_category) as <-.
  { subst by_term.
    destruct (corpus.get term (_term_to_celex table));
      [apply add_all_calls | reflexivity]. }
  destruct (_ && _); [|reflexivity].
  rewrite <- fold_apply_calls. apply fold_left_pointwise.
  intros r [defined_term celex_set].
  destruct (_ && _); [apply add_all_calls | reflexivity].
Qed.

Lemma seed_is_calls :
  seed set_iter = apply_calls (seed_calls set_iter) empty.
Proof.
  unfold seed, seed_calls, apply_calls.
  generalize (set_iter ALWAYS_INCLUDE) as l, empty as result.
  induction l as [|c l IH]; intros result; simpl; [reflexivity | apply IH].
Qed.

Lemma route_is_calls product_type ingredients claims packaging keywords :
  route set_iter table product_type ingredients claims packaging keywords
  = apply_calls
      (route_calls set_iter table product_type ingredients claims packaging keywords)
      empty.
Proof.
  unfold route, route_calls.
  rewrite apply_calls_app, <- fold_apply_calls, <- seed_is_calls.
  apply fold_left_pointwise. intros r ts. apply route_term_calls.
Qed.

End route_calls.

(** ** Examples *)

Example route_novel_food :
  celex_ids (route elements (RoutingTable_init None) "Novel Food " None None "" None)
  = ["32011R1169"; "32002R0178"; "32017R2470"; "32017R2469"; "32017R2468";
     "32015R2283"; "32018R0456"].
Proof. vm_compute. reflexivity. Qed.

Example route_reasons_accumulate :
  reasons (route elements (RoutingTable_init None) "" (Some ["vitamin"])
             (Some ["Vitamin"]) "" None) !! "32002L0046"
  = Some [reason_category "ingredient" "vitamin" "food_supplements";
          reason_category "claim" "vitamin" "food_supplements"].
Proof. vm_compute. reflexivity. Qed.

(** ** The property of the routing result *)

(** C3. For every input of [route], the document list of the result has no
    duplicates and lists the documents in the order in which [add] first saw
    them; with no attributes the result holds exactly the always-included
    documents, each with its one "always included" reason.  The enumeration
    order of the sets is arbitrary. *)
Theorem route_celex_ids_no_duplicates
    (set_iter : gset string -> list string) (table : RoutingTable) :
  (forall s, set_iter s ≡ₚ elements s) ->
  (forall product_type ingredients claims packaging keywords,
      NoDup (celex_ids (route set_iter table product_type ingredients claims
                          packaging keywords))
      /\ celex_ids (route set_iter table product_type ingredients claims
                      packaging keywords)
         = firsts (map fst (route_calls set_iter table product_type ingredients
                              claims packaging keywords)))
  /\ (forall ingredients claims keywords,
        default [] ingredients = [] -> default [] claims = [] ->
        default [] keywords = [] ->
        celex_ids (route set_iter table "" ingredients claims "" keywords)
          ≡ₚ elements ALWAYS_INCLUDE
        /\ reasons (route set_iter table "" ingredients claims "" keywords)
           = {[ "32002R0178" := [reason_always "32002R0178"];
                "32011R1169" := [reason_always "32011R1169"] ]}).
Proof.
  intros Hiter. split.
  - intros product_type ingredients claims packaging keywords.
    rewrite route_is_calls.
    destruct (apply_calls_ids
                (route_calls set_iter table product_type ingredients claims
                   packaging keywords) empty wf_empty) as [Hids _].
    simpl in Hids. rewrite filter_all_strings in Hids. rewrite Hids.
    split; [apply firsts_NoDup | reflexivity].
  - intros ingredients claims keywords Hi Hc Hk.
    assert (Hseed : route set_iter table "" ingredients claims "" keywords
                    = seed set_iter).
    { unfold route, all_terms, labelled. now rewrite Hi, Hc, Hk. }
    rewrite Hseed. unfold seed.
    pose proof (Hiter ALWAYS_INCLUDE) as Hperm.
    assert (Hel : elements ALWAYS_INCLUDE = ["32011R1169"; "32002R0178"])
      by (vm_compute; reflexivity).
    rewrite Hel in *. symmetry in Hperm.
    apply Permutation_length_2_inv in Hperm as [-> | ->].
    + split; [reflexivity | vm_compute; reflexivity].
    + split; [apply perm_swap | vm_compute; reflexivity].
Qed.

Lemma route_celex_ids_no_duplicates_witness :
  NoDup (celex_ids (route elements (RoutingTable_init None) "novel food"
                      (Some ["vitamin"; "Novel Food"]) None "" None)).
Proof.
  exact (proj1 (proj1 (route_celex_ids_no_duplicates elements
                         (RoutingTable_init None) (fun s => Permutation_refl _))
                  "novel food" (Some ["vitamin"; "Novel Food"]) None "" None)).
Defined.

(** ** The reasons of a result *)

(** The state [add] keeps: the listed documents are the keys of [reasons],
    and every reason list is non-empty and free of repetitions. *)
Definition sound (result : t) : Prop :=
  wf result
  /\ forall c l, reasons result !! c = Some l -> NoDup l /\ l <> [].

Lemma add_reasons result c x d :
  reasons (add result c x) !! d
  = if decide (d = c)
    then Some (let l := default [] (reasons result !! c) in
               if bool_decide (x ∈ l) then l else l ++ [x])
    else reasons result !! d.
Proof.
  unfold add. destruct (reasons result !! c) as [l|] eqn:Hc; simpl.
  - rewrite Hc. simpl. case_bool_decide; simpl.
    + destruct (decide (d = c)) as [->|]; [exact Hc | reflexivity].
    + destruct (decide (d = c)) as [->|Hne];
        [apply lookup_insert_eq | now apply lookup_insert_ne].
  - rewrite lookup_insert_eq. simpl.
    destruct (decide (d = c)) as [->|Hne]; [apply lookup_insert_eq|].
    rewrite !lookup_insert_ne by congruence. reflexivity.
Qed.

Lemma add_sound result c x : sound result -> sound (add result c x).
Proof.
  intros [Hwf Hl]. split; [now apply add_wf|].
  intros d l. rewrite add_reasons.
  destruct (decide (d = c)) as [->|Hne]; [|apply Hl].
  intros [= <-]. cbn zeta.
  destruct (reasons result !! c) as [l0|] eqn:Hc; simpl.
  - destruct (Hl c l0 Hc) as [Hnd Hne]. case_bool_decide; [easy|].
    split; [|now destruct l0].
    apply NoDup_app. split; [exact Hnd|]. split; [|apply NoDup_singleton].
    intros y Hy ->%list_elem_of_singleton. easy.
  - split; [apply NoDup_singleton | easy].
Qed.

Lemma apply_calls_sound calls : forall result,
  sound result -> sound (apply_calls calls result).
Proof.
  induction calls as [|[c x] calls IH]; intros result H; [exact H|].
  apply IH, add_sound, H.
Qed.

Lemma sound_empty : sound empty.
Proof.
  split; [apply wf_empty|]. intros c l. simpl. now rewrite lookup_empty.
Qed.

(** [x] is one of the reasons of [c]. *)
Definition has_reason (result : t) (c x : string) : Prop :=
  x ∈ default [] (reasons result !! c).

Lemma add_records result c x : has_reason (add result c x) c x.
Proof.
  unfold has_reason. rewrite add_reasons, decide_True by reflexivity. simpl.
  case_bool_decide; [assumption|].
  apply elem_of_app. right. apply list_elem_of_here.
Qed.

Lemma add_keeps result c' x' c x :
  has_reason result c x -> has_reason (add result c' x') c x.
Proof.
  unfold has_reason. rewrite add_reasons.
  destruct (decide (c = c')) as [->|]; [|easy]. simpl. intros H.
  case_bool_decide; [exact H|]. apply elem_of_app. now left.
Qed.

Lemma apply_calls_keeps calls c x : forall result,
  has_reason result c x -> has_reason (apply_calls calls result) c x.
Proof.
  induction calls as [|[c' x'] calls IH]; intros result H; [exact H|].
  apply IH, add_keeps, H.
Qed.

Lemma apply_calls_records calls c x : forall result,
  (c, x) ∈ calls -> has_reason (apply_calls calls result) c x.
Proof.
  induction calls as [|[c' x'] calls IH]; intros result Hin.
  - now apply elem_of_nil in Hin.
  - change (apply_calls ((c', x') :: calls) result)
      with (apply_calls calls (add result c' x')).
    apply elem_of_cons in Hin as [[= <- <-] | Hin].
    + apply apply_calls_keeps, add_records.
    + now apply IH.
Qed.

Lemma has_reason_listed result c x :
  wf result -> has_reason result c x -> c ∈ celex_ids result.
Proof.
  intros Hwf H. apply Hwf. unfold has_reason in H.
  destruct (reasons result !! c); [eauto|]. now apply elem_of_nil in H.
Qed.

(** [route_by_category] as its calls of [add]. *)
Lemma route_by_category_calls set_iter table category :
  route_by_category set_iter table category
  = apply_calls
      (seed_calls set_iter
       ++ calls_of_set set_iter (default ∅ (_category_to_celex table !! category))
            ("category: " +:+ category))
      empty.
Proof.
  unfold route_by_category.
  now rewrite add_all_calls, seed_is_calls, apply_calls_app.
Qed.

(** X14. In every result of [route] and of [route_by_category] the listed
    documents are exactly the keys of [reasons], and every document has at
    least one reason and no reason twice. *)
Theorem route_reasons_well_formed
    (set_iter : gset string -> list string) (table : RoutingTable) :
  (forall product_type ingredients claims packaging keywords,
      sound (route set_iter table product_type ingredients claims packaging
               keywords))
  /\ (forall category, sound (route_by_category set_iter table category)).
Proof.
  split.
  - intros. rewrite route_is_calls. apply apply_calls_sound, sound_empty.
  - intros. rewrite route_by_category_calls. apply apply_calls_sound, sound_empty.
Qed.

(** ** Which documents a route holds *)

Lemma calls_ids (calls : list (string * string)) :
  celex_ids (apply_calls calls empty) = firsts (map fst calls).
Proof.
  destruct (apply_calls_ids calls empty wf_empty) as [H _].
  simpl in H. now rewrite filter_all_strings in H.
Qed.

Lemma firsts_app l1 l2 :
  firsts (l1 ++ l2) = firsts l1 ++ filter (fun c => c ∉ firsts l1) (firsts l2).
Proof.
  set (calls := fun l : list string => map (fun c => (c, EmptyString)) l).
  assert (Hfst : forall l, map fst (calls l) = l).
  { intros l. unfold calls. rewrite map_map. apply map_id. }
  rewrite <- (Hfst (l1 ++ l2)), <- calls_ids.
  unfold calls at 1. rewrite map_app, apply_calls_app. fold (calls l1) (calls l2).
  destruct (apply_calls_ids (calls l1) empty wf_empty) as [_ Hwf1].
  destruct (apply_calls_ids (calls l2) _ Hwf1) as [-> _].
  now rewrite calls_ids, !Hfst.
Qed.

Lemma elem_of_firsts c l : c ∈ firsts l <-> c ∈ l.
Proof.
  induction l as [|d l IH]; simpl; [reflexivity|].
  rewrite !elem_of_cons, list_elem_of_filter, IH.
  destruct (decide (c = d)); tauto.
Qed.

Lemma seed_ids set_iter :
  (forall s, set_iter s ≡ₚ elements s) ->
  map fst (seed_calls set_iter) = set_iter ALWAYS_INCLUDE
  /\ NoDup (set_iter ALWAYS_INCLUDE).
Proof.
  intros Hperm. split.
  - unfold seed_calls. rewrite map_map. apply map_id.
  - rewrite (Hperm ALWAYS_INCLUDE). apply NoDup_elements.
Qed.

(** X15. Every result of [route] starts with the always-included documents,
    in the order the set is enumerated, each with its "always included"
    reason, whatever the attributes are. *)
Theorem route_starts_with_always_included
    (set_iter : gset string -> list string) (table : RoutingTable)
    (product_type : string) (ingredients claims : option (list string))
    (packaging : string) (keywords : option (list string)) :
  (forall s, set_iter s ≡ₚ elements s) ->
  (exists rest,
      celex_ids (route set_iter table product_type ingredients claims packaging
                   keywords)
      = set_iter ALWAYS_INCLUDE ++ rest)
  /\ (forall c, c ∈ ALWAYS_INCLUDE ->
        has_reason (route set_iter table product_type ingredients claims
                      packaging keywords) c (reason_always c)).
Proof.
  intros Hperm. rewrite route_is_calls. unfold route_calls. split.
  - rewrite calls_ids, map_app, firsts_app.
    destruct (seed_ids set_iter Hperm) as [-> Hnd].
    rewrite (firsts_NoDup_id _ Hnd). eauto.
  - intros c Hc. apply apply_calls_records, elem_of_app. left.
    unfold seed_calls. apply list_elem_of_fmap. exists c. split; [reflexivity|].
    rewrite (Hperm ALWAYS_INCLUDE). now apply elem_of_elements.
Qed.

Lemma route_starts_with_always_included_witness :
  exists rest,
    celex_ids (route elements (RoutingTable_init None) "novel food" None None ""
                 None)
    = elements ALWAYS_INCLUDE ++ rest.
Proof.
  exact (proj1 (route_starts_with_always_included elements (RoutingTable_init None)
                  "novel food" None None "" None (fun s => Permutation_refl _))).
Defined.

(** X16. [route_by_category] lists the always-included documents first and
    then the documents of the category that are not among them: each
    document once, and a document is listed exactly when it is always
    included or belongs to the category.  A category the table does not know
    adds nothing. *)
Theorem route_by_category_documents
    (set_iter : gset string -> list string) (table : RoutingTable)
    (category : string) :
  (forall s, set_iter s ≡ₚ elements s) ->
  celex_ids (route_by_category set_iter table category)
  = set_iter ALWAYS_INCLUDE
    ++ filter (fun c => c ∉ set_iter ALWAYS_INCLUDE)
         (set_iter (default ∅ (_category_to_celex table !! category)))
  /\ NoDup (celex_ids (route_by_category set_iter table category))
  /\ (forall c, c ∈ celex_ids (route_by_category set_iter table category)
                <-> c ∈ ALWAYS_INCLUDE
                    \/ c ∈ default ∅ (_category_to_celex table !! category))
  /\ (_category_to_celex table !! category = None ->
      celex_ids (route_by_category set_iter table category)
      = set_iter ALWAYS_INCLUDE).
Proof.
  intros Hperm. rewrite route_by_category_calls, calls_ids.
  destruct (seed_ids set_iter Hperm) as [Hseed Hnd].
  set (S := default ∅ (_category_to_celex table !! category)).
  assert (Hset : map fst (calls_of_set set_iter S ("category: " +:+ category))
                 = set_iter S).
  { unfold calls_of_set. rewrite map_map. apply map_id. }
  assert (HndS : NoDup (set_iter S)).
  { rewrite (Hperm S). apply NoDup_elements. }
  assert (Hids : firsts (map fst (seed_calls set_iter
                                    ++ calls_of_set set_iter S
                                         ("category: " +:+ category)))
                 = set_iter ALWAYS_INCLUDE
                   ++ filter (fun c => c ∉ set_iter ALWAYS_INCLUDE) (set_iter S)).
  { rewrite map_app, firsts_app, Hseed, Hset.
    now rewrite !firsts_NoDup_id by assumption. }
  split; [exact Hids|]. split; [apply firsts_NoDup|]. split.
  - intros c. rewrite Hids, elem_of_app, list_elem_of_filter.
    rewrite (Hperm ALWAYS_INCLUDE), (Hperm S), !elem_of_elements.
    destruct (decide (c ∈ ALWAYS_INCLUDE)); tauto.
  - intros Hnone. rewrite Hids. subst S. rewrite Hnone. simpl.
    assert (set_iter ∅ = []) as ->.
    { apply Permutation_nil_r. rewrite (Hperm ∅). now rewrite elements_empty. }
    rewrite filter_nil. apply app_nil_r.
Qed.

Lemma route_by_category_documents_witness :
  NoDup (celex_ids (route_by_category elements (RoutingTable_init None) "gmo")).
Proof.
  exact (proj1 (proj2 (route_by_category_documents elements (RoutingTable_init None)
                         "gmo" (fun s => Permutation_refl _)))).
Defined.

(** ** Which attributes bring which documents *)

Lemma in_route_calls set_iter table product_type ingredients claims packaging
    keywords ts call :
  ts ∈ all_terms product_type ingredients claims packaging keywords ->
  call ∈ term_calls set_iter table ts ->
  call ∈ route_calls set_iter table product_type ingredients claims packaging
           keywords.
Proof.
  intros Hts Hcall. unfold route_calls. apply elem_of_app. right.
  apply list_elem_of_In, in_flat_map. exists ts.
  split; now apply list_elem_of_In.
Qed.

Lemma in_calls_of_set set_iter celexes reason c :
  (forall s, set_iter s ≡ₚ elements s) ->
  c ∈ celexes -> (c, reason) ∈ calls_of_set set_iter celexes reason.
Proof.
  intros Hperm Hc. unfold calls_of_set. apply list_elem_of_fmap.
  exists c. split; [reflexivity|]. rewrite (Hperm celexes).
  now apply elem_of_elements.
Qed.

Lemma routed set_iter table product_type ingredients claims packaging keywords c x :
  (c, x) ∈ route_calls set_iter table product_type ingredients claims packaging
             keywords ->
  c ∈ celex_ids (route set_iter table product_type ingredients claims packaging
                   keywords)
  /\ has_reason (route set_iter table product_type ingredients claims packaging
                   keywords) c x.
Proof.
  intros Hin. rewrite route_is_calls.
  pose proof (apply_calls_records _ c x empty Hin) as Hr.
  split; [|exact Hr]. eapply has_reason_listed; [|exact Hr].
  apply apply_calls_ids, wf_empty.
Qed.

Lemma get_map_values {V W} (g : V -> W) (d : list (string * V)) k :
  corpus.get k (map (fun '(t, v) => (t, g v)) d) = g <$> corpus.get k d.
Proof.
  induction d as [|[t v] d IH]; simpl; [reflexivity|].
  destruct (String.eqb t k); [reflexivity | exact IH].
Qed.

(** The set the table of an index holds for the normalized term of one of its
    defined terms. *)
Lemma term_table_has index dt :
  dt ∈ EntityIndex.defined_terms index ->
  exists celexes,
    corpus.get (DefinedTerm.term_lower dt)
      (_term_to_celex (RoutingTable_init (Some index))) = Some celexes
    /\ DefinedTerm.celex_id dt ∈ celexes.
Proof.
  intros Hdt. cbn [RoutingTable_init _term_to_celex].
  rewrite get_map_values. unfold EntityIndex.term_to_sources.
  destruct (EntityIndex.grouped_fold DefinedTerm.term_lower
              (EntityIndex.defined_terms index) [] []) as [_ Hget];
    [constructor | reflexivity|].
  rewrite Hget. change ([] ++ ?l) with l.
  assert (In dt (EntityIndex.with_key DefinedTerm.term_lower
                   (DefinedTerm.term_lower dt) (EntityIndex.defined_terms index)))
    as Hin.
  { apply List.filter_In. split; [now apply list_elem_of_In|].
    apply String.eqb_refl. }
  destruct (EntityIndex.with_key _ _ _) as [|x l] eqn:Hl; [easy|].
  exists (list_to_set (map DefinedTerm.celex_id (x :: l))). split; [reflexivity|].
  apply elem_of_list_to_set, list_elem_of_fmap.
  exists dt. split; [reflexivity | now apply list_elem_of_In].
Qed.

(** X17. When an attribute value, lower-cased and stripped, is the normalized
    term of a defined term of the entity index, the route lists the document
    that defines the term, with the reason "defined in this regulation" for
    that attribute. *)
Theorem route_includes_defining_documents
    (set_iter : gset string -> list string) (index : EntityIndex.t)
    (product_type : string) (ingredients claims : option (list string))
    (packaging : string) (keywords : option (list string))
    (term source_label : string) (dt : DefinedTerm.t) :
  (forall s, set_iter s ≡ₚ elements s) ->
  (term, source_label)
    ∈ all_terms product_type ingredients claims packaging keywords ->
  dt ∈ EntityIndex.defined_terms index ->
  DefinedTerm.term_lower dt = term ->
  DefinedTerm.celex_id dt
    ∈ celex_ids (route set_iter (RoutingTable_init (Some index)) product_type
                   ingredients claims packaging keywords)
  /\ has_reason (route set_iter (RoutingTable_init (Some index)) product_type
                   ingredients claims packaging keywords)
       (DefinedTerm.celex_id dt) (reason_defined source_label term).
Proof.
  intros Hperm Hts Hdt <-. apply routed.
  eapply in_route_calls; [exact Hts|]. unfold term_calls.
  destruct (term_table_has index dt Hdt) as (celexes & -> & Hc).
  apply elem_of_app. right. apply elem_of_app. left.
  now apply in_calls_of_set.
Qed.

Definition additive_index : EntityIndex.t :=
  EntityIndex.mk
    [DefinedTerm.mk "Food additive" "32008R1333" 3 "any substance" "food_additives"]
    [].

Lemma route_includes_defining_documents_witness :
  "32008R1333"
    ∈ celex_ids (route elements (RoutingTable_init (Some additive_index)) ""
                   (Some [" food ADDITIVE"]) None "" None).
Proof.
  apply (route_includes_defining_documents elements additive_index ""
           (Some [" food ADDITIVE"]) None "" None "food additive" "ingredient"
           (DefinedTerm.mk "Food additive" "32008R1333" 3 "any substance"
              "food_additives")).
  - intros s. reflexivity.
  - apply list_elem_of_here.
  - apply list_elem_of_here.
  - reflexivity.
Defined.

Lemma category_fold_keeps (catalog : list (string * corpus.info)) celex cat :
  forall m : gmap string (gset string),
    celex ∈ default ∅ (m !! cat) ->
    celex ∈ default ∅
              (fold_left
                 (fun m '(celex_id, info) =>
                    let cat := corpus.category info in
                    <[cat := default ∅ (m !! cat) ∪ {[celex_id]}]> m)
                 catalog m !! cat).
Proof.
  induction catalog as [|[c i] catalog IH]; intros m H; [exact H|].
  cbn [fold_left]. apply IH.
  destruct (decide (corpus.category i = cat)) as [->|Hne].
  - rewrite lookup_insert_eq. simpl. now apply elem_of_union_l.
  - now rewrite lookup_insert_ne.
Qed.

Lemma category_fold_has (catalog : list (string * corpus.info)) celex info :
  forall m : gmap string (gset string),
    (celex, info) ∈ catalog ->
    celex ∈ default ∅
              (fold_left
                 (fun m '(celex_id, info) =>
                    let cat := corpus.category info in
                    <[cat := default ∅ (m !! cat) ∪ {[celex_id]}]> m)
                 catalog m !! corpus.category info).
Proof.
  induction catalog as [|[c i] catalog IH]; intros m Hin.
  - now apply elem_of_nil in Hin.
  - cbn [fold_left]. apply elem_of_cons in Hin as [[= <- <-] | Hin].
    + apply category_fold_keeps. rewrite lookup_insert_eq. simpl.
      apply elem_of_union_r. now apply elem_of_singleton.
    + now apply IH.
Qed.

(** X18. When an attribute value, lower-cased and stripped, is a key of
    [CATEGORY_ROUTING], the route lists every document the corpus catalog
    files under one of the key's categories, with the reason naming the
    attribute, the key and the category; the entity index plays no part. *)
Theorem route_includes_category_documents
    (set_iter : gset string -> list string) (entity_index : option EntityIndex.t)
    (product_type : string) (ingredients claims : option (list string))
    (packaging : string) (keywords : option (list string))
    (term source_label : string) (cats : list string) (celex : string)
    (info : corpus.info) :
  (forall s, set_iter s ≡ₚ elements s) ->
  (term, source_label)
    ∈ all_terms product_type ingredients claims packaging keywords ->
  corpus.get term CATEGORY_ROUTING = Some cats ->
  corpus.category info ∈ cats ->
  (celex, info) ∈ corpus.CORPUS ->
  celex ∈ celex_ids (route set_iter (RoutingTable_init entity_index) product_type
                       ingredients claims packaging keywords)
  /\ has_reason (route set_iter (RoutingTable_init entity_index) product_type
                   ingredients claims packaging keywords)
       celex (reason_category source_label term (corpus.category info)).
Proof.
  intros Hperm Hts Hcats Hcat Hin. apply routed.
  eapply in_route_calls; [exact Hts|]. unfold term_calls. rewrite Hcats.
  apply elem_of_app. left. apply list_elem_of_In, in_flat_map.
  exists (corpus.category info). split; [now apply list_elem_of_In|].
  apply list_elem_of_In, in_calls_of_set; [exact Hperm|].
  cbn [RoutingTable_init _category_to_celex]. now apply category_fold_has.
Qed.

Lemma route_includes_category_documents_witness :
  "32002L0046"
    ∈ celex_ids (route elements (RoutingTable_init None) "" None (Some ["Vitamin "])
                   "" None).
Proof.
  apply (route_includes_category_documents elements None "" None (Some ["Vitamin "])
           "" None "vitamin" "claim" ["fortification"; "food_supplements"]
           "32002L0046"
           (corpus.Info "food_supplements" "Food Supplements Directive")).
  - intros s. reflexivity.
  - apply list_elem_of_here.
  - reflexivity.
  - apply list_elem_of_further, list_elem_of_here.
  - apply list_elem_of_In. vm_compute. tauto.
Defined.

(** ** Attribute values the table does not know *)

(** A term that is no key of [CATEGORY_ROUTING] and occurs in no defined
    term of the table. *)
Definition unknown_term (table : RoutingTable) (term : string) : Prop :=
  corpus.get term CATEGORY_ROUTING = None
  /\ Forall (fun entry => py.contains term (fst entry) = false)
       (_term_to_celex table).

Lemma get_none {V} (d : list (string * V)) k :
  Forall (fun entry => String.eqb (fst entry) k = false) d -> corpus.get k d = None.
Proof.
  induction 1 as [|[t v] d Ht _ IH]; simpl in *; [reflexivity|]. now rewrite Ht.
Qed.

Lemma route_term_unknown set_iter table result term source_label :
  unknown_term table term ->
  route_term set_iter table result (term, source_label) = result.
Proof.
  intros [Hcat Hterms]. unfold route_term. rewrite Hcat.
  rewrite get_none.
  2:{ eapply List.Forall_impl; [|exact Hterms]. intros [t v] Hc. simpl in *.
      destruct (String.eqb_spec t term) as [->|]; [|reflexivity].
      now rewrite py.contains_refl in Hc. }
  destruct (_ && _); [|reflexivity].
  induction Hterms as [|[t v] d Ht _ IH]; [reflexivity|].
  cbn [fold_left]. simpl in Ht. rewrite Ht. exact IH.
Qed.

(** X19. Attribute values that, lower-cased and stripped, are no key of
    [CATEGORY_ROUTING] and occur in no defined term of the table add no
    document and no reason: the route is the one of the always-included
    documents alone. *)
Theorem route_unknown_terms_add_nothing
    (set_iter : gset string -> list string) (table : RoutingTable)
    (product_type : string) (ingredients claims : option (list string))
    (packaging : string) (keywords : option (list string)) :
  Forall (fun ts => unknown_term table (fst ts))
    (all_terms product_type ingredients claims packaging keywords) ->
  route set_iter table product_type ingredients claims packaging keywords
  = seed set_iter.
Proof.
  unfold route.
  generalize (all_terms product_type ingredients claims packaging keywords) as terms.
  generalize (seed set_iter) as result.
  intros result terms Hall. revert result.
  induction Hall as [|[term label] terms Hts _ IH]; intros result; [reflexivity|].
  cbn [fold_left]. rewrite route_term_unknown by exact Hts. apply IH.
Qed.

Lemma route_unknown_terms_add_nothing_witness :
  route elements (RoutingTable_init (Some additive_index)) "Chewing gum"
    (Some ["xylitol"]) None "" None
  = seed elements.
Proof.
  apply route_unknown_terms_add_nothing.
  repeat constructor.
Defined.

(** ** Case and surrounding blanks of the attributes *)

(** X20. [route] reads its attribute values in lower case and stripped: giving
    it the values already lower-cased and stripped changes nothing.  (For
    [product_type] and [packaging] the value must not consist of blanks
    only: such a value is routed as an empty term, an empty one is not
    routed.) *)
Theorem route_ignores_case_and_blanks
    (set_iter : gset string -> list string) (table : RoutingTable)
    (product_type : string) (ingredients claims : option (list string))
    (packaging : string) (keywords : option (list string)) :
  py.truthy (py.strip (py.lower product_type)) = py.truthy product_type ->
  py.truthy (py.strip (py.lower packaging)) = py.truthy packaging ->
  route set_iter table (py.strip (py.lower product_type))
    (map (fun v => py.strip (py.lower v)) <$> ingredients)
    (map (fun v => py.strip (py.lower v)) <$> claims)
    (py.strip (py.lower packaging))
    (map (fun v => py.strip (py.lower v)) <$> keywords)
  = route set_iter table product_type ingredients claims packaging keywords.
Proof.
  intros Hpt Hpk. unfold route. f_equal. unfold all_terms.
  assert (Hl : forall label values,
             labelled label (map (fun v => py.strip (py.lower v)) <$> values)
             = labelled label values).
  { intros label [values|]; [|reflexivity]. unfold labelled. simpl.
    rewrite map_map. apply map_ext. intros v. now rewrite py.lower_strip_idem. }
  now rewrite !Hl, Hpt, Hpk, !py.lower_strip_idem.
Qed.

Lemma route_ignores_case_and_blanks_witness :
  route elements (RoutingTable_init None) "novel food" (Some ["vitamin"]) None ""
    None
  = route elements (RoutingTable_init None) " Novel Food" (Some ["Vitamin "]) None
      "" None.
Proof.
  apply (route_ignores_case_and_blanks elements (RoutingTable_init None)
           " Novel Food" (Some ["Vitamin "]) None "" None); reflexivity.
Defined.

End routing.

(* ===================================================================== *)
(** * The similarity index ([src/indexing/vector_store.py])               *)
(* ===================================================================== *)

Module vector_store.

(** A value of a metadata dict: the chunk metadata holds strings and
    integers. *)
Inductive json :=
| JStr (s : string)
| JInt (z : Z).

(** A score as the search holds it: a finite number, or the minus infinity
    written over the masked entries.  A number of the arrays is a rational,
    which every finite float is; the arithmetic that produces the scores
    ([float32] in the source) is the library's, see [matmul] below.  NaN and
    infinite components of a vector are outside the model. *)
Inductive score :=
| NegInf
| Fin (q : Q).

Definition score_leb (a b : score) : bool :=
  match a, b with
  | NegInf, _ => true
  | Fin _, NegInf => false
  | Fin x, Fin y => Qle_bool x y
  end.

Definition score_le (a b : score) : Prop := score_leb a b = true.

Definition is_fin (s : score) : bool :=
  match s with Fin _ => true | NegInf => false end.

(** The in-memory index of a [VectorStore]. *)
Record VectorStore := MkStore {
  _ids : list string;
  _texts : list string;
  _metadatas : list (gmap string json);
  _embeddings : option (list (list Q))
}.

(** A store before [index_chunks] and after [delete_all]. *)
Definition empty_store : VectorStore := MkStore [] [] [] None.

Definition delete_all (vs : VectorStore) : VectorStore := empty_store.

(** One dict of the result list. *)
Record hit := Hit {
  chunk_id : string;
  text : string;
  metadata : gmap string json;
  hit_score : Q
}.

(** [m.get("celex_id", "") in celex_set] *)
Definition in_filter (celex_set : gset string) (m : gmap string json) : bool :=
  match m !! "celex_id" with
  | Some (JStr s) => bool_decide (s ∈ celex_set)
  | Some (JInt _) => false
  | None => bool_decide (EmptyString ∈ celex_set)
  end.

(** The mask of [search]; a filter that is [None] or empty is no filter. *)
Definition mask_of (vs : VectorStore) (celex_ids : option (list string))
  : list bool :=
  match celex_ids with
  | Some (c :: cs) => map (in_filter (list_to_set (c :: cs))) (_metadatas vs)
  | _ => repeat true (length (_ids vs))
  end.

Definition filtering (celex_ids : option (list string)) : bool :=
  match celex_ids with Some (_ :: _) => true | _ => false end.

(** [mask.sum()] *)
Definition mask_sum (mask : list bool) : nat := length (List.filter id mask).

(** [scores[~mask] = -np.inf] *)
Definition masked (mask : list bool) (scores : list Q) : list score :=
  zip_with (fun (b : bool) s => if b then Fin s else NegInf) mask scores.

(** [a[start:]] for any integer [start] *)
Definition slice_from {A} (start : Z) (a : list A) : list A :=
  let n := Z.of_nat (length a) in
  let start := if (start <? 0)%Z then Z.max 0 (start + n) else Z.min start n in
  skipn (Z.to_nat start) a.

(** [a[i]] *)
Definition item {A} (a : list A) (i : nat) : result A :=
  match nth_error a i with
  | Some x => Ok x
  | None => Raise (IndexError "list index out of range")
  end.

Definition score_at (scores : list score) (i : nat) : score := nth i scores NegInf.

Section search.

(** The encoder and the numpy routines are the libraries' part:
    [model.encode([query], ...)[0]], the matrix-vector product
    [self._embeddings @ query_embedding], [np.argpartition] and
    [np.argsort]. *)
Variable encode : string -> list Q.
Variable matmul : list (list Q) -> list Q -> result (list Q).
Variable argpartition : list score -> Z -> result (list nat).
Variable argsort : list score -> list nat.

(** The indices [search] reads its output from, best first.  Indexing an
    array with an array of indices raises [IndexError] when one of them is
    out of bounds. *)
Definition top_indices (scores : list score) (k : Z) : result (list nat) :=
  top <- argpartition scores (- k)%Z ;;
  let top := slice_from (- k)%Z top in
  if negb (forallb (fun i => i <? length scores) top)
  then Raise (IndexError "index out of bounds")
  else
    let order := rev (argsort (map (score_at scores) top)) in
    if negb (forallb (fun j => j <? length top) order)
    then Raise (IndexError "index out of bounds")
    else Ok (map (fun j => nth j top 0) order).

(** The loop that builds [output]. *)
Fixpoint output_of (vs : VectorStore) (scores : list score) (indices : list nat)
  : result (list hit) :=
  match indices with
  | [] => Ok []
  | idx :: rest =>
      match score_at scores idx with
      | NegInf => output_of vs scores rest
      | Fin s =>
          id_ <- item (_ids vs) idx ;;
          text_ <- item (_texts vs) idx ;;
          meta <- item (_metadatas vs) idx ;;
          out <- output_of vs scores rest ;;
          Ok (Hit id_ text_ meta s :: out)
      end
  end.

Definition search (vs : VectorStore) (query : string)
    (celex_ids : option (list string)) (n_results : Z) : result (list hit) :=
  match _embeddings vs with
  | None => Ok []
  | Some embeddings =>
      if length (_ids vs) =? 0 then Ok []
      else
        let query_embedding := encode query in
        let mask := mask_of vs celex_ids in
        if filtering celex_ids && negb (existsb id mask) then Ok []
        else
          scores <- matmul embeddings query_embedding ;;
          if negb (length mask =? length scores)
          then Raise (IndexError "boolean index did not match indexed array")
          else
            let scores := masked mask scores in
            let k := Z.min n_results (Z.of_nat (mask_sum mask)) in
            indices <- top_indices scores k ;;
            output_of vs scores indices
  end.

End search.

(** ** The documented behaviour of the numpy routines *)

(** [a @ v] for a two-dimensional [a] with at least one row and a vector
    [v]: one number per row of [a] when every row has the length of [v], and
    a [ValueError] when the dimensions do not agree.  The contract leaves the
    numbers to the library: in [float32] they are the rounded dot products. *)
Definition matmul_ok (matmul : list (list Q) -> list Q -> result (list Q)) : Prop :=
  forall rows v,
    rows <> [] ->
    if forallb (fun row => length row =? length v) rows
    then exists scores, matmul rows v = Ok scores /\ length scores = length rows
    else exists msg, matmul rows v = Raise (ValueError msg).

(** [np.argsort(a)]: the indices of [a], ordered by ascending value. *)
Definition argsort_ok (argsort : list score -> list nat) : Prop :=
  forall a, argsort a ≡ₚ seq 0 (length a)
            /\ StronglySorted score_le (map (score_at a) (argsort a)).

(** [np.argpartition(a, kth)] for [-len(a) <= kth < len(a)]: the indices of
    [a], the one at position [kth] where a sort would put it, smaller values
    before it and larger values after it. *)
Definition partitioned (a : list score) (p : list nat) (kth : nat) : Prop :=
  forall i, i < length p ->
    (i < kth -> score_le (score_at a (nth i p 0)) (score_at a (nth kth p 0)))
    /\ (kth < i -> score_le (score_at a (nth kth p 0)) (score_at a (nth i p 0))).

Definition argpartition_ok (argpartition : list score -> Z -> result (list nat))
  : Prop :=
  forall a kth,
    (- Z.of_nat (length a) <= kth < Z.of_nat (length a))%Z ->
    exists p, argpartition a kth = Ok p
              /\ p ≡ₚ seq 0 (length a)
              /\ partitioned a p (Z.to_nat (kth mod Z.of_nat (length a))).

(** ** One implementation of the two routines: a stable insertion sort *)

Fixpoint insert_by (a : list score) (i : nat) (sorted : list nat) : list nat :=
  match sorted with
  | [] => [i]
  | j :: rest =>
      if score_leb (score_at a i) (score_at a j) then i :: sorted
      else j :: insert_by a i rest
  end.

(** Ascending, equal values in index order. *)
Definition stable_argsort (a : list score) : list nat :=
  fold_right (insert_by a) [] (seq 0 (length a)).

(** A full sort is one of the partitions [argpartition] may return. *)
Definition sorting_argpartition (a : list score) (kth : Z) : result (list nat) :=
  if ((- Z.of_nat (length a) <=? kth) && (kth <? Z.of_nat (length a)))%Z
  then Ok (stable_argsort a)
  else Raise (ValueError "kth out of bounds").

(** The other full sort: ascending, equal values in reverse index order.  It
    is as much a partition as the first. *)
Definition reversing_argpartition (a : list score) (kth : Z) : result (list nat) :=
  if ((- Z.of_nat (length a) <=? kth) && (kth <? Z.of_nat (length a)))%Z
  then Ok (fold_right (insert_by a) [] (rev (seq 0 (length a))))
  else Raise (ValueError "kth out of bounds").

(** One product that meets the contract: the sum of the componentwise
    products in exact arithmetic, for rows of the vector's length. *)
Definition dot (u v : list Q) : Q :=
  fold_right Qplus 0%Q (zip_with Qmult u v).

Definition exact_matmul (rows : list (list Q)) (v : list Q) : result (list Q) :=
  if forallb (fun row => length row =? length v) rows
  then Ok (map (fun row => dot row v) rows)
  else Raise (ValueError "matmul: mismatch in the core dimension").

(** A two-dimensional encoder for the examples: the query names its vector. *)
Definition axis_encode (query : string) : list Q :=
  if String.eqb query "x" then [1%Q; 0%Q] else [0%Q; 1%Q].

Definition meta_of (celex : string) : gmap string json :=
  {[ "celex_id" := JStr celex ]}.

(** Three chunks of two documents; the first two are equally close to the
    query [x]. *)
Definition three_chunks : VectorStore :=
  MkStore ["A_art1"; "A_art2"; "B_art1"] ["a1"; "a2"; "b1"]
    [meta_of "A"; meta_of "A"; meta_of "B"]
    (Some [[1%Q; 0%Q]; [1%Q; 0%Q]; [0%Q; 1%Q]]).

Definition search_ids (vs : VectorStore) (query : string)
    (celex_ids : option (list string)) (n_results : Z) : result (list string) :=
  hits <- search axis_encode exact_matmul sorting_argpartition stable_argsort vs
            query celex_ids n_results ;;
  Ok (map chunk_id hits).

Example search_top_one :
  search_ids three_chunks "y" None 1 = Ok ["B_art1"].
Proof. vm_compute. reflexivity. Qed.

Example search_filtered :
  search_ids three_chunks "y" (Some ["A"]) 10 = Ok ["A_art2"; "A_art1"].
Proof. vm_compute. reflexivity. Qed.

Example search_no_match :
  search_ids three_chunks "x" (Some ["32099R9999"]) 10 = Ok [].
Proof. vm_compute. reflexivity. Qed.

(** ** Vocabulary of the properties *)

(** The four arrays of the index have one length, as [index_chunks] builds
    them; a store with no vectors has no chunks. *)
Definition well_formed (vs : VectorStore) : Prop :=
  length (_texts vs) = length (_ids vs)
  /\ length (_metadatas vs) = length (_ids vs)
  /\ match _embeddings vs with
     | Some embeddings => length embeddings = length (_ids vs)
     | None => length (_ids vs) = 0
     end.

(** The vectors of the index have the dimension of the query vector. *)
Definition same_dimension (encode : string -> list Q) (vs : VectorStore)
    (query : string) : Prop :=
  Forall (fun row => length row = length (encode query))
    (default [] (_embeddings vs)).

(** The scores of all chunks against the query, as the product gives them. *)
Definition scores_of (encode : string -> list Q)
    (matmul : list (list Q) -> list Q -> result (list Q)) (vs : VectorStore)
    (query : string) : list Q :=
  match matmul (default [] (_embeddings vs)) (encode query) with
  | Ok scores => scores
  | Raise _ => []
  end.

(** The score of chunk [i] against the query: entry [i] of the product of
    the index with the query vector. *)
Definition similarity (encode : string -> list Q)
    (matmul : list (list Q) -> list Q -> result (list Q)) (vs : VectorStore)
    (query : string) (i : nat) : Q :=
  nth i (scores_of encode matmul vs query) 0%Q.

(** Chunk [i] passes the filter. *)
Definition eligible (vs : VectorStore) (celex_ids : option (list string))
    (i : nat) : bool :=
  nth i (mask_of vs celex_ids) false.

(** The hit of chunk [i]. *)
Definition hit_at (encode : string -> list Q)
    (matmul : list (list Q) -> list Q -> result (list Q)) (vs : VectorStore)
    (query : string) (i : nat) : hit :=
  Hit (nth i (_ids vs) EmptyString) (nth i (_texts vs) EmptyString)
    (nth i (_metadatas vs) ∅) (similarity encode matmul vs query i).


(** ** The order on scores *)

Lemma score_le_refl a : score_le a a.
Proof. destruct a; [reflexivity|]. apply Qle_bool_iff, Qle_refl. Qed.

Lemma score_le_trans a b c : score_le a b -> score_le b c -> score_le a c.
Proof.
  unfold score_le. destruct a, b, c; simpl; try easy.
  rewrite !Qle_bool_iff. apply Qle_trans.
Qed.

Lemma score_le_total a b : score_leb a b = false -> score_le b a.
Proof.
  unfold score_le. destruct a, b; simpl; try easy.
  intros H. apply Qle_bool_iff, Qlt_le_weak, Qnot_le_lt.
  intros Hle. apply Qle_bool_iff in Hle. congruence.
Qed.

Lemma score_le_neginf a : score_le a NegInf -> a = NegInf.
Proof. now destruct a. Qed.

Lemma score_le_fin x y : score_le (Fin x) (Fin y) <-> (x <= y)%Q.
Proof. apply Qle_bool_iff. Qed.

#[local] Instance score_le_transitive : Transitive score_le.
Proof. intros a b c. apply score_le_trans. Qed.

(** ** Lists read by position *)

Lemma map_nth_seq {A} (l : list A) d :
  map (fun i => nth i l d) (seq 0 (length l)) = l.
Proof.
  induction l as [|x l IH]; [reflexivity|].
  simpl. f_equal. rewrite <- seq_shift, map_map. exact IH.
Qed.

Lemma sorted_nth {A} (R : A -> A -> Prop) (l : list A) d :
  StronglySorted R l ->
  forall i j, i < j -> j < length l -> R (nth i l d) (nth j l d).
Proof.
  induction 1 as [|x l _ IH Hx]; intros i j Hij Hj; simpl in *; [lia|].
  destruct j as [|j]; [lia|]. destruct i as [|i].
  - rewrite List.Forall_forall in Hx. apply Hx, nth_In. lia.
  - apply IH; lia.
Qed.

Lemma sorted_snoc {A} (R : A -> A -> Prop) (l : list A) x :
  StronglySorted R l -> Forall (fun y => R y x) l -> StronglySorted R (l ++ [x]).
Proof.
  induction 1 as [|y l Hl IH Hy]; intros Hx; simpl.
  - constructor; constructor.
  - inversion_clear Hx as [|? ? Hyx Hlx]. constructor; [now apply IH|].
    apply Forall_app. split; [exact Hy | now constructor].
Qed.

Lemma sorted_rev {A} (R : A -> A -> Prop) (l : list A) :
  StronglySorted R l -> StronglySorted (fun x y => R y x) (rev l).
Proof.
  induction 1 as [|x l _ IH Hx]; simpl; [constructor|].
  apply sorted_snoc; [exact IH | now apply List.Forall_rev].
Qed.

Lemma sorted_map {A B} (f : A -> B) (R : B -> B -> Prop) (l : list A) :
  StronglySorted R (map f l) <-> StronglySorted (fun x y => R (f x) (f y)) l.
Proof.
  induction l as [|x l IH]; simpl; [split; constructor|].
  split; intros H; inversion_clear H as [|? ? Hl Hx]; constructor;
    try (now apply IH).
  - now rewrite List.Forall_map in Hx.
  - now rewrite List.Forall_map.
Qed.

(** ** The insertion sort meets the documented behaviour *)

Lemma insert_by_perm a i l : insert_by a i l ≡ₚ i :: l.
Proof.
  induction l as [|j l IH]; simpl; [reflexivity|].
  destruct (score_leb _ _); [reflexivity|].
  rewrite IH. apply perm_swap.
Qed.

Lemma insert_by_sorted a i l :
  StronglySorted score_le (map (score_at a) l) ->
  StronglySorted score_le (map (score_at a) (insert_by a i l)).
Proof.
  induction l as [|j l IH]; simpl; intros Hs.
  - constructor; constructor.
  - destruct (score_leb _ _) eqn:Hle; simpl.
    + constructor; [exact Hs|].
      inversion_clear Hs as [|? ? _ Hj]. constructor; [exact Hle|].
      eapply List.Forall_impl; [|exact Hj]. intros s. now apply score_le_trans.
    + inversion_clear Hs as [|? ? Hl Hj]. constructor; [now apply IH|].
      apply List.Forall_map. rewrite List.Forall_map in Hj.
      eapply Permutation_Forall; [symmetry; apply insert_by_perm|].
      constructor; [now apply score_le_total | exact Hj].
Qed.

Lemma insertion_sort a (l : list nat) :
  fold_right (insert_by a) [] l ≡ₚ l
  /\ StronglySorted score_le (map (score_at a) (fold_right (insert_by a) [] l)).
Proof.
  induction l as [|i l [IHp IHs]]; simpl; [split; [reflexivity | constructor]|].
  split; [now rewrite insert_by_perm, IHp | now apply insert_by_sorted].
Qed.

Lemma stable_argsort_ok : argsort_ok stable_argsort.
Proof. intros a. apply insertion_sort. Qed.

Lemma sorting_argpartition_ok : argpartition_ok sorting_argpartition.
Proof.
  intros a kth Hk. exists (stable_argsort a).
  destruct (stable_argsort_ok a) as [Hp Hs].
  assert (Hlen : length (stable_argsort a) = length a).
  { now rewrite (Permutation_length Hp), length_seq. }
  assert (Hj : Z.to_nat (kth mod Z.of_nat (length a)) < length a).
  { pose proof (Z.mod_pos_bound kth (Z.of_nat (length a))). lia. }
  unfold sorting_argpartition.
  replace ((_ <=? _)%Z && (_ <? _)%Z) with true by (symmetry; apply andb_true_iff; lia).
  repeat split; [exact Hp | |]; intros Hlt;
    rewrite <- !(map_nth (score_at a)) with (d := 0);
    apply (sorted_nth score_le _ _ Hs); rewrite ?length_map; lia.
Qed.

Lemma reversing_argpartition_ok : argpartition_ok reversing_argpartition.
Proof.
  intros a kth Hk.
  exists (fold_right (insert_by a) [] (rev (seq 0 (length a)))).
  destruct (insertion_sort a (rev (seq 0 (length a)))) as [Hp0 Hs].
  assert (Hp : fold_right (insert_by a) [] (rev (seq 0 (length a)))
               ≡ₚ seq 0 (length a)).
  { etransitivity; [exact Hp0 | symmetry; apply Permutation_rev]. }
  assert (Hlen : length (fold_right (insert_by a) [] (rev (seq 0 (length a))))
                 = length a).
  { now rewrite (Permutation_length Hp), length_seq. }
  assert (Hj : Z.to_nat (kth mod Z.of_nat (length a)) < length a).
  { pose proof (Z.mod_pos_bound kth (Z.of_nat (length a))). lia. }
  unfold reversing_argpartition.
  replace ((_ <=? _)%Z && (_ <? _)%Z) with true by (symmetry; apply andb_true_iff; lia).
  repeat split; [exact Hp | |]; intros Hlt;
    rewrite <- !(map_nth (score_at a)) with (d := 0);
    apply (sorted_nth score_le _ _ Hs); rewrite ?length_map; lia.
Qed.

Lemma exact_matmul_ok : matmul_ok exact_matmul.
Proof.
  intros rows v _. unfold exact_matmul.
  destruct (forallb _ rows); [|eauto].
  eexists. split; [reflexivity | apply length_map].
Qed.

(** ** Counting and reading the masked scores *)

Lemma filter_length_perm {A} (f : A -> bool) (l l' : list A) :
  l ≡ₚ l' -> length (List.filter f l) = length (List.filter f l').
Proof.
  induction 1 as [|x l l' _ IH|x y l|l l' l'' _ IH1 _ IH2]; simpl.
  - reflexivity.
  - destruct (f x); simpl; now rewrite IH.
  - destruct (f x), (f y); reflexivity.
  - now rewrite IH1.
Qed.

Lemma filter_length_le {A} (f : A -> bool) (l : list A) :
  length (List.filter f l) <= length l.
Proof. induction l as [|x l IH]; simpl; [lia|]. destruct (f x); simpl; lia. Qed.

Lemma filter_length_lt {A} (f : A -> bool) (l : list A) x :
  In x l -> f x = false -> length (List.filter f l) < length l.
Proof.
  induction l as [|y l IH]; simpl; [easy|].
  intros [->|Hin] Hx.
  - rewrite Hx. pose proof (filter_length_le f l). lia.
  - specialize (IH Hin Hx). destruct (f y); simpl; lia.
Qed.

Lemma filter_none {A} (f : A -> bool) (l : list A) :
  (forall x, In x l -> f x = false) -> List.filter f l = [].
Proof.
  induction l as [|y l IH]; simpl; [easy|]. intros H.
  rewrite (H y (or_introl eq_refl)). apply IH. intros x Hx. apply H. now right.
Qed.

Lemma masked_length mask qs :
  length mask = length qs -> length (masked mask qs) = length qs.
Proof.
  revert qs. induction mask as [|b mask IH]; intros [|q qs]; simpl; try easy.
  intros [= H]. now rewrite <- (IH qs H).
Qed.

Lemma masked_at mask qs i :
  length mask = length qs -> i < length qs ->
  score_at (masked mask qs) i
  = if nth i mask false then Fin (nth i qs 0%Q) else NegInf.
Proof.
  revert qs i. induction mask as [|b mask IH]; intros [|q qs] i; simpl; try easy.
  intros [= H] Hi. destruct i as [|i]; [reflexivity|].
  apply (IH qs i H). lia.
Qed.

Lemma masked_fin_count mask qs :
  length mask = length qs ->
  length (List.filter is_fin (masked mask qs)) = mask_sum mask.
Proof.
  unfold mask_sum, masked.
  revert qs. induction mask as [|b mask IH]; intros [|q qs] H;
    try discriminate H; [reflexivity|].
  injection H as H. specialize (IH qs H).
  cbn [zip_with List.filter]. destruct b; cbn [is_fin id length]; now rewrite IH.
Qed.

Lemma mask_sum_le mask : mask_sum mask <= length mask.
Proof. apply filter_length_le. Qed.

Lemma mask_sum_none mask : existsb id mask = false -> mask_sum mask = 0.
Proof.
  unfold mask_sum. induction mask as [|b mask IH]; simpl; [easy|].
  destruct b; simpl; [easy | exact IH].
Qed.

Lemma mask_sum_some mask : existsb id mask = true -> 1 <= mask_sum mask.
Proof.
  unfold mask_sum. induction mask as [|b mask IH]; simpl; [easy|].
  destruct b; simpl; [lia | exact IH].
Qed.

Lemma mask_sum_all n : mask_sum (repeat true n) = n.
Proof. unfold mask_sum. induction n as [|n IH]; simpl; [reflexivity | now rewrite IH]. Qed.

(** ** The last [k] places of a partition hold the [k] best scores *)

Lemma nth_skipn_plus {A} (l : list A) j i d :
  nth i (skipn j l) d = nth (j + i) l d.
Proof.
  revert l. induction j as [|j IH]; intros l; [reflexivity|].
  destruct l as [|x l]; simpl; [now destruct i | apply IH].
Qed.

Section top_k.

Variables (a : list score) (p : list nat) (k : nat).
Hypothesis Hperm : p ≡ₚ seq 0 (length a).
Hypothesis Hk : 1 <= k <= length a.
Hypothesis Hpart : partitioned a p (length a - k).

Let top := skipn (length a - k) p.

Lemma perm_length : length p = length a.
Proof using Hperm. now rewrite (Permutation_length Hperm), length_seq. Qed.

Lemma top_length : length top = k.
Proof using Hperm Hk. subst top. rewrite length_skipn, perm_length. lia. Qed.

Lemma pivot_le_top x :
  In x top -> score_le (score_at a (nth (length a - k) p 0)) (score_at a x).
Proof using Hperm Hk Hpart.
  intros Hx. apply (In_nth _ _ 0) in Hx as (i & Hi & <-).
  rewrite top_length in Hi. subst top. rewrite nth_skipn_plus.
  destruct i as [|i].
  - rewrite Nat.add_0_r. apply score_le_refl.
  - apply Hpart; [rewrite perm_length|]; lia.
Qed.

Lemma low_le_pivot y :
  In y (firstn (length a - k) p) ->
  score_le (score_at a y) (score_at a (nth (length a - k) p 0)).
Proof using Hperm Hk Hpart.
  intros Hy. apply (In_nth _ _ 0) in Hy as (i & Hi & <-).
  rewrite length_firstn, perm_length in Hi.
  rewrite nth_firstn. replace (i <? length a - k) with true
    by (symmetry; apply Nat.ltb_lt; lia).
  apply Hpart; [rewrite perm_length|]; lia.
Qed.

Lemma low_le_top x y :
  In x top -> In y (firstn (length a - k) p) ->
  score_le (score_at a y) (score_at a x).
Proof using Hperm Hk Hpart.
  intros Hx Hy. eapply score_le_trans; [now apply low_le_pivot | now apply pivot_le_top].
Qed.

Hypothesis Hfin : k <= length (List.filter is_fin a).

Lemma top_fin x : In x top -> is_fin (score_at a x) = true.
Proof using Hperm Hk Hpart Hfin.
  intros Hx. destruct (is_fin (score_at a x)) eqn:Hinf; [reflexivity|].
  exfalso.
  assert (Hxs : score_at a x = NegInf) by (now destruct (score_at a x)).
  assert (Hpivot : score_at a (nth (length a - k) p 0) = NegInf).
  { apply score_le_neginf. rewrite <- Hxs. now apply pivot_le_top. }
  assert (Hlow : List.filter is_fin (map (score_at a) (firstn (length a - k) p)) = []).
  { apply filter_none. intros s (y & <- & Hy)%in_map_iff.
    apply low_le_pivot in Hy. rewrite Hpivot in Hy.
    now rewrite (score_le_neginf _ Hy). }
  assert (Htop : length (List.filter is_fin (map (score_at a) top)) < k).
  { pose proof top_length as Hlen.
    pose proof (filter_length_lt is_fin (map (score_at a) top) (score_at a x)
                  (in_map _ _ _ Hx) Hinf) as Hlt.
    rewrite length_map in Hlt. lia. }
  assert (Hall : length (List.filter is_fin (map (score_at a) p))
                 = length (List.filter is_fin a)).
  { rewrite <- (map_nth_seq a NegInf) at 2.
    apply filter_length_perm, Permutation_map, Hperm. }
  rewrite <- (firstn_skipn (length a - k) p), map_app, List.filter_app,
    length_app, Hlow in Hall.
  simpl in Hall. fold top in Hall. lia.
Qed.

End top_k.

(** ** Sorting the selected indices *)

Lemma sort_selected argsort (a : list score) (top : list nat) :
  argsort_ok argsort ->
  let order := rev (argsort (map (score_at a) top)) in
  let sorted := map (fun j => nth j top 0) order in
  sorted ≡ₚ top
  /\ StronglySorted (fun i j => score_le (score_at a j) (score_at a i)) sorted.
Proof.
  intros Hsort order sorted.
  destruct (Hsort (map (score_at a) top)) as [Hp Hs].
  rewrite length_map in Hp.
  assert (Hord : order ≡ₚ seq 0 (length top)).
  { subst order. now rewrite <- Permutation_rev. }
  split.
  - subst sorted. rewrite Hord. now rewrite map_nth_seq.
  - apply (sorted_map (score_at a) (fun x y => score_le y x)).
    assert (Heq : map (score_at a) sorted
                  = rev (map (score_at (map (score_at a) top))
                           (argsort (map (score_at a) top)))).
    { subst sorted order. rewrite map_map, <- map_rev.
      apply map_ext_in. intros j Hj.
      assert (j < length top) as Hlt.
      { apply in_rev in Hj. apply (Permutation_in _ Hp), in_seq in Hj. lia. }
      unfold score_at at 2.
      rewrite (nth_indep _ NegInf (score_at a 0)) by (now rewrite length_map).
      now rewrite map_nth. }
    rewrite Heq. now apply sorted_rev.
Qed.

(** ** Building the output *)

Lemma item_nth {A} (l : list A) i d : i < length l -> item l i = Ok (nth i l d).
Proof.
  intros Hi. unfold item. now rewrite (nth_error_nth' l d Hi).
Qed.

Lemma output_of_hits encode matmul vs query scores indices :
  Forall (fun i => i < length (_ids vs) /\ i < length (_texts vs)
                   /\ i < length (_metadatas vs)
                   /\ score_at scores i = Fin (similarity encode matmul vs query i))
    indices ->
  output_of vs scores indices = Ok (map (hit_at encode matmul vs query) indices).
Proof.
  induction 1 as [|i indices (Hi & Ht & Hm & Hs) _ IH]; simpl; [reflexivity|].
  rewrite Hs, (item_nth _ i EmptyString Hi), (item_nth _ i EmptyString Ht),
    (item_nth _ i ∅ Hm), IH.
  reflexivity.
Qed.

Lemma sorted_impl_in {A} (R R' : A -> A -> Prop) (l : list A) :
  (forall x y, In x l -> In y l -> R x y -> R' x y) ->
  StronglySorted R l -> StronglySorted R' l.
Proof.
  intros Himp Hs. induction Hs as [|x l Hl IH Hx]; constructor.
  - apply IH. intros y z Hy Hz. apply Himp; now right.
  - rewrite List.Forall_forall in *. intros y Hy.
    apply Himp; [now left | now right | now apply Hx].
Qed.

Lemma mask_of_length vs celex_ids :
  length (_metadatas vs) = length (_ids vs) ->
  length (mask_of vs celex_ids) = length (_ids vs).
Proof.
  intros Hm. unfold mask_of.
  destruct celex_ids as [[|c cs]|]; rewrite ?length_map, ?repeat_length; congruence.
Qed.

Lemma mask_sum_open vs celex_ids :
  filtering celex_ids = false ->
  mask_sum (mask_of vs celex_ids) = length (_ids vs).
Proof.
  unfold mask_of, filtering.
  destruct celex_ids as [[|c cs]|]; intros H; try discriminate H;
    apply mask_sum_all.
Qed.

Lemma neg_mod k n : (1 <= k <= n)%Z -> ((- k) mod n = n - k)%Z.
Proof.
  intros Hk. rewrite <- (Z_mod_plus_full (- k) 1 n).
  replace (- k + 1 * n)%Z with (n - k)%Z by lia.
  destruct (Z.eq_dec k n) as [->|Hne].
  - rewrite Z.sub_diag. apply Z.mod_0_l. lia.
  - apply Z.mod_small. lia.
Qed.

Lemma scores_at encode matmul vs embeddings scores query celex_ids i :
  _embeddings vs = Some embeddings ->
  matmul embeddings (encode query) = Ok scores ->
  length (mask_of vs celex_ids) = length scores ->
  i < length scores ->
  score_at (masked (mask_of vs celex_ids) scores) i
  = if eligible vs celex_ids i
    then Fin (similarity encode matmul vs query i) else NegInf.
Proof.
  intros Hem Hmm Hlen Hi. rewrite masked_at by assumption.
  unfold eligible, similarity, scores_of. rewrite Hem. simpl. now rewrite Hmm.
Qed.

Lemma same_dimension_forallb encode vs embeddings query :
  _embeddings vs = Some embeddings -> same_dimension encode vs query ->
  forallb (fun row => length row =? length (encode query)) embeddings = true.
Proof.
  unfold same_dimension. intros -> H. simpl in H. apply forallb_forall.
  rewrite List.Forall_forall in H. intros row Hrow. apply Nat.eqb_eq. now apply H.
Qed.

(** With the exact product the score of a chunk is the sum of the
    componentwise products of its vector and the query vector. *)
Lemma exact_similarity encode vs embeddings query i :
  _embeddings vs = Some embeddings -> same_dimension encode vs query ->
  i < length embeddings ->
  similarity encode exact_matmul vs query i
  = dot (nth i embeddings []) (encode query).
Proof.
  intros Hem Hdim Hi. unfold similarity, scores_of, exact_matmul.
  rewrite Hem. simpl.
  rewrite (same_dimension_forallb encode vs embeddings query Hem Hdim).
  rewrite (nth_indep _ 0%Q (dot [] (encode query))) by (now rewrite length_map).
  now rewrite (map_nth (fun row => dot row (encode query))).
Qed.

(** C2 (as amended). For a store whose four arrays have one length and whose
    vectors have the dimension of the query vector, any query, any filter and
    a requested count of at least one, and for numpy routines that do what
    their documentation says, [search] returns the hits of
    [min(n_results, eligible)] distinct eligible chunks, each scored by its
    entry of the product of the index with the query vector, in descending
    order of score, and no eligible chunk left out scores higher than a
    returned one.  Nothing is stated about the order among equal scores: the
    code leaves it to the two routines. *)
Theorem search_returns_top_k
    (encode : string -> list Q)
    (matmul : list (list Q) -> list Q -> result (list Q))
    (argpartition : list score -> Z -> result (list nat))
    (argsort : list score -> list nat)
    (vs : VectorStore) (query : string) (celex_ids : option (list string))
    (n_results : Z) :
  matmul_ok matmul -> argpartition_ok argpartition -> argsort_ok argsort ->
  well_formed vs -> same_dimension encode vs query -> (1 <= n_results)%Z ->
  exists indices,
    search encode matmul argpartition argsort vs query celex_ids n_results
    = Ok (map (hit_at encode matmul vs query) indices)
    /\ length indices
       = Nat.min (Z.to_nat n_results) (mask_sum (mask_of vs celex_ids))
    /\ NoDup indices
    /\ Forall (fun i => i < length (_ids vs) /\ eligible vs celex_ids i = true)
         indices
    /\ StronglySorted
         (fun i j => (similarity encode matmul vs query j
                      <= similarity encode matmul vs query i)%Q) indices
    /\ (forall i j, In i indices -> j < length (_ids vs) ->
                    eligible vs celex_ids j = true -> ~ In j indices ->
                    (similarity encode matmul vs query j
                     <= similarity encode matmul vs query i)%Q).
Proof.
  intros Hmul Hpart Hsort (Htexts & Hmetas & Hemb) Hdim Hn.
  pose proof (mask_of_length vs celex_ids Hmetas) as Hmask.
  assert (Hnone : length (_ids vs) = 0 ->
                  exists indices : list nat,
                    Ok [] = Ok (map (hit_at encode matmul vs query) indices)
                    /\ length indices
                       = Nat.min (Z.to_nat n_results) (mask_sum (mask_of vs celex_ids))
                    /\ NoDup indices
                    /\ Forall (fun i => i < length (_ids vs)
                                        /\ eligible vs celex_ids i = true) indices
                    /\ StronglySorted
                         (fun i j => (similarity encode matmul vs query j
                                      <= similarity encode matmul vs query i)%Q)
                         indices
                    /\ (forall i j, In i indices -> j < length (_ids vs) ->
                                    eligible vs celex_ids j = true -> ~ In j indices ->
                                    (similarity encode matmul vs query j
                                     <= similarity encode matmul vs query i)%Q)).
  { intros H0. exists []. pose proof (mask_sum_le (mask_of vs celex_ids)).
    repeat split; try constructor; simpl; [lia | easy]. }
  unfold search. destruct (_embeddings vs) as [embeddings|] eqn:Hem;
    [|now apply Hnone].
  destruct (length (_ids vs) =? 0) eqn:Hlen0;
    [apply Nat.eqb_eq in Hlen0; now apply Hnone|].
  apply Nat.eqb_neq in Hlen0.
  set (mask := mask_of vs celex_ids) in *.
  destruct (filtering celex_ids && negb (existsb id mask)) eqn:Hskip.
  { apply andb_prop in Hskip as [_ Hno%negb_true_iff].
    exists []. rewrite (mask_sum_none _ Hno).
    repeat split; try constructor; simpl; [lia | easy]. }
  assert (Hsum : 1 <= mask_sum mask).
  { destruct (filtering celex_ids) eqn:Hf; simpl in Hskip.
    - apply negb_false_iff in Hskip. now apply mask_sum_some.
    - subst mask. rewrite (mask_sum_open _ _ Hf). lia. }
  assert (Hrows : embeddings <> []) by (intros ->; simpl in Hemb; lia).
  pose proof (Hmul embeddings (encode query) Hrows) as Hprod.
  rewrite (same_dimension_forallb encode vs embeddings query Hem Hdim) in Hprod.
  destruct Hprod as (products & Hprod & Hplen0).
  rewrite Hprod. cbn [bind].
  replace (length mask =? length products) with true
    by (symmetry; apply Nat.eqb_eq; congruence).
  cbn [negb].
  set (scores := masked mask products).
  assert (Hscores : length scores = length (_ids vs)).
  { subst scores. rewrite masked_length; congruence. }
  set (k := Z.min n_results (Z.of_nat (mask_sum mask))).
  set (kn := Nat.min (Z.to_nat n_results) (mask_sum mask)).
  assert (Hk : k = Z.of_nat kn) by (subst k kn; lia).
  pose proof (mask_sum_le mask) as Hle.
  assert (Hkn : 1 <= kn <= length scores) by (subst kn; lia).
  destruct (Hpart scores (- k)%Z) as (p & Hp & Hperm & Hpartd); [lia|].
  rewrite Hk, neg_mod in Hpartd by lia.
  replace (Z.to_nat (Z.of_nat (length scores) - Z.of_nat kn))
    with (length scores - kn) in Hpartd by lia.
  assert (Hplen : length p = length scores).
  { now rewrite (Permutation_length Hperm), length_seq. }
  unfold top_indices. rewrite Hp. cbn [bind].
  assert (Hslice : slice_from (- k) p = skipn (length scores - kn) p).
  { unfold slice_from. replace (- k <? 0)%Z with true by (symmetry; apply Z.ltb_lt; lia).
    f_equal. lia. }
  rewrite Hslice. set (top := skipn (length scores - kn) p).
  assert (Hbounds : forallb (fun i => i <? length scores) top = true).
  { apply forallb_forall. intros i Hi. apply Nat.ltb_lt.
    assert (In i p) as Hip.
    { rewrite <- (firstn_skipn (length scores - kn) p). apply in_or_app. now right. }
    apply (Permutation_in _ Hperm), in_seq in Hip. lia. }
  rewrite Hbounds. cbn [negb].
  assert (Horder : forallb (fun j => j <? length top)
                     (rev (argsort (map (score_at scores) top))) = true).
  { apply forallb_forall. intros j Hj%in_rev. apply Nat.ltb_lt.
    destruct (Hsort (map (score_at scores) top)) as [Hpo _].
    apply (Permutation_in _ Hpo), in_seq in Hj. rewrite length_map in Hj. lia. }
  rewrite Horder. cbn [negb].
  destruct (sort_selected argsort scores top Hsort) as [Hsp Hss].
  set (sorted := map (fun j => nth j top 0) (rev (argsort (map (score_at scores) top)))) in *.
  assert (Hfin : kn <= length (List.filter is_fin scores)).
  { subst scores. rewrite masked_fin_count by congruence.
    subst kn. lia. }
  assert (Hrange : forall i, In i p -> i < length (_ids vs)).
  { intros i Hi. apply (Permutation_in _ Hperm), in_seq in Hi. lia. }
  assert (Htop_p : forall i, In i top -> In i p).
  { intros i Hi. rewrite <- (firstn_skipn (length scores - kn) p).
    apply in_or_app. now right. }
  assert (Hat : forall i, i < length (_ids vs) ->
                score_at scores i
                = if eligible vs celex_ids i
                  then Fin (similarity encode matmul vs query i) else NegInf).
  { intros i Hi. subst scores mask.
    apply (scores_at encode matmul vs embeddings products);
      [exact Hem | exact Hprod | congruence | congruence]. }
  assert (Htopfin : forall i, In i top ->
                      eligible vs celex_ids i = true
                      /\ score_at scores i = Fin (similarity encode matmul vs query i)).
  { intros i Hi.
    pose proof (top_fin scores p kn Hperm Hkn Hpartd Hfin i Hi) as Hf.
    rewrite (Hat i (Hrange i (Htop_p i Hi))) in Hf |- *.
    now destruct (eligible vs celex_ids i). }
  assert (Hin_sorted : forall i, In i sorted <-> In i top).
  { intros i. split; apply Permutation_in; [exact Hsp | now symmetry]. }
  exists sorted. split; [|split; [|split; [|split; [|split]]]].
  - apply output_of_hits. apply List.Forall_forall. intros i Hi%Hin_sorted.
    pose proof (Hrange i (Htop_p i Hi)). destruct (Htopfin i Hi) as [_ Hs].
    repeat split; congruence || lia.
  - rewrite (Permutation_length Hsp).
    apply (top_length scores p kn Hperm Hkn).
  - rewrite Hsp.
    assert (NoDup p) as Hnd by (rewrite Hperm; apply NoDup_seq).
    rewrite <- (firstn_skipn (length scores - kn) p) in Hnd.
    now apply NoDup_app in Hnd as (_ & _ & Hnd).
  - apply List.Forall_forall. intros i Hi%Hin_sorted.
    split; [apply Hrange, Htop_p, Hi | apply Htopfin, Hi].
  - eapply sorted_impl_in; [|exact Hss].
    intros i j Hi%Hin_sorted Hj%Hin_sorted Hle'. simpl in Hle'.
    destruct (Htopfin i Hi) as [_ Hsi]. destruct (Htopfin j Hj) as [_ Hsj].
    rewrite Hsi, Hsj in Hle'. now apply score_le_fin.
  - intros i j Hi%Hin_sorted Hj Hel Hout.
    assert (In j (firstn (length scores - kn) p)) as Hlow.
    { assert (In j p) as Hjp.
      { apply (Permutation_in _ (symmetry Hperm)), in_seq. lia. }
      rewrite <- (firstn_skipn (length scores - kn) p) in Hjp.
      apply in_app_or in Hjp as [Hjp|Hjp]; [exact Hjp|].
      exfalso. apply Hout, Hin_sorted, Hjp. }
    pose proof (low_le_top scores p kn Hperm Hkn Hpartd i j Hi Hlow) as Hle'.
    destruct (Htopfin i Hi) as [_ Hsi].
    rewrite Hsi, (Hat j Hj), Hel in Hle'. now apply score_le_fin.
Qed.

Lemma search_returns_top_k_witness :
  exists indices,
    search axis_encode exact_matmul sorting_argpartition stable_argsort three_chunks
      "x" (Some ["A"]) 1
    = Ok (map (hit_at axis_encode exact_matmul three_chunks "x") indices)
    /\ length indices = 1.
Proof.
  destruct (search_returns_top_k axis_encode exact_matmul sorting_argpartition
              stable_argsort three_chunks "x" (Some ["A"]) 1
              exact_matmul_ok sorting_argpartition_ok stable_argsort_ok
              (conj eq_refl (conj eq_refl eq_refl))
              ltac:(repeat constructor) ltac:(lia))
    as (indices & Hs & Hlen & _).
  exists indices. split; [exact Hs | exact Hlen].
Defined.

(** C2 as stated fails on ties: with a stable sort for both routines, the two
    chunks that score 1 against [x] come back in reverse index order. *)
Lemma search_ties_not_in_index_order :
  map chunk_id (List.filter (fun h => Qeq_bool (hit_score h) 1)
                  (map (hit_at axis_encode exact_matmul three_chunks "x") [0; 1; 2]))
  = ["A_art1"; "A_art2"]
  /\ search axis_encode exact_matmul sorting_argpartition stable_argsort three_chunks
       "x" None 2
     = Ok [Hit "A_art2" "a2" (meta_of "A") 1; Hit "A_art1" "a1" (meta_of "A") 1].
Proof. split; vm_compute; reflexivity. Qed.

(** The order of the ties is the routines' doing: with the other full sort as
    the partition and the same [argsort], the same search returns the two
    chunks in index order. *)
Lemma search_ties_follow_the_partition :
  search axis_encode exact_matmul reversing_argpartition stable_argsort three_chunks
    "x" None 2
  = Ok [Hit "A_art1" "a1" (meta_of "A") 1; Hit "A_art2" "a2" (meta_of "A") 1].
Proof. vm_compute. reflexivity. Qed.

(** A requested count of zero is outside the amended C2: [a[-0:]] is the
    whole array, so every eligible chunk is returned. *)
Lemma search_zero_returns_all :
  search_ids three_chunks "x" None 0 = Ok ["A_art2"; "A_art1"; "B_art1"].
Proof. vm_compute. reflexivity. Qed.

(** A query vector of another dimension than the index is outside it too: the
    product raises and so does the search. *)
Lemma search_dimension_mismatch
    (encode : string -> list Q)
    (matmul : list (list Q) -> list Q -> result (list Q))
    (argpartition : list score -> Z -> result (list nat))
    (argsort : list score -> list nat)
    (vs : VectorStore) (embeddings : list (list Q)) (query : string)
    (n_results : Z) :
  matmul_ok matmul ->
  _embeddings vs = Some embeddings -> _ids vs <> [] ->
  forallb (fun row => length row =? length (encode query)) embeddings = false ->
  exists msg,
    search encode matmul argpartition argsort vs query None n_results
    = Raise (ValueError msg).
Proof.
  intros Hmul Hem Hids Hdim. unfold search. rewrite Hem.
  destruct (_ids vs) as [|id_ ids]; [easy|]. cbn [length Nat.eqb filtering andb].
  assert (Hrows : embeddings <> []) by (now intros ->).
  pose proof (Hmul embeddings (encode query) Hrows) as Hprod. rewrite Hdim in Hprod.
  destruct Hprod as (msg & ->). eauto.
Qed.

Lemma existsb_map_false {A} (f : A -> bool) (l : list A) :
  (forall x, In x l -> f x = false) -> existsb id (map f l) = false.
Proof.
  induction l as [|x l IH]; intros H; simpl; [reflexivity|].
  rewrite (H x (or_introl eq_refl)). apply IH. intros y Hy. apply H. now right.
Qed.

(** C8 (as amended). Searching a store with no vectors or no chunks returns
    the empty list, not an error; so does a search whose filter is a
    non-empty list of documents that no indexed chunk belongs to.  (An empty
    filter list is no filter.) *)
Theorem search_empty_index_or_no_match
    (encode : string -> list Q)
    (matmul : list (list Q) -> list Q -> result (list Q))
    (argpartition : list score -> Z -> result (list nat))
    (argsort : list score -> list nat)
    (vs : VectorStore) (query : string) (n_results : Z) :
  (forall celex_ids,
      _embeddings vs = None \/ _ids vs = [] ->
      search encode matmul argpartition argsort vs query celex_ids n_results = Ok [])
  /\ (forall celex_ids,
        celex_ids <> [] ->
        (forall m, In m (_metadatas vs) ->
                   in_filter (list_to_set celex_ids) m = false) ->
        search encode matmul argpartition argsort vs query (Some celex_ids) n_results
        = Ok []).
Proof.
  split.
  - intros celex_ids [Hnone|Hids]; unfold search.
    + now rewrite Hnone.
    + rewrite Hids. now destruct (_embeddings vs).
  - intros [|c cs] Hne Hmiss; [easy|]. unfold search.
    destruct (_embeddings vs) as [embeddings|]; [|reflexivity].
    destruct (length (_ids vs) =? 0); [reflexivity|].
    cbn [filtering mask_of andb].
    now rewrite (existsb_map_false _ _ Hmiss).
Qed.

Lemma search_empty_index_or_no_match_witness :
  search axis_encode exact_matmul sorting_argpartition stable_argsort empty_store
    "x" None 10
  = Ok []
  /\ search axis_encode exact_matmul sorting_argpartition stable_argsort three_chunks
       "x" (Some ["32099R9999"]) 10
     = Ok [].
Proof.
  split.
  - apply (proj1 (search_empty_index_or_no_match axis_encode exact_matmul
                    sorting_argpartition stable_argsort empty_store "x" 10) None).
    now left.
  - apply (proj2 (search_empty_index_or_no_match axis_encode exact_matmul
                    sorting_argpartition stable_argsort three_chunks "x" 10)
             ["32099R9999"]).
    + discriminate.
    + intros m Hm. vm_compute in Hm.
      destruct Hm as [<-|[<-|[<-|[]]]]; vm_compute; reflexivity.
Defined.

(** C8 as stated fails for a filter that is supplied and empty: it matches no
    chunk, yet every chunk is searched and returned. *)
Lemma search_empty_filter_returns_all :
  Forall (fun m => in_filter (list_to_set []) m = false) (_metadatas three_chunks)
  /\ search_ids three_chunks "x" (Some []) 10
     = Ok ["A_art2"; "A_art1"; "B_art1"].
Proof.
  split; [repeat constructor | vm_compute; reflexivity].
Qed.

(** ** Indexing chunks *)

(** [ArticleChunk.metadata], the dict stored for a chunk. *)
Definition chunk_metadata (self : ArticleChunk.obj) : gmap string json :=
  let c := ArticleChunk.fields self in
  {[ "celex_id" := JStr (ArticleChunk.celex_id c);
     "article_number" := JInt (ArticleChunk.article_number c);
     "article_title" := JStr (ArticleChunk.article_title c);
     "chapter" := JStr (ArticleChunk.chapter c);
     "section" := JStr (ArticleChunk.section c);
     "chunk_index" := JInt (Z.of_nat (ArticleChunk.chunk_index c));
     "total_chunks" := JInt (Z.of_nat (ArticleChunk.total_chunks c));
     "chunk_id" := JStr (ArticleChunk.chunk_id self);
     "char_count" := JInt (Z.of_nat (ArticleChunk.char_count c)) ]}.

(** [index_chunks]: the new store and the number returned.  The encoder
    gives one vector per text; writing the index to disk is not modelled. *)
Definition index_chunks (encode : string -> list Q) (vs : VectorStore)
    (chunks : list ArticleChunk.obj) : VectorStore * nat :=
  match chunks with
  | [] => (vs, 0)
  | _ =>
      let texts :=
        map (fun c => ArticleChunk.text_with_context (ArticleChunk.fields c)) chunks in
      let embeddings := map encode texts in
      (MkStore (map ArticleChunk.chunk_id chunks) texts
         (map chunk_metadata chunks) (Some embeddings),
       length chunks)
  end.

(** The [count] property. *)
Definition count (vs : VectorStore) : nat := length (_ids vs).

Lemma chunk_metadata_celex self :
  chunk_metadata self !! "celex_id"
  = Some (JStr (ArticleChunk.celex_id (ArticleChunk.fields self))).
Proof. reflexivity. Qed.

(** ** What a search can return *)

Lemma score_at_fin scores i s : score_at scores i = Fin s -> i < length scores.
Proof.
  unfold score_at. intros H. destruct (le_lt_dec (length scores) i) as [Hle|Hlt];
    [|exact Hlt].
  now rewrite nth_overflow in H.
Qed.

Lemma item_ok {A} (l : list A) i x : item l i = Ok x -> nth_error l i = Some x.
Proof. unfold item. destruct (nth_error l i); [now intros [= ->] | discriminate]. Qed.

Lemma output_of_rows vs scores indices : forall hits,
  output_of vs scores indices = Ok hits ->
  Forall (fun h => exists i,
              score_at scores i = Fin (hit_score h)
              /\ nth_error (_ids vs) i = Some (chunk_id h)
              /\ nth_error (_texts vs) i = Some (text h)
              /\ nth_error (_metadatas vs) i = Some (metadata h)) hits.
Proof.
  induction indices as [|idx rest IH]; intros hits; cbn [output_of].
  - intros [= <-]. constructor.
  - destruct (score_at scores idx) as [|s] eqn:Hs; [apply IH|].
    destruct (item (_ids vs) idx) as [id_|] eqn:Hid; [|discriminate].
    destruct (item (_texts vs) idx) as [text_|] eqn:Ht; [|discriminate].
    destruct (item (_metadatas vs) idx) as [meta|] eqn:Hm; [|discriminate].
    destruct (output_of vs scores rest) as [out|]; [|discriminate].
    cbn [bind]. intros [= <-]. constructor; [|now apply IH].
    exists idx. simpl. repeat split; try assumption; now apply item_ok.
Qed.

(** Every hit of a search is the hit of an indexed chunk that passes the
    filter. *)
Lemma search_rows encode matmul argpartition argsort vs query celex_ids n_results
    hits :
  search encode matmul argpartition argsort vs query celex_ids n_results = Ok hits ->
  Forall (fun h => exists i,
              i < length (_ids vs)
              /\ eligible vs celex_ids i = true
              /\ nth_error (_ids vs) i = Some (chunk_id h)
              /\ nth_error (_texts vs) i = Some (text h)
              /\ nth_error (_metadatas vs) i = Some (metadata h)
              /\ hit_score h = similarity encode matmul vs query i) hits.
Proof.
  unfold search. destruct (_embeddings vs) as [embeddings|] eqn:Hem;
    [|intros [= <-]; constructor].
  destruct (length (_ids vs) =? 0); [intros [= <-]; constructor|].
  destruct (filtering celex_ids && _); [intros [= <-]; constructor|].
  destruct (matmul embeddings (encode query)) as [scores|] eqn:Hprod;
    [|discriminate].
  cbn [bind].
  destruct (length (mask_of vs celex_ids) =? length scores) eqn:Hlen;
    [|discriminate].
  apply Nat.eqb_eq in Hlen. cbn [negb].
  destruct (top_indices _ _ _ _) as [indices|]; [|discriminate]. cbn [bind].
  intros Hout%output_of_rows.
  eapply List.Forall_impl; [|exact Hout].
  intros h (i & Hs & Hid & Ht & Hm). exists i.
  pose proof (score_at_fin _ _ _ Hs) as Hi.
  rewrite masked_length in Hi by exact Hlen.
  rewrite (scores_at encode matmul vs embeddings scores query celex_ids i
             Hem Hprod Hlen Hi) in Hs.
  destruct (eligible vs celex_ids i); [|discriminate]. injection Hs as Hs.
  repeat split; try assumption; [|now symmetry].
  apply nth_error_Some. now rewrite Hid.
Qed.

(** X21. Whatever the encoder and the numpy routines return, every hit of a
    search that does not fail is an indexed chunk that passes the filter: its
    id, text and metadata are those stored at one position of the index, and
    its score is that position's entry of the product of the index with the
    query vector. *)
Theorem search_hits_are_eligible_chunks
    (encode : string -> list Q)
    (matmul : list (list Q) -> list Q -> result (list Q))
    (argpartition : list score -> Z -> result (list nat))
    (argsort : list score -> list nat)
    (vs : VectorStore) (query : string) (celex_ids : option (list string))
    (n_results : Z) (hits : list hit) :
  search encode matmul argpartition argsort vs query celex_ids n_results = Ok hits ->
  Forall (fun h => exists i,
              i < length (_ids vs)
              /\ eligible vs celex_ids i = true
              /\ nth_error (_ids vs) i = Some (chunk_id h)
              /\ nth_error (_texts vs) i = Some (text h)
              /\ nth_error (_metadatas vs) i = Some (metadata h)
              /\ hit_score h = similarity encode matmul vs query i) hits.
Proof. apply search_rows. Qed.

Lemma search_hits_are_eligible_chunks_witness :
  Forall (fun h => exists i,
              i < length (_ids three_chunks)
              /\ eligible three_chunks None i = true
              /\ nth_error (_ids three_chunks) i = Some (chunk_id h)
              /\ nth_error (_texts three_chunks) i = Some (text h)
              /\ nth_error (_metadatas three_chunks) i = Some (metadata h)
              /\ hit_score h = similarity axis_encode exact_matmul three_chunks "x" i)
    [Hit "A_art2" "a2" (meta_of "A") 1; Hit "A_art1" "a1" (meta_of "A") 1].
Proof.
  apply (search_hits_are_eligible_chunks axis_encode exact_matmul
           sorting_argpartition stable_argsort three_chunks "x" None 2).
  vm_compute. reflexivity.
Defined.

Lemma eligible_filter vs c cs i m :
  eligible vs (Some (c :: cs)) i = true ->
  nth_error (_metadatas vs) i = Some m ->
  in_filter (list_to_set (c :: cs)) m = true.
Proof.
  unfold eligible. cbn [mask_of]. intros He Hm.
  rewrite (nth_indep _ false (in_filter (list_to_set (c :: cs)) m)) in He.
  - rewrite map_nth in He. now rewrite (nth_error_nth _ _ _ Hm) in He.
  - rewrite length_map. apply nth_error_Some. now rewrite Hm.
Qed.

(** X22. After [index_chunks] on a non-empty list of chunks the store counts
    as many chunks as were given, whatever it held before, and a search
    filtered by document ids returns only chunks that were indexed and whose
    document id is in the filter, each with the id, the text with its
    context header and the metadata of that chunk. *)
Theorem indexed_search_respects_filter
    (encode : string -> list Q)
    (matmul : list (list Q) -> list Q -> result (list Q))
    (argpartition : list score -> Z -> result (list nat))
    (argsort : list score -> list nat)
    (vs : VectorStore) (chunks : list ArticleChunk.obj) (query : string)
    (c : string) (cs : list string) (n_results : Z) (hits : list hit) :
  chunks <> [] ->
  search encode matmul argpartition argsort (fst (index_chunks encode vs chunks))
    query (Some (c :: cs)) n_results = Ok hits ->
  snd (index_chunks encode vs chunks) = length chunks
  /\ count (fst (index_chunks encode vs chunks)) = length chunks
  /\ well_formed (fst (index_chunks encode vs chunks))
  /\ Forall (fun h => exists chunk,
                 chunk ∈ chunks
                 /\ chunk_id h = ArticleChunk.chunk_id chunk
                 /\ text h = ArticleChunk.text_with_context (ArticleChunk.fields chunk)
                 /\ metadata h = chunk_metadata chunk
                 /\ ArticleChunk.celex_id (ArticleChunk.fields chunk) ∈ c :: cs)
       hits.
Proof.
  intros Hne Hsearch.
  destruct chunks as [|chunk0 rest] eqn:Hchunks; [easy|]. rewrite <- Hchunks in *.
  assert (Hidx : index_chunks encode vs chunks
                 = (MkStore (map ArticleChunk.chunk_id chunks)
                      (map (fun c => ArticleChunk.text_with_context
                                       (ArticleChunk.fields c)) chunks)
                      (map chunk_metadata chunks)
                      (Some (map encode
                               (map (fun c => ArticleChunk.text_with_context
                                                (ArticleChunk.fields c)) chunks))),
                    length chunks)).
  { rewrite Hchunks. reflexivity. }
  rewrite Hidx in *. cbn [fst snd] in *. clear Hidx Hchunks Hne.
  split; [reflexivity|]. split; [apply length_map|].
  split; [unfold well_formed; cbn; now rewrite !length_map|].
  apply search_rows in Hsearch.
  eapply List.Forall_impl; [|exact Hsearch].
  intros h (i & Hi & He & Hid & Ht & Hm & _). cbn in Hid, Ht, Hm.
  rewrite nth_error_map in Hid, Ht, Hm.
  destruct (nth_error chunks i) as [chunk|] eqn:Hchunk; [|discriminate].
  cbn in Hid, Ht, Hm. injection Hid as Hid. injection Ht as Ht. injection Hm as Hm.
  exists chunk. split; [eapply list_elem_of_In, nth_error_In, Hchunk|].
  repeat split; try now symmetry.
  assert (in_filter (list_to_set (c :: cs)) (chunk_metadata chunk) = true) as Hf.
  { apply (eligible_filter _ c cs i _ He). cbn. rewrite nth_error_map, Hchunk.
    reflexivity. }
  unfold in_filter in Hf. rewrite chunk_metadata_celex in Hf.
  apply bool_decide_eq_true in Hf. now apply elem_of_list_to_set in Hf.
Qed.


(** Two chunks of two documents. *)
Definition two_chunks : list ArticleChunk.obj :=
  [ArticleChunk.Obj
     (ArticleChunk.init "32002R0178" 2 "Definitions" "Food means food." "" "" 0 1)
     None;
   ArticleChunk.Obj
     (ArticleChunk.init "32015R2283" 3 "Definitions" "Novel food means new food."
        "CHAPTER I" "" 0 1)
     None].

Example index_two_chunks :
  _ids (fst (index_chunks axis_encode empty_store two_chunks))
  = ["32002R0178_art2"; "32015R2283_art3"]
  /\ search_ids (fst (index_chunks axis_encode empty_store two_chunks)) "x"
       (Some ["32015R2283"]) 5
     = Ok ["32015R2283_art3"].
Proof. split; vm_compute; reflexivity. Qed.

Lemma indexed_search_respects_filter_witness :
  count (fst (index_chunks axis_encode empty_store two_chunks)) = length two_chunks.
Proof.
  eapply (fun hits H1 H2 =>
            proj1 (proj2 (indexed_search_respects_filter axis_encode exact_matmul
                            sorting_argpartition stable_argsort empty_store
                            two_chunks "x" "32015R2283" [] 5 hits H1 H2))).
  - discriminate.
  - vm_compute. reflexivity.
Defined.

End vector_store.
